(** * LBANN communicator and data-reader core: a shallow embedding

    The development follows [src/src/lbann_comm.cpp] (the communicator:
    topology validation, the collective buffer pool, byte accounting and the
    transform-aware allreduce) and [src/src/data_readers/data_reader.cpp]
    (the shuffling core of the data readers and its checkpointing).

    C++ [int] values are integers reduced to 32 bits two's complement,
    [size_t]/[uint64_t] values are integers modulo 2^64; both reductions are
    written out.  Exceptions are a constructor of the [outcome] type. *)

From Stdlib Require Import ZArith Lia Floats.
From stdpp Require Import base tactics option list gmap strings sorting.

Local Open Scope Z_scope.
#[local] Set Warnings "-inexact-float".

(** ** Machine integers *)

Module CInt.

Definition INT_MIN : Z := - 2 ^ 31.
Definition INT_MAX : Z := 2 ^ 31 - 1.

(** the values an [int] can hold *)
Definition in_int (x : Z) : Prop := INT_MIN ≤ x ≤ INT_MAX.

(** conversion to [int]: reduction to 32 bits, two's complement *)
Definition to_int (x : Z) : Z := (x + 2 ^ 31) mod 2 ^ 32 - 2 ^ 31.

(** conversion to [uint64_t] and [size_t]: reduction modulo 2^64 *)
Definition to_uint64 (x : Z) : Z := x mod 2 ^ 64.

(** conversion to [unsigned int] *)
Definition to_uint32 (x : Z) : Z := x mod 2 ^ 32.

Definition int_add (a b : Z) : Z := to_int (a + b).
Definition int_sub (a b : Z) : Z := to_int (a - b).

(** [/] and [%] on [int] truncate toward zero *)
Definition int_div (a b : Z) : Z := to_int (Z.quot a b).
Definition int_rem (a b : Z) : Z := Z.rem a b.

End CInt.

(** ** Exceptions *)

(** The code throws one exception class, [lbann_exception], with a message
    built at the throw site; a constructor stands for each throw site. *)
Inductive lbann_exception : Type :=
  | not_enough_processes (procs_per_model world_size : Z)
  | procs_do_not_divide (procs_per_model world_size : Z)
  | max_sample_count_too_large (count num_data : Z)
  | use_percent_not_set.

Inductive outcome (A : Type) : Type :=
  | Ret (a : A)
  | Throw (e : lbann_exception).
Arguments Ret {A} a.
Arguments Throw {A} e.

(** The error kinds by which the design documents name the throw sites. *)
Inductive error_kind : Type :=
  InvalidTopology | SubsetTooLarge | MissingConfiguration.

Definition kind_of (e : lbann_exception) : error_kind :=
  match e with
  | not_enough_processes _ _ | procs_do_not_divide _ _ => InvalidTopology
  | max_sample_count_too_large _ _ => SubsetTooLarge
  | use_percent_not_set => MissingConfiguration
  end.

Definition fails_with {A} (o : outcome A) (k : error_kind) : Prop :=
  ∃ e, o = Throw e ∧ kind_of e = k.

(** ** The communicator *)

Module Comm.
Import CInt.

(** addresses returned by [new uint8_t[size]] *)
Definition loc := positive.

Inductive pointer : Type :=
  | nullptr
  | addr (l : loc).

(** the live blocks of the free store, with their sizes *)
Abbreviation heap := (gmap loc Z).

Definition new_uint8 (size : Z) (h : heap) : loc * heap :=
  let l := fresh (dom h) in (l, <[l := size]> h).

Record lbann_comm : Type := mk_comm {
  procs_per_model : Z;
  num_models : Z;
  model_rank : Z;
  rank_in_model : Z;
  num_model_barriers : Z;
  num_intermodel_barriers : Z;
  num_global_barriers : Z;
  bytes_sent : Z;
  bytes_received : Z;
  collective_bufs : gmap Z (list loc)
}.

Definition set_bytes_sent (v : Z) (c : lbann_comm) : lbann_comm :=
  mk_comm (procs_per_model c) (num_models c) (model_rank c) (rank_in_model c)
    (num_model_barriers c) (num_intermodel_barriers c)
    (num_global_barriers c) v (bytes_received c) (collective_bufs c).

Definition set_bytes_received (v : Z) (c : lbann_comm) : lbann_comm :=
  mk_comm (procs_per_model c) (num_models c) (model_rank c) (rank_in_model c)
    (num_model_barriers c) (num_intermodel_barriers c)
    (num_global_barriers c) (bytes_sent c) v (collective_bufs c).

Definition set_collective_bufs (b : gmap Z (list loc)) (c : lbann_comm)
  : lbann_comm :=
  mk_comm (procs_per_model c) (num_models c) (model_rank c) (rank_in_model c)
    (num_model_barriers c) (num_intermodel_barriers c)
    (num_global_barriers c) (bytes_sent c) (bytes_received c) b.

(** [bytes_sent += n] and [bytes_received += n] on the [size_t] counters *)
Definition add_bytes_sent (n : Z) (c : lbann_comm) : lbann_comm :=
  set_bytes_sent (to_uint64 (bytes_sent c + to_uint64 n)) c.

Definition add_bytes_received (n : Z) (c : lbann_comm) : lbann_comm :=
  set_bytes_received (to_uint64 (bytes_received c + to_uint64 n)) c.

(** [lbann_comm::lbann_comm(int _procs_per_model)], up to the validation
    of the topology.  [world_size] and [world_rank] are what
    [mpi::Size(mpi::COMM_WORLD)] and [mpi::Rank(mpi::COMM_WORLD)] return on
    the constructing process.  The sub-communicators the constructor
    splits off afterwards are MPI handles and carry no data of the model. *)
Definition lbann_comm_ctor (world_size world_rank : Z) (_procs_per_model : Z)
  : outcome lbann_comm :=
  let procs_per_model :=
    if _procs_per_model =? 0 then world_size else _procs_per_model in
  let num_models := int_div world_size procs_per_model in
  let model_rank := int_div world_rank procs_per_model in
  let rank_in_model := int_rem world_rank procs_per_model in
  if procs_per_model >? world_size then
    Throw (not_enough_processes procs_per_model world_size)
  else if negb (int_rem world_size procs_per_model =? 0) then
    Throw (procs_do_not_divide procs_per_model world_size)
  else
    Ret (mk_comm procs_per_model num_models model_rank rank_in_model
           0 0 0 0 0 ∅).

(** *** Dispatch of [intermodel_allreduce] *)

Inductive allreduce_algorithm : Type :=
  | recursive_doubling
  | pe_ring.

(** The branch structure of [lbann_comm::intermodel_allreduce]:
    [nprocs] is [get_num_models()], the dimensions are those of [mat]. *)
Definition intermodel_allreduce_algorithm (nprocs height width : Z)
  : allreduce_algorithm :=
  if negb (Z.land nprocs (int_sub nprocs 1) =? 0) then pe_ring
  else if (height <=? 64) && (width <=? 64) then recursive_doubling
  else pe_ring.

Definition is_pow2 (n : Z) : Prop := ∃ k, 0 ≤ k ∧ n = 2 ^ k.

(** *** The collective buffer pool *)

(** [lbann_comm::get_collective_buffer(size_t size, size_t idx)].  The
    function has no [throw]: both out-of-sequence branches return
    [nullptr]. *)
Definition get_collective_buffer (size idx : Z) (st : lbann_comm * heap)
  : pointer * (lbann_comm * heap) :=
  let '(c, h) := st in
  match collective_bufs c !! size with
  | None =>
      if negb (idx =? 0) then (nullptr, st)
      else
        let '(l, h') := new_uint8 size h in
        (addr l, (set_collective_bufs (<[size := [l]]> (collective_bufs c)) c, h'))
  | Some bufs =>
      if Z.of_nat (length bufs) >? idx then
        match bufs !! Z.to_nat idx with
        | Some l => (addr l, st)
        | None => (nullptr, st)
        end
      else if negb (Z.of_nat (length bufs) =? idx) then (nullptr, st)
      else
        let '(l, h') := new_uint8 size h in
        (addr l,
         (set_collective_bufs (<[size := bufs ++ [l]]> (collective_bufs c)) c,
          h'))
  end.

(** the length of the bucket for [size]; a missing bucket has length 0 *)
Definition bucket_len (c : lbann_comm) (size : Z) : Z :=
  Z.of_nat (length (default [] (collective_bufs c !! size))).

Definition bucket_slot (c : lbann_comm) (size idx : Z) : option loc :=
  default [] (collective_bufs c !! size) !! Z.to_nat idx.

(** what the pool keeps true of itself: the buffers of a bucket are
    distinct live blocks, each of the size of its bucket *)
Definition pool_ok (st : lbann_comm * heap) : Prop :=
  ∀ size bufs, collective_bufs st.1 !! size = Some bufs →
    NoDup bufs ∧ Forall (λ l, st.2 !! l = Some size) bufs.

(** *** The destructor

    Of [lbann_comm::~lbann_comm], the loops that give the pool back:
    [for (auto&& buf_vec : collective_bufs)] and, in it,
    [for (auto&& buf : buf_vec.second) delete[] buf].  The grid and the
    communicators that are freed before are handles and carry no data
    here. *)

(** [delete[] buf] wants a live block; on any other address the behaviour
    is undefined *)
Definition delete_uint8 (buf : loc) (h : heap) : option heap :=
  match h !! buf with
  | Some _ => Some (delete buf h)
  | None => None
  end.

(** the inner loop, over the buffers of one bucket *)
Fixpoint delete_bufs (buf_vec : list loc) (h : heap) : option heap :=
  match buf_vec with
  | [] => Some h
  | buf :: rest =>
      match delete_uint8 buf h with
      | Some h' => delete_bufs rest h'
      | None => None
      end
  end.

(** the outer loop, over the buckets in the order in which the container
    hands them out *)
Fixpoint delete_buckets (buckets : list (Z * list loc)) (h : heap)
  : option heap :=
  match buckets with
  | [] => Some h
  | buf_vec :: rest =>
      match delete_bufs buf_vec.2 h with
      | Some h' => delete_buckets rest h'
      | None => None
      end
  end.

(** the requests [get_collective_buffer(size, idx)] of a run, one after the
    other, whatever each of them returns *)
Definition get_collective_buffers (requests : list (Z * Z))
  (st : lbann_comm * heap) : lbann_comm * heap :=
  foldl (λ st request,
           (get_collective_buffer request.1 request.2 st).2) st requests.

(** *** The node communicator

    [lbann_comm::setup_node_comm] splits the world by a hash of the name of
    the compute node, and then every class of the hash by the names
    themselves. *)

(** the colour of the first split.  [hash_value] is the [size_t] that
    [std::hash<std::string>()(node_string)] returns; it is stored in
    [int hash], and [hash = hash >= 0 ? hash : -hash] follows *)
Definition node_hash (hash_value : Z) : Z :=
  let hash := to_int hash_value in
  if hash >=? 0 then hash else to_int (- hash).

(** the loop [for (int i = 0; i < hash_comm_size; ++i)] from index [i] on,
    over the names that are left of [node_name_list]: [node_num] becomes the
    first [i] whose name equals [node_string], and the loop breaks *)
Fixpoint first_same_node (node_string : string) (node_name_list : list string)
  (i node_num : Z) : Z :=
  match node_name_list with
  | [] => node_num
  | other_node_string :: rest =>
      if String.eqb node_string other_node_string then i
      else first_same_node node_string rest (int_add i 1) node_num
  end.

(** the colour of the second split: [node_num] starts as
    [mpi::Rank(hash_comm)] *)
Definition node_num (node_string : string) (node_name_list : list string)
  (rank_in_hash_comm : Z) : Z :=
  first_same_node node_string node_name_list 0 rank_in_hash_comm.

Section node_comm.

(** [std::hash<std::string>] *)
Variable std_hash : string → Z.

(** The processes of the world, by world rank, with the names of their
    nodes.  [mpi::Split(COMM_WORLD, hash, rank, hash_comm)] puts the
    processes of one colour into one communicator, in the order of their
    world ranks; [MPI_Allgather] then gives each of them the names of all
    of them, in that order. *)
Definition hash_comm_names (node_names : list string) (colour : Z)
  : list string :=
  filter (λ s, node_hash (std_hash s) = colour) node_names.

(** the two colours by which world rank [world_rank] ends up in its
    [node_comm] *)
Definition node_colours (node_names : list string) (world_rank : nat)
  : option (Z * Z) :=
  match node_names !! world_rank with
  | None => None
  | Some node_string =>
      let hash := node_hash (std_hash node_string) in
      let rank_in_hash_comm :=
        Z.of_nat (length (hash_comm_names (take world_rank node_names) hash)) in
      Some (hash,
            node_num node_string (hash_comm_names node_names hash)
              rank_in_hash_comm)
  end.

End node_comm.

(** *** Dense matrices

    [El::Matrix<DataType>] is stored column by column; a matrix is its
    height and the list of its columns.  [DataType] is a parameter. *)

Section matrix.
Context {T : Type}.

Record Mat : Type := mk_Mat {
  Height : Z;
  columns : list (list T)
}.

Definition Width (m : Mat) : Z := Z.of_nat (length (columns m)).

(** the index ranges of Elemental: [ALL], or the half-open [IR(lo, hi)] *)
Inductive range : Type :=
  | ALL
  | IR (lo hi : Z).

Definition range_lo (r : range) : Z :=
  match r with ALL => 0 | IR lo _ => lo end.

Definition range_len (n : Z) (r : range) : Z :=
  match r with ALL => n | IR lo hi => hi - lo end.

(** [mat(ALL, cols)]: the columns of the range, seen through a view *)
Definition view (m : Mat) (cols : range) : Mat :=
  mk_Mat (Height m)
    (take (Z.to_nat (range_len (Width m) cols))
       (drop (Z.to_nat (range_lo cols)) (columns m))).

(** A view shares the storage of its matrix: what is written through the
    view [mat(ALL, cols)] lands in the columns [cols] of [mat]. *)
Definition write_view (m : Mat) (cols : range) (v : Mat) : Mat :=
  mk_Mat (Height m)
    (imap (λ j c,
       let i := Z.of_nat j - range_lo cols in
       if (0 <=? i) && (i <? range_len (Width m) cols)
       then default c (columns v !! Z.to_nat i) else c)
       (columns m)).

(** a distributed matrix, of which a process holds the local tile *)
Record DistMat : Type := mk_DistMat {
  dist_height : Z;
  dist_width : Z;
  local_matrix : Mat
}.

Definition LocalHeight (d : DistMat) : Z := Height (local_matrix d).
Definition LocalWidth (d : DistMat) : Z := Width (local_matrix d).

End matrix.
Arguments Mat T : clear implicits.
Arguments DistMat T : clear implicits.

(** *** Collectives of the facade and their byte accounting *)

Section facade.
Context {T : Type}.

(** [sizeof(DataType)]; the typedef is made outside this file. *)
Variable sizeof_DataType : Z.

(** Elemental's [AllReduce(mat, comm, mpi::SUM)] and [Broadcast(mat, comm,
    root)], as they act on the matrix of the calling process. *)
Variable AllReduce : Mat T → Mat T.
Variable Broadcast : Mat T → Z → Mat T.

(** [lbann_comm::intermodel_sum_matrix(Mat& mat)] *)
Definition intermodel_sum_matrix (c : lbann_comm) (mat : Mat T)
  : lbann_comm * Mat T :=
  let c1 :=
    add_bytes_sent
      (to_uint64 (sizeof_DataType * Height mat) * Width mat) c in
  let mat1 := AllReduce mat in
  let c2 :=
    add_bytes_received
      (to_uint64 (sizeof_DataType * Height mat1) * Width mat1) c1 in
  (c2, mat1).

(** [lbann_comm::intermodel_sum_matrix(DistMat& mat)] *)
Definition intermodel_sum_matrix_dist (c : lbann_comm) (mat : DistMat T)
  : lbann_comm * DistMat T :=
  let c1 :=
    add_bytes_sent
      (to_uint64 (sizeof_DataType * LocalHeight mat) * LocalWidth mat) c in
  let mat1 :=
    mk_DistMat (dist_height mat) (dist_width mat)
      (AllReduce (local_matrix mat)) in
  let c2 :=
    add_bytes_received
      (to_uint64 (sizeof_DataType * LocalHeight mat1) * LocalWidth mat1) c1 in
  (c2, mat1).

(** [lbann_comm::intermodel_broadcast_matrix(Mat& mat, int root)] *)
Definition intermodel_broadcast_matrix (c : lbann_comm) (mat : Mat T)
  (root : Z) : lbann_comm * Mat T :=
  (c, Broadcast mat root).

(** [lbann_comm::intermodel_broadcast_matrix(DistMat& mat, int root)] *)
Definition intermodel_broadcast_matrix_dist (c : lbann_comm)
  (mat : DistMat T) (root : Z) : lbann_comm * DistMat T :=
  (c, mk_DistMat (dist_height mat) (dist_width mat)
        (Broadcast (local_matrix mat) root)).

End facade.

End Comm.

(** ** The transform-aware allreduce

    The allreduce is a collective: every rank of the inter-model
    communicator runs the same code, and the calls of [mpi::SendRecv] pair
    the ranks up.  The ranks are modelled together, as the list of their
    states indexed by rank, and advance one [mpi::SendRecv] at a time. *)

Module Allreduce.
Import CInt Comm.

Section allreduce.
Context {T Buf : Type}.

(** the callbacks [send_transform], [recv_transform] and
    [recv_apply_transform]; each returns, next to its result, the size in
    bytes it wrote to [send_size] or returns as [recv_size] *)
Record transforms : Type := mk_transforms {
  send_transform : Mat T → range → range → bool → Buf * Z;
  recv_transform : Buf → Mat T → Mat T * Z;
  recv_apply_transform : Buf → Mat T → Mat T * Z
}.

(** a rank: its communicator object and the matrix it passes as [mat] *)
Record proc : Type := mk_proc {
  p_comm : lbann_comm;
  p_mat : Mat T
}.

(** One [mpi::SendRecv] on every rank.  Rank [r] first runs [before], which
    yields its state and the message it posts as (buffer, size, destination);
    it then receives from [src r] the message that rank addressed to it and
    runs [after] on it.  The round does not complete when a rank waits for a
    message that is not sent to it, or when the message exceeds the
    [max_recv_count] bytes of the receive buffer. *)
Definition SendRecv_round {S S1 S2 : Type} (max_recv_count : Z)
  (before : Z → S → S1 * (Buf * Z * Z)) (src : Z → Z)
  (after : Z → Buf → S1 → S2) (w : list S) : option (list S2) :=
  let mid := imap (λ r st, before (Z.of_nat r) st) w in
  mapM (λ x : Z * (S1 * (Buf * Z * Z)),
    let '(r, (st, _)) := x in
    match (if 0 <=? src r then mid !! Z.to_nat (src r) else None) with
    | Some (_, (msg, size, dst)) =>
        if (dst =? r) && (size <=? max_recv_count)
        then Some (after r msg st) else None
    | None => None
    end) (imap (λ r y, (Z.of_nat r, y)) mid).

(** a [for] loop over the steps of [steps], each step a round *)
Fixpoint for_steps {S : Type} (body : Z → list S → option (list S))
  (steps : list Z) (w : list S) : option (list S) :=
  match steps with
  | [] => Some w
  | step :: steps' =>
      match body step w with
      | Some w' => for_steps body steps' w'
      | None => None
      end
  end.

Variable tr : transforms.

(** *** Recursive doubling *)

Definition rd_before (mask rank : Z) (st : proc) : proc * (Buf * Z * Z) :=
  let partner := Z.lxor rank mask in
  let '(send_buf, send_size) := send_transform tr (p_mat st) ALL ALL false in
  (mk_proc (add_bytes_sent send_size (p_comm st)) (p_mat st),
   (send_buf, send_size, partner)).

Definition rd_after (rank : Z) (recv_buf : Buf) (st : proc) : proc :=
  let '(mat, recv_size) := recv_apply_transform tr recv_buf (p_mat st) in
  mk_proc (add_bytes_received recv_size (p_comm st)) mat.

(** the loop [while (mask < nprocs)], [mask] an [unsigned int] *)
Fixpoint rd_loop (fuel : nat) (max_recv_count nprocs mask : Z)
  (w : list proc) : option (list proc) :=
  if negb (mask <? to_uint32 nprocs) then Some w
  else
    match fuel with
    | O => None
    | S fuel' =>
        match SendRecv_round max_recv_count (rd_before mask)
                (λ rank, Z.lxor rank mask) rd_after w with
        | Some w' =>
            rd_loop fuel' max_recv_count nprocs
              (to_uint32 (Z.shiftl mask 1)) w'
        | None => None
        end
    end.

(** [lbann_comm::recursive_doubling_allreduce_pow2].  After 32 shifts the
    mask is 0 again, so 32 rounds are all the loop can make before it would
    run forever. *)
Definition recursive_doubling_allreduce_pow2 (max_recv_count : Z)
  (w : list proc) : option (list proc) :=
  let nprocs := Z.of_nat (length w) in
  if negb (Z.land nprocs (int_sub nprocs 1) =? 0) then Some w
  else rd_loop 32 max_recv_count nprocs 1 w.

(** *** Pairwise-exchange ring *)

(** [slice_lengths]: [nprocs] entries [cols_per_proc], the first
    [cols_remainder] of them incremented by the loop *)
Definition slice_lengths (width nprocs : Z) : list Z :=
  let cols_per_proc := Z.quot width nprocs in
  let cols_remainder := Z.rem width nprocs in
  foldl (λ l i, <[Z.to_nat i := l !!! Z.to_nat i + 1]> l)
    (replicate (Z.to_nat nprocs) cols_per_proc) (seqZ 0 cols_remainder).

(** [std::partial_sum] *)
Fixpoint partial_sum_from (acc : Z) (l : list Z) : list Z :=
  match l with
  | [] => []
  | x :: l' => (acc + x) :: partial_sum_from (acc + x) l'
  end.

Definition slice_ends (width nprocs : Z) : list Z :=
  partial_sum_from 0 (slice_lengths width nprocs).

(** [slice_ends[i]] and [slice_ends[i] - slice_lengths[i]] *)
Definition slice_hi (width nprocs i : Z) : Z :=
  slice_ends width nprocs !!! Z.to_nat i.

Definition slice_lo (width nprocs i : Z) : Z :=
  slice_ends width nprocs !!! Z.to_nat i
  - slice_lengths width nprocs !!! Z.to_nat i.

(** [IR(slice_ends[i] - slice_lengths[i], slice_ends[i])] *)
Definition slice (width nprocs i : Z) : range :=
  IR (slice_lo width nprocs i) (slice_hi width nprocs i).

(** the reduce-scatter step [step] *)
Definition rs_before (nprocs step rank : Z) (st : proc)
  : proc * (Buf * Z * Z) :=
  let dst := int_rem (int_add rank step) nprocs in
  let '(send_buf, send_size) :=
    send_transform tr (p_mat st) ALL
      (slice (Width (p_mat st)) nprocs dst) true in
  (mk_proc (add_bytes_sent send_size (p_comm st)) (p_mat st),
   (send_buf, send_size, dst)).

Definition rs_src (nprocs step rank : Z) : Z :=
  int_rem (int_add (int_sub rank step) nprocs) nprocs.

Definition rs_after (nprocs rank : Z) (recv_buf : Buf) (st : proc) : proc :=
  let cols := slice (Width (p_mat st)) nprocs rank in
  let accum_view := view (p_mat st) cols in
  let '(accum, recv_size) := recv_apply_transform tr recv_buf accum_view in
  mk_proc (add_bytes_received recv_size (p_comm st))
    (write_view (p_mat st) cols accum).

(** the locals of the ring allgather: the contents of the two scratch
    buffers ([recv_buf2] holds nothing yet when it is fetched) and
    [send_size] *)
Record ring_local : Type := mk_ring_local {
  rl_proc : proc;
  rl_recv_buf : Buf;
  rl_recv_buf2 : option Buf;
  rl_send_size : Z
}.

Definition ring_src (nprocs rank : Z) : Z :=
  int_rem (int_add (int_sub rank 1) nprocs) nprocs.

Definition ring_dst (nprocs rank : Z) : Z :=
  int_rem (int_add rank 1) nprocs.

(** the first step of the allgather, which forwards the local slice *)
Definition ag_first_before (nprocs rank : Z) (st : proc)
  : proc * (Buf * Z * Z) :=
  let '(send_buf, send_size) :=
    send_transform tr (p_mat st) ALL
      (slice (Width (p_mat st)) nprocs rank) false in
  (mk_proc (add_bytes_sent send_size (p_comm st)) (p_mat st),
   (send_buf, send_size, ring_dst nprocs rank)).

Definition ag_first_after (nprocs rank : Z) (recv_buf : Buf) (st : proc)
  : ring_local :=
  let data_src := int_rem (int_add (int_sub rank 1) nprocs) nprocs in
  let cols := slice (Width (p_mat st)) nprocs data_src in
  let recv_view := view (p_mat st) cols in
  let '(recv, recv_size) := recv_transform tr recv_buf recv_view in
  mk_ring_local
    (mk_proc (add_bytes_received recv_size (p_comm st))
       (write_view (p_mat st) cols recv))
    recv_buf None recv_size.

(** the remaining steps, which forward what was received last *)
Definition ag_before (nprocs rank : Z) (l : ring_local)
  : ring_local * (Buf * Z * Z) :=
  let st := rl_proc l in
  (mk_ring_local
     (mk_proc (add_bytes_sent (rl_send_size l) (p_comm st)) (p_mat st))
     (rl_recv_buf l) (rl_recv_buf2 l) (rl_send_size l),
   (rl_recv_buf l, rl_send_size l, ring_dst nprocs rank)).

Definition ag_after (nprocs step rank : Z) (recv_buf2 : Buf) (l : ring_local)
  : ring_local :=
  let st := rl_proc l in
  let data_src :=
    int_rem (int_add (int_sub (int_sub rank step) 1) nprocs) nprocs in
  let cols := slice (Width (p_mat st)) nprocs data_src in
  let recv_view := view (p_mat st) cols in
  let '(recv, recv_size) := recv_transform tr recv_buf2 recv_view in
  mk_ring_local
    (mk_proc (add_bytes_received recv_size (p_comm st))
       (write_view (p_mat st) cols recv))
    recv_buf2 (Some (rl_recv_buf l)) recv_size.

(** [lbann_comm::pe_ring_allreduce] *)
Definition pe_ring_allreduce (max_recv_count : Z) (w : list proc)
  : option (list proc) :=
  let nprocs := Z.of_nat (length w) in
  match for_steps
          (λ step, SendRecv_round max_recv_count (rs_before nprocs step)
                     (rs_src nprocs step) (rs_after nprocs))
          (seqZ 1 (nprocs - 1)) w with
  | None => None
  | Some w1 =>
      match SendRecv_round max_recv_count (ag_first_before nprocs)
              (ring_src nprocs) (ag_first_after nprocs) w1 with
      | None => None
      | Some w2 =>
          match for_steps
                  (λ step, SendRecv_round max_recv_count (ag_before nprocs)
                             (ring_src nprocs) (ag_after nprocs step))
                  (seqZ 1 (nprocs - 2)) w2 with
          | None => None
          | Some w3 => Some (rl_proc <$> w3)
          end
      end
  end.

(** [lbann_comm::intermodel_allreduce].  Each rank picks its algorithm from
    its own [get_num_models()] and the dimensions of its own matrix; the
    collective runs when the ranks agree. *)
Definition algorithm_of (st : proc) : allreduce_algorithm :=
  intermodel_allreduce_algorithm (num_models (p_comm st))
    (Height (p_mat st)) (Width (p_mat st)).

Definition intermodel_allreduce (max_recv_count : Z) (w : list proc)
  : option (list proc) :=
  if forallb (λ st, match algorithm_of st with
                    | recursive_doubling => true | pe_ring => false end) w
  then recursive_doubling_allreduce_pow2 max_recv_count w
  else if forallb (λ st, match algorithm_of st with
                         | pe_ring => true | recursive_doubling => false
                         end) w
  then pe_ring_allreduce max_recv_count w
  else None.

(** *** Ring

    [lbann_comm::ring_allreduce], which [intermodel_allreduce] does not
    call.  The slices go round the ring and every rank adds its part to the
    slice that passes through.  The function has no statement on
    [bytes_sent] or [bytes_received]. *)

Definition ring_rs_before (nprocs step rank : Z) (st : proc)
  : proc * (Buf * Z * Z) :=
  let send_slice := int_rem (int_add (int_sub rank step) nprocs) nprocs in
  let '(send_buf, send_size) :=
    send_transform tr (p_mat st) ALL
      (slice (Width (p_mat st)) nprocs send_slice) false in
  (st, (send_buf, send_size, ring_dst nprocs rank)).

Definition ring_rs_after (nprocs step rank : Z) (recv_buf : Buf) (st : proc)
  : proc :=
  let recv_slice :=
    int_rem (int_add (int_sub (int_sub rank step) 1) nprocs) nprocs in
  let cols := slice (Width (p_mat st)) nprocs recv_slice in
  let recv_view := view (p_mat st) cols in
  let '(recv, _) := recv_apply_transform tr recv_buf recv_view in
  mk_proc (p_comm st) (write_view (p_mat st) cols recv).

(** the first step of the allgather *)
Definition ring_ag_first_before (nprocs rank : Z) (st : proc)
  : proc * (Buf * Z * Z) :=
  let send_slice := int_rem (int_add rank 1) nprocs in
  let '(send_buf, send_size) :=
    send_transform tr (p_mat st) ALL
      (slice (Width (p_mat st)) nprocs send_slice) false in
  (st, (send_buf, send_size, ring_dst nprocs rank)).

Definition ring_ag_first_after (nprocs rank : Z) (recv_buf : Buf) (st : proc)
  : ring_local :=
  let recv_slice := rank in
  let cols := slice (Width (p_mat st)) nprocs recv_slice in
  let recv_view := view (p_mat st) cols in
  let '(recv, recv_size) := recv_transform tr recv_buf recv_view in
  mk_ring_local (mk_proc (p_comm st) (write_view (p_mat st) cols recv))
    recv_buf None recv_size.

(** the remaining steps *)
Definition ring_ag_before (nprocs rank : Z) (l : ring_local)
  : ring_local * (Buf * Z * Z) :=
  (l, (rl_recv_buf l, rl_send_size l, ring_dst nprocs rank)).

Definition ring_ag_after (nprocs step rank : Z) (recv_buf2 : Buf)
  (l : ring_local) : ring_local :=
  let st := rl_proc l in
  let recv_slice := int_rem (int_add (int_sub rank step) nprocs) nprocs in
  let cols := slice (Width (p_mat st)) nprocs recv_slice in
  let recv_view := view (p_mat st) cols in
  let '(recv, recv_size) := recv_transform tr recv_buf2 recv_view in
  mk_ring_local (mk_proc (p_comm st) (write_view (p_mat st) cols recv))
    recv_buf2 (Some (rl_recv_buf l)) recv_size.

(** [lbann_comm::ring_allreduce] *)
Definition ring_allreduce (max_recv_count : Z) (w : list proc)
  : option (list proc) :=
  let nprocs := Z.of_nat (length w) in
  match for_steps
          (λ step, SendRecv_round max_recv_count (ring_rs_before nprocs step)
                     (ring_src nprocs) (ring_rs_after nprocs step))
          (seqZ 0 (nprocs - 1)) w with
  | None => None
  | Some w1 =>
      match SendRecv_round max_recv_count (ring_ag_first_before nprocs)
              (ring_src nprocs) (ring_ag_first_after nprocs) w1 with
      | None => None
      | Some w2 =>
          match for_steps
                  (λ step, SendRecv_round max_recv_count
                             (ring_ag_before nprocs) (ring_src nprocs)
                             (ring_ag_after nprocs step))
                  (seqZ 1 (nprocs - 2)) w2 with
          | None => None
          | Some w3 => Some (rl_proc <$> w3)
          end
      end
  end.

End allreduce.
Arguments transforms T Buf : clear implicits.
Arguments proc T : clear implicits.
Arguments ring_local T Buf : clear implicits.

(** *** The transforms of a plain sum

    The buffer is the slice itself (the encoding is the identity);
    receiving copies the columns into the destination, receive-and-apply
    adds them entry by entry with the addition [add] of [DataType]. *)

Section sum_transforms.
Context {T : Type}.
Variable add : T → T → T.
Variable sizeof_DataType : Z.

Definition encoded_size (m : Mat T) : Z :=
  sizeof_DataType * Height m * Width m.

Definition mat_add (a b : Mat T) : Mat T :=
  mk_Mat (Height a) (zip_with (zip_with add) (columns a) (columns b)).

Definition mat_copy (dest src : Mat T) : Mat T :=
  mk_Mat (Height dest) (zip_with (λ _ c, c) (columns dest) (columns src)).

Definition row_slice (rows : range) (m : Mat T) : Mat T :=
  match rows with
  | ALL => m
  | IR lo hi =>
      mk_Mat (hi - lo)
        ((λ c, take (Z.to_nat (hi - lo)) (drop (Z.to_nat lo) c)) <$> columns m)
  end.

Definition sum_transforms : transforms T (Mat T) :=
  mk_transforms
    (λ mat rows cols _, let v := row_slice rows (view mat cols) in
                        (v, encoded_size v))
    (λ buf dest, (mat_copy dest buf, encoded_size buf))
    (λ buf dest, (mat_add dest buf, encoded_size buf)).

(** the entry-by-entry sum [m0 + m1 + ... ], added from the left *)
Definition mat_sum (m0 : Mat T) (ms : list (Mat T)) : Mat T :=
  foldl mat_add m0 ms.

(** the byte counters of a world: rank [r] has sent [S r] columns of
    height [H] and received [R r] of them since its counters were [bs r]
    and [br r] *)
Definition bytes_counted (H : Z) (bs br : nat → Z) (S R : Z → Z)
  (w : list (proc T)) : Prop :=
  ∀ (r : nat) (st : proc T), w !! r = Some st →
    bytes_sent (p_comm st)
    = (bs r + sizeof_DataType * H * S (Z.of_nat r)) mod 2 ^ 64
    ∧ bytes_received (p_comm st)
      = (br r + sizeof_DataType * H * R (Z.of_nat r)) mod 2 ^ 64.

Definition bytes_counted_ring (H : Z) (bs br : nat → Z) (S R : Z → Z)
  (w : list (ring_local T (Mat T))) : Prop :=
  bytes_counted H bs br S R (rl_proc <$> w).

End sum_transforms.

End Allreduce.

(** ** The data reader *)

Module Reader.
Import CInt Comm.

(** *** Containers and numbers of the C++ library *)

(** [std::vector<int>::resize(n)]: cut, or fill up with zeros *)
Definition resize (n : nat) (l : list Z) : list Z :=
  take n l ++ replicate (n - length l) 0.

(** [std::sort] on a [std::vector<int>] *)
Definition std_sort (l : list Z) : list Z := merge_sort Z.le l.

(** [Zeros(M, m, n)] of Elemental: [M] becomes the m x n zero matrix *)
Definition Zeros (m n : Z) : Mat Z :=
  mk_Mat m (replicate (Z.to_nat n) (replicate (Z.to_nat m) 0)).

(** the conversion of an [int] to [double] (exact below 2^53) *)
Definition int_to_double (n : Z) : float :=
  if n <? 0 then PrimFloat.opp (PrimFloat.of_uint63 (Uint63.of_Z (- n)))
  else PrimFloat.of_uint63 (Uint63.of_Z n).

(** the conversion of a [double] to an integer type: the fraction is cut
    off.  Not-a-number, the infinities and the values that the target type
    does not hold (a negative one for [size_t]) have no defined conversion;
    not-a-number and the infinities are sent to 0 here.  The function
    follows the code on the products of a percentage between 0 and 1 with
    a number of indices, and the theorems on [select_subset_of_data] that
    read a percentage keep it there. *)
Definition double_to_Z (f : float) : Z :=
  match Prim2SF f with
  | S754_finite s m e =>
      let v := match e with
               | Z0 => Zpos m
               | Zpos _ => Z.shiftl (Zpos m) e
               | Zneg p => Z.shiftr (Zpos m) (Zpos p)
               end in
      if s then - v else v
  | _ => 0
  end.

(** *** The state of [generic_data_reader] *)

Record generic_data_reader : Type := mk_reader {
  m_batch_size : Z;
  m_current_pos : Z;
  m_batch_stride : Z;
  m_sample_stride : Z;
  m_base_offset : Z;
  m_model_offset : Z;
  m_use_alt_last_mini_batch_size : bool;
  m_last_mini_batch_threshold : Z;
  m_last_mini_batch_size : Z;
  m_last_mini_batch_stride : Z;
  m_current_mini_batch_idx : Z;
  m_num_mini_batches_per_reader : Z;
  m_num_iterations_per_epoch : Z;
  m_shuffled_indices : list Z;
  m_unused_indices : list Z;
  m_indices_fetched_per_mb : Mat Z;
  m_first_n : bool;
  m_max_sample_count : Z;
  m_max_sample_count_was_set : bool;
  m_validation_percent : float;
  m_use_percent : float
}.

Definition set_current_pos (v : Z) (r : generic_data_reader)
  : generic_data_reader :=
  mk_reader (m_batch_size r) v (m_batch_stride r) (m_sample_stride r)
    (m_base_offset r) (m_model_offset r) (m_use_alt_last_mini_batch_size r)
    (m_last_mini_batch_threshold r) (m_last_mini_batch_size r)
    (m_last_mini_batch_stride r) (m_current_mini_batch_idx r)
    (m_num_mini_batches_per_reader r) (m_num_iterations_per_epoch r)
    (m_shuffled_indices r) (m_unused_indices r) (m_indices_fetched_per_mb r)
    (m_first_n r) (m_max_sample_count r) (m_max_sample_count_was_set r)
    (m_validation_percent r) (m_use_percent r).

Definition set_current_mini_batch_idx (v : Z) (r : generic_data_reader)
  : generic_data_reader :=
  mk_reader (m_batch_size r) (m_current_pos r) (m_batch_stride r)
    (m_sample_stride r) (m_base_offset r) (m_model_offset r)
    (m_use_alt_last_mini_batch_size r) (m_last_mini_batch_threshold r)
    (m_last_mini_batch_size r) (m_last_mini_batch_stride r) v
    (m_num_mini_batches_per_reader r) (m_num_iterations_per_epoch r)
    (m_shuffled_indices r) (m_unused_indices r) (m_indices_fetched_per_mb r)
    (m_first_n r) (m_max_sample_count r) (m_max_sample_count_was_set r)
    (m_validation_percent r) (m_use_percent r).

Definition set_shuffled_indices (v : list Z) (r : generic_data_reader)
  : generic_data_reader :=
  mk_reader (m_batch_size r) (m_current_pos r) (m_batch_stride r)
    (m_sample_stride r) (m_base_offset r) (m_model_offset r)
    (m_use_alt_last_mini_batch_size r) (m_last_mini_batch_threshold r)
    (m_last_mini_batch_size r) (m_last_mini_batch_stride r)
    (m_current_mini_batch_idx r) (m_num_mini_batches_per_reader r)
    (m_num_iterations_per_epoch r) v (m_unused_indices r)
    (m_indices_fetched_per_mb r) (m_first_n r) (m_max_sample_count r)
    (m_max_sample_count_was_set r) (m_validation_percent r) (m_use_percent r).

Definition set_unused_indices (v : list Z) (r : generic_data_reader)
  : generic_data_reader :=
  mk_reader (m_batch_size r) (m_current_pos r) (m_batch_stride r)
    (m_sample_stride r) (m_base_offset r) (m_model_offset r)
    (m_use_alt_last_mini_batch_size r) (m_last_mini_batch_threshold r)
    (m_last_mini_batch_size r) (m_last_mini_batch_stride r)
    (m_current_mini_batch_idx r) (m_num_mini_batches_per_reader r)
    (m_num_iterations_per_epoch r) (m_shuffled_indices r) v
    (m_indices_fetched_per_mb r) (m_first_n r) (m_max_sample_count r)
    (m_max_sample_count_was_set r) (m_validation_percent r) (m_use_percent r).

Definition set_indices_fetched_per_mb (v : Mat Z) (r : generic_data_reader)
  : generic_data_reader :=
  mk_reader (m_batch_size r) (m_current_pos r) (m_batch_stride r)
    (m_sample_stride r) (m_base_offset r) (m_model_offset r)
    (m_use_alt_last_mini_batch_size r) (m_last_mini_batch_threshold r)
    (m_last_mini_batch_size r) (m_last_mini_batch_stride r)
    (m_current_mini_batch_idx r) (m_num_mini_batches_per_reader r)
    (m_num_iterations_per_epoch r) (m_shuffled_indices r) (m_unused_indices r)
    v (m_first_n r) (m_max_sample_count r) (m_max_sample_count_was_set r)
    (m_validation_percent r) (m_use_percent r).

(** *** Accessors *)

(** Modelled from the spec: [getNumData()] is declared in the header of the
    reader, which is not part of these sources.  The data count [N] of the
    reader is the number of shuffled indices, as the comment at its use in
    [select_subset_of_data] says ([getNumData() = m_shuffled_indices.size()]);
    it is returned as an [int]. *)
Definition getNumData (r : generic_data_reader) : Z :=
  to_int (Z.of_nat (length (m_shuffled_indices r))).

Definition get_firstN (r : generic_data_reader) : bool := m_first_n r.

Definition has_max_sample_count (r : generic_data_reader) : bool :=
  m_max_sample_count_was_set r.

Definition get_max_sample_count (r : generic_data_reader) : Z :=
  m_max_sample_count r.

Definition has_validation_percent (r : generic_data_reader) : bool :=
  if PrimFloat.eqb (m_validation_percent r) (-1)%float then false else true.

Definition get_validation_percent (r : generic_data_reader) : float :=
  m_validation_percent r.

Definition has_use_percent (r : generic_data_reader) : bool :=
  if PrimFloat.eqb (m_use_percent r) (-1)%float then false else true.

Definition get_use_percent (r : generic_data_reader) : outcome float :=
  if negb (has_use_percent r) then Throw use_percent_not_set
  else Ret (m_use_percent r).

(** [generic_data_reader::getm_batch_size() const]; the reader comes back
    as the call leaves it *)
Definition getm_batch_size (r : generic_data_reader)
  : Z * generic_data_reader :=
  if m_use_alt_last_mini_batch_size r
     && (m_current_mini_batch_idx r
         >=? int_sub (m_num_mini_batches_per_reader r) 1)
  then (m_last_mini_batch_size r, r)
  else (m_batch_size r, r).

(** [generic_data_reader::get_next_position() const] *)
Definition get_next_position (r : generic_data_reader) : Z :=
  if m_use_alt_last_mini_batch_size r
     && (int_add (m_current_mini_batch_idx r) 1
         >=? int_sub (m_num_mini_batches_per_reader r) 1)
  then int_add (m_current_pos r) (m_last_mini_batch_stride r)
  else int_add (m_current_pos r) (m_batch_stride r).

(** [generic_data_reader::use_unused_index_set] *)
Definition use_unused_index_set (r : generic_data_reader)
  : generic_data_reader :=
  set_unused_indices [] (set_shuffled_indices (m_unused_indices r) r).

(** *** Assignment *)

(** [generic_data_reader::operator=]: the reader [this] after
    [*this = source].  Thirteen members are assigned; the others keep the
    values they have in [this]. *)
Definition assign (this source : generic_data_reader) : generic_data_reader :=
  mk_reader (m_batch_size source) (m_current_pos source)
    (m_batch_stride source) (m_sample_stride source) (m_base_offset source)
    (m_model_offset source) (m_use_alt_last_mini_batch_size source)
    (m_last_mini_batch_threshold source) (m_last_mini_batch_size source)
    (m_last_mini_batch_stride source) (m_current_mini_batch_idx this)
    (m_num_mini_batches_per_reader this) (m_num_iterations_per_epoch this)
    (m_shuffled_indices source) (m_unused_indices source)
    (m_indices_fetched_per_mb this) (m_first_n source)
    (m_max_sample_count this) (m_max_sample_count_was_set this)
    (m_validation_percent this) (m_use_percent this).

(** *** Setters of the subset options *)

(** the throw sites of the setters and of the getters of the file names;
    each builds its message from the value it was passed *)
Inductive option_exception : Type :=
  | validation_percent_out_of_range (s : float)
  | use_percent_out_of_range (s : float)
  | data_filename_not_set
  | label_filename_not_set.

Definition set_max_sample_count (s : Z) (r : generic_data_reader)
  : generic_data_reader :=
  mk_reader (m_batch_size r) (m_current_pos r) (m_batch_stride r)
    (m_sample_stride r) (m_base_offset r) (m_model_offset r)
    (m_use_alt_last_mini_batch_size r) (m_last_mini_batch_threshold r)
    (m_last_mini_batch_size r) (m_last_mini_batch_stride r)
    (m_current_mini_batch_idx r) (m_num_mini_batches_per_reader r)
    (m_num_iterations_per_epoch r) (m_shuffled_indices r) (m_unused_indices r)
    (m_indices_fetched_per_mb r) (m_first_n r) (to_uint64 s) true
    (m_validation_percent r) (m_use_percent r).

Definition set_firstN (b : bool) (r : generic_data_reader)
  : generic_data_reader :=
  mk_reader (m_batch_size r) (m_current_pos r) (m_batch_stride r)
    (m_sample_stride r) (m_base_offset r) (m_model_offset r)
    (m_use_alt_last_mini_batch_size r) (m_last_mini_batch_threshold r)
    (m_last_mini_batch_size r) (m_last_mini_batch_stride r)
    (m_current_mini_batch_idx r) (m_num_mini_batches_per_reader r)
    (m_num_iterations_per_epoch r) (m_shuffled_indices r) (m_unused_indices r)
    (m_indices_fetched_per_mb r) b (m_max_sample_count r)
    (m_max_sample_count_was_set r) (m_validation_percent r) (m_use_percent r).

(** [set_validation_percent(double s)]: [if (s < 0 or s > 1.0) throw] *)
Definition set_validation_percent (s : float) (r : generic_data_reader)
  : option_exception + generic_data_reader :=
  if PrimFloat.ltb s 0 || PrimFloat.ltb 1 s
  then inl (validation_percent_out_of_range s)
  else
    inr (mk_reader (m_batch_size r) (m_current_pos r) (m_batch_stride r)
           (m_sample_stride r) (m_base_offset r) (m_model_offset r)
           (m_use_alt_last_mini_batch_size r) (m_last_mini_batch_threshold r)
           (m_last_mini_batch_size r) (m_last_mini_batch_stride r)
           (m_current_mini_batch_idx r) (m_num_mini_batches_per_reader r)
           (m_num_iterations_per_epoch r) (m_shuffled_indices r)
           (m_unused_indices r) (m_indices_fetched_per_mb r) (m_first_n r)
           (m_max_sample_count r) (m_max_sample_count_was_set r) s
           (m_use_percent r)).

(** [set_use_percent(double s)] *)
Definition set_use_percent (s : float) (r : generic_data_reader)
  : option_exception + generic_data_reader :=
  if PrimFloat.ltb s 0 || PrimFloat.ltb 1 s
  then inl (use_percent_out_of_range s)
  else
    inr (mk_reader (m_batch_size r) (m_current_pos r) (m_batch_stride r)
           (m_sample_stride r) (m_base_offset r) (m_model_offset r)
           (m_use_alt_last_mini_batch_size r) (m_last_mini_batch_threshold r)
           (m_last_mini_batch_size r) (m_last_mini_batch_stride r)
           (m_current_mini_batch_idx r) (m_num_mini_batches_per_reader r)
           (m_num_iterations_per_epoch r) (m_shuffled_indices r)
           (m_unused_indices r) (m_indices_fetched_per_mb r) (m_first_n r)
           (m_max_sample_count r) (m_max_sample_count_was_set r)
           (m_validation_percent r) s).

(** *** File names *)

(** the three strings [m_file_dir], [m_data_fn] and [m_label_fn] of the
    reader, which only the functions below touch *)
Record file_names : Type := mk_file_names {
  m_file_dir : string;
  m_data_fn : string;
  m_label_fn : string
}.

Definition set_file_dir (s : string) (n : file_names) : file_names :=
  mk_file_names s (m_data_fn n) (m_label_fn n).

Definition get_file_dir (n : file_names) : string := m_file_dir n.

Definition set_data_filename (s : string) (n : file_names) : file_names :=
  mk_file_names (m_file_dir n) s (m_label_fn n).

(** [get_data_filename() const]: throws when [m_data_fn] is the empty
    string *)
Definition get_data_filename (n : file_names) : option_exception + string :=
  if String.eqb (m_data_fn n) EmptyString then inl data_filename_not_set
  else inr (m_data_fn n).

Definition set_label_filename (s : string) (n : file_names) : file_names :=
  mk_file_names (m_file_dir n) (m_data_fn n) s.

Definition get_label_filename (n : file_names) : option_exception + string :=
  if String.eqb (m_label_fn n) EmptyString then inl label_filename_not_set
  else inr (m_label_fn n).

(** *** Operations that draw from the random generator *)

Section shuffling.

(** the state of the generator behind [get_data_seq_generator()], and
    [std::shuffle] drawing from it *)
Variable rng : Type.
Variable std_shuffle : list Z → rng → list Z * rng.

(** the statement [if (not m_first_n) std::shuffle(m_shuffled_indices.begin(),
    m_shuffled_indices.end(), get_data_seq_generator())]: the indices and
    the generator after it *)
Definition shuffle_unless_first_n (r : generic_data_reader) (g : rng)
  : list Z * rng :=
  if negb (m_first_n r) then std_shuffle (m_shuffled_indices r) g
  else (m_shuffled_indices r, g).

(** [generic_data_reader::setup(base_offset, batch_stride, sample_stride,
    model_offset, comm)]; [has_comm] tells whether [comm] is not [NULL],
    and [ceil_num_data] is the value of
    [ceil((float) getNumData() / (float) m_batch_size)] *)
Definition setup (base_offset batch_stride sample_stride model_offset : Z)
  (has_comm : bool) (ceil_num_data : Z) (r : generic_data_reader) (g : rng)
  : generic_data_reader * rng :=
  let '(shuffled, g') := shuffle_unless_first_n r g in
  (mk_reader (m_batch_size r) (int_add base_offset model_offset)
     batch_stride sample_stride base_offset model_offset
     (if has_comm then true else m_use_alt_last_mini_batch_size r)
     (m_last_mini_batch_threshold r) (m_last_mini_batch_size r)
     batch_stride 0 (m_num_mini_batches_per_reader r)
     (if has_comm then m_num_mini_batches_per_reader r else ceil_num_data)
     shuffled (m_unused_indices r) (Zeros (m_batch_size r) 1)
     (m_first_n r) (m_max_sample_count r) (m_max_sample_count_was_set r)
     (m_validation_percent r) (m_use_percent r), g').

(** [generic_data_reader::update] *)
Definition update (r : generic_data_reader) (g : rng)
  : bool * generic_data_reader * rng :=
  let r1 :=
    if m_use_alt_last_mini_batch_size r
       && (int_add (m_current_mini_batch_idx r) 1
           >=? int_sub (m_num_mini_batches_per_reader r) 1)
    then set_current_pos
           (int_add (m_current_pos r) (m_last_mini_batch_stride r)) r
    else set_current_pos (int_add (m_current_pos r) (m_batch_stride r)) r in
  let r2 :=
    set_indices_fetched_per_mb
      (Zeros (Width (m_indices_fetched_per_mb r1)) 1) r1 in
  if m_current_pos r2 <? to_int (Z.of_nat (length (m_shuffled_indices r2)))
  then
    (true,
     set_current_mini_batch_idx (int_add (m_current_mini_batch_idx r2) 1) r2,
     g)
  else
    let '(shuffled, g') := shuffle_unless_first_n r2 g in
    let r3 := set_shuffled_indices shuffled r2 in
    let r4 := set_current_mini_batch_idx 0 r3 in
    (false,
     set_current_pos (int_add (m_base_offset r4) (m_model_offset r4)) r4,
     g').

(** [n] calls of [update], one after the other, with what each of them
    returned *)
Fixpoint updates (n : nat) (r : generic_data_reader) (g : rng)
  : list bool * generic_data_reader * rng :=
  match n with
  | O => ([], r, g)
  | S n' =>
      let '(more, r1, g1) := update r g in
      let '(rest, r2, g2) := updates n' r1 g1 in
      (more :: rest, r2, g2)
  end.

(** the first branch of [select_subset_of_data]: the cut to
    [max_sample_count], or else to [use_percent] of the data.  It follows
    the code for a use percentage between 0 and 1; for one that is not a
    number the count is undefined in the code (see [double_to_Z]), and
    this function does not follow it. *)
Definition truncate_to_count (r : generic_data_reader)
  : outcome generic_data_reader :=
  if has_max_sample_count r then
    let count := to_uint64 (get_max_sample_count r) in
    if count >? to_uint64 (getNumData r) then
      Throw (max_sample_count_too_large count (getNumData r))
    else
      Ret (set_shuffled_indices
             (resize (Z.to_nat (to_uint64 (get_max_sample_count r)))
                (m_shuffled_indices r)) r)
  else if has_use_percent r then
    match get_use_percent r with
    | Throw e => Throw e
    | Ret p =>
        Ret (set_shuffled_indices
               (resize
                  (Z.to_nat
                     (double_to_Z
                        (PrimFloat.mul p (int_to_double (getNumData r)))))
                  (m_shuffled_indices r)) r)
    end
  else Ret r.

(** the second branch: the tail of the indices goes to the unused ones *)
Definition split_validation (r : generic_data_reader) : generic_data_reader :=
  if has_validation_percent r then
    let unused :=
      double_to_Z
        (PrimFloat.mul (get_validation_percent r)
           (int_to_double (getNumData r))) in
    let use_me := getNumData r - unused in
    if unused >? 0 then
      set_shuffled_indices
        (resize (Z.to_nat use_me) (m_shuffled_indices r))
        (set_unused_indices (drop (Z.to_nat use_me) (m_shuffled_indices r)) r)
    else r
  else r.

(** [generic_data_reader::select_subset_of_data]; a [throw] leaves the
    reader as the statements before it made it *)
Definition select_subset_of_data (r : generic_data_reader) (g : rng)
  : outcome unit * generic_data_reader * rng :=
  let '(shuffled, g1) := shuffle_unless_first_n r g in
  let r1 := set_shuffled_indices shuffled r in
  if negb (has_max_sample_count r1 || has_use_percent r1
           || has_validation_percent r1)
  then (Ret tt, r1, g1)
  else
    match truncate_to_count r1 with
    | Throw e => (Throw e, r1, g1)
    | Ret r2 =>
        let r3 := split_validation r2 in
        let r4 :=
          if negb (get_firstN r3) then
            set_unused_indices (std_sort (m_unused_indices r3))
              (set_shuffled_indices (std_sort (m_shuffled_indices r3)) r3)
          else r3 in
        (Ret tt, r4, g1)
    end.

End shuffling.

(** the members that [update] reads and does not write *)
Definition same_plan (r r' : generic_data_reader) : Prop :=
  m_batch_size r' = m_batch_size r
  ∧ m_batch_stride r' = m_batch_stride r
  ∧ m_last_mini_batch_stride r' = m_last_mini_batch_stride r
  ∧ m_base_offset r' = m_base_offset r
  ∧ m_model_offset r' = m_model_offset r
  ∧ m_first_n r' = m_first_n r
  ∧ m_unused_indices r' = m_unused_indices r.

(** *** Checkpoints *)

(** Modelled from the spec: the checkpoint backend [persist] is not part of
    these sources; it is "a typed key-value writer" that keeps "flat
    key-value pairs" per persistence namespace, unsigned 64-bit scalars and
    arrays of 32-bit integers.  Reading a key that was not written, or
    written with another type, or an array longer than the one stored, is a
    failure of the backend. *)
Inductive persist_type : Type := train | model.

Inductive persist_value : Type :=
  | p_uint64 (v : Z)
  | p_int32_contig (l : list Z).

Record persist : Type := mk_persist {
  train_fields : gmap string persist_value;
  model_fields : gmap string persist_value
}.

Definition fields_of (t : persist_type) (p : persist)
  : gmap string persist_value :=
  match t with train => train_fields p | model => model_fields p end.

Definition write_field (t : persist_type) (name : string)
  (v : persist_value) (p : persist) : persist :=
  match t with
  | train => mk_persist (<[name := v]> (train_fields p)) (model_fields p)
  | model => mk_persist (train_fields p) (<[name := v]> (model_fields p))
  end.

Definition write_uint64 (t : persist_type) (name : string) (val : Z)
  (p : persist) : persist :=
  write_field t name (p_uint64 (to_uint64 val)) p.

Definition write_int32_contig (t : persist_type) (name : string)
  (buf : list Z) (count : Z) (p : persist) : persist :=
  write_field t name (p_int32_contig (take (Z.to_nat count) buf)) p.

Definition read_uint64 (t : persist_type) (name : string) (p : persist)
  : option Z :=
  match fields_of t p !! name with
  | Some (p_uint64 v) => Some v
  | _ => None
  end.

Definition read_int32_contig (t : persist_type) (name : string) (count : Z)
  (p : persist) : option (list Z) :=
  match fields_of t p !! name with
  | Some (p_int32_contig l) =>
      if Z.of_nat (length l) <? count then None
      else Some (take (Z.to_nat count) l)
  | _ => None
  end.

(** [snprintf(fieldname, sizeof(fieldname), "%s<suffix>", name)] with
    [char fieldname[1024]]: at most 1023 characters are kept *)
Fixpoint string_take (n : nat) (s : string) : string :=
  match n, s with
  | S n', String a s' => String a (string_take n' s')
  | _, _ => EmptyString
  end.

Definition fieldname (name suffix : string) : string :=
  string_take 1023 (name +:+ suffix).

(** [generic_data_reader::saveToCheckpointShared], on the process whose
    [p.get_rank()] is [rank] *)
Definition saveToCheckpointShared (rank : Z) (p : persist) (name : string)
  (r : generic_data_reader) : bool * persist :=
  if rank =? 0 then
    let p1 :=
      write_uint64 train (fieldname name "_current_mini_batch_idx")
        (m_current_mini_batch_idx r) p in
    let size := to_int (Z.of_nat (length (m_shuffled_indices r))) in
    let p2 := write_uint64 train (fieldname name "_data_size") size p1 in
    let p3 :=
      write_uint64 train (fieldname name "_data_position")
        (m_current_pos r) p2 in
    let p4 :=
      write_int32_contig train (fieldname name "_data_indices")
        (m_shuffled_indices r) (to_uint64 size) p3 in
    (true, p4)
  else (true, p).

(** the part of [loadFromCheckpointShared] that rank 0 runs before the
    broadcasts *)
Definition load_on_root (p : persist) (name : string)
  (r : generic_data_reader) : option generic_data_reader :=
  match read_uint64 train (fieldname name "_current_mini_batch_idx") p with
  | None => None
  | Some val =>
      let r1 := set_current_mini_batch_idx (to_int val) r in
      match read_uint64 train (fieldname name "_data_size") p with
      | None => None
      | Some val =>
          let size := to_int val in
          match read_uint64 train (fieldname name "_data_position") p with
          | None => None
          | Some val =>
              let r2 := set_current_pos (to_int val) r1 in
              let resized :=
                resize (Z.to_nat (to_uint64 size)) (m_shuffled_indices r2) in
              match read_int32_contig train (fieldname name "_data_indices")
                      (to_uint64 size) p with
              | None => None
              | Some l =>
                  Some (set_shuffled_indices
                          (l ++ drop (length l) resized) r2)
              end
          end
      end
  end.

(** the four [MPI_Bcast] from rank 0 over [MPI_COMM_WORLD], as rank [rank]
    sees them; [root] is the reader of rank 0 *)
Definition receive_broadcasts (rank : Z) (root r : generic_data_reader)
  : generic_data_reader :=
  let r1 := set_current_mini_batch_idx (m_current_mini_batch_idx root) r in
  let r2 := set_current_pos (m_current_pos root) r1 in
  let size := to_int (Z.of_nat (length (m_shuffled_indices root))) in
  let r3 :=
    if negb (rank =? 0) then
      set_shuffled_indices
        (resize (Z.to_nat (to_uint64 size)) (m_shuffled_indices r2)) r2
    else r2 in
  set_shuffled_indices
    (take (Z.to_nat size) (m_shuffled_indices root)
     ++ drop (Z.to_nat size) (m_shuffled_indices r3)) r3.

(** [generic_data_reader::saveToCheckpointShared] on every rank of the
    world, rank 0 first in the list *)
Definition save_world (p : persist) (name : string)
  (w : list generic_data_reader) : persist :=
  foldl (λ p x, (saveToCheckpointShared (fst x) p name (snd x)).2) p
    (imap (λ i r, (Z.of_nat i, r)) w).

(** [generic_data_reader::loadFromCheckpointShared] on every rank of the
    world; each rank returns [true] with its reader *)
Definition load_world (p : persist) (name : string)
  (w : list generic_data_reader) : option (list (bool * generic_data_reader)) :=
  match w with
  | [] => Some []
  | r0 :: rest =>
      match load_on_root p name r0 with
      | None => None
      | Some root =>
          Some (imap (λ i r, (true, receive_broadcasts (Z.of_nat i) root r))
                  (root :: rest))
      end
  end.

End Reader.

(** * Properties *)

(** ** Machine integers *)

Module CInt_facts.
Import CInt.

Lemma to_int_id x : in_int x → to_int x = x.
Proof.
  unfold in_int, to_int, INT_MIN, INT_MAX. intros Hx.
  rewrite Z.mod_small by lia. lia.
Qed.

Lemma to_int_range x : in_int (to_int x).
Proof.
  unfold in_int, to_int, INT_MIN, INT_MAX.
  pose proof (Z.mod_pos_bound (x + 2 ^ 31) (2 ^ 32)). lia.
Qed.

Lemma to_uint64_id x : 0 ≤ x < 2 ^ 64 → to_uint64 x = x.
Proof. intros Hx. unfold to_uint64. by rewrite Z.mod_small. Qed.

(** an [int] survives the round trip through [uint64_t] *)
Lemma to_int_to_uint64 x : in_int x → to_int (to_uint64 x) = x.
Proof.
  unfold in_int, to_int, to_uint64, INT_MIN, INT_MAX. intros Hx.
  replace (2 ^ 64) with (2 ^ 32 * 2 ^ 32) by reflexivity.
  rewrite <- (Zplus_mod_idemp_l (x mod _)).
  rewrite Z.rem_mul_r by lia.
  rewrite <- Zplus_mod_idemp_l.
  rewrite Z.mul_comm, Z_mod_plus_full, Z.mod_mod by lia.
  rewrite Zplus_mod_idemp_l, Zplus_mod_idemp_l.
  rewrite Z.mod_small by lia. lia.
Qed.

Lemma int_add_exact a b : in_int (a + b) → int_add a b = a + b.
Proof. apply to_int_id. Qed.

Lemma int_sub_exact a b : in_int (a - b) → int_sub a b = a - b.
Proof. apply to_int_id. Qed.

(** the [size_t] sum of a counter and a product of converted factors *)
Lemma to_uint64_add_mul a x y :
  to_uint64 (a + to_uint64 (to_uint64 x * y)) = (a + x * y) mod 2 ^ 64.
Proof.
  unfold to_uint64.
  rewrite Zplus_mod_idemp_r. rewrite <- Zplus_mod_idemp_r.
  rewrite Zmult_mod_idemp_l. by rewrite Zplus_mod_idemp_r.
Qed.

End CInt_facts.

Module Comm_facts.
Import CInt Comm CInt_facts.

Lemma pow2_land_pred k : 0 ≤ k → Z.land (2 ^ k) (2 ^ k - 1) = 0.
Proof.
  intros Hk. replace (2 ^ k - 1) with (Z.ones k) by (rewrite Z.ones_equiv; lia).
  rewrite Z.land_ones by done.
  apply Z.mod_same. pose proof (Z.pow_pos_nonneg 2 k). lia.
Qed.

Lemma land_pred_pow2 n : 0 < n → Z.land n (n - 1) = 0 → is_pow2 n.
Proof.
  intros Hn Hland. exists (Z.log2 n).
  pose proof (Z.log2_nonneg n) as Hk. split; [done|].
  destruct (Z.log2_spec n Hn) as [Hlo Hhi].
  destruct (decide (n = 2 ^ Z.log2 n)) as [|Hne]; [done|exfalso].
  assert (Z.log2 (n - 1) = Z.log2 n) as Hlog.
  { apply Z.log2_unique; [done|]. replace (Z.succ (Z.log2 n)) with (Z.log2 n + 1) in * by lia. lia. }
  assert (Z.testbit (Z.land n (n - 1)) (Z.log2 n) = true) as Hbit.
  { rewrite Z.land_spec, Z.bit_log2 by done.
    rewrite <- Hlog. rewrite Z.bit_log2; [done|].
    pose proof (Z.pow_pos_nonneg 2 (Z.log2 n)). lia. }
  rewrite Hland, Z.bits_0 in Hbit. done.
Qed.

Lemma land_pred_neg n : n < 0 → Z.land n (n - 1) ≠ 0.
Proof.
  intros Hn Hland.
  assert (Z.land n (n - 1) < 0) by (apply Z.land_neg; lia). lia.
Qed.

Lemma is_pow2_pos n : is_pow2 n → 0 < n.
Proof. intros (k & Hk & ->). by apply Z.pow_pos_nonneg. Qed.

(** the bit test of the dispatch recognises the powers of two *)
Lemma pow2_test n :
  n ≠ 0 → INT_MIN < n ≤ INT_MAX →
  (Z.land n (int_sub n 1) =? 0) = true ↔ is_pow2 n.
Proof.
  intros Hn0 Hn. rewrite int_sub_exact by (unfold in_int; lia).
  rewrite Z.eqb_eq. split.
  - intros Hland. destruct (decide (0 < n)) as [|Hneg].
    + by apply land_pred_pow2.
    + exfalso. apply (land_pred_neg n); [lia|done].
  - intros (k & Hk & ->). by apply pow2_land_pred.
Qed.

(** *** The constructor *)

(** C6: on a world of at least one process, the constructor throws the
    exception of an invalid topology when [procs_per_model] exceeds
    [world_size], and when [procs_per_model] divides [world_size] with a
    remainder ([world_size % procs_per_model != 0]; the value 0, by which
    nothing is divided, is replaced before the checks). *)
Theorem ctor_rejects_invalid_topology (world_size world_rank ppm : Z) :
  1 ≤ world_size →
  ppm > world_size ∨ (ppm ≠ 0 ∧ ¬ (ppm | world_size)) →
  fails_with (lbann_comm_ctor world_size world_rank ppm) InvalidTopology.
Proof.
  intros Hws Hbad. unfold lbann_comm_ctor, fails_with.
  destruct (Z.eqb_spec ppm 0) as [->|Hnz].
  { destruct Hbad as [?|[? _]]; [lia|done]. }
  destruct (Z.gtb_spec ppm world_size) as [Hgt|Hle].
  { eexists. split; [reflexivity|done]. }
  destruct Hbad as [?|[_ Hdiv]]; [lia|].
  unfold int_rem. destruct (Z.eqb_spec (Z.rem world_size ppm) 0) as [Hrem|Hrem].
  { exfalso. apply Hdiv. by apply Z.rem_divide. }
  eexists. split; [reflexivity|done].
Qed.

(** the scenario of C6: six processes, four per model *)
Lemma ctor_rejects_6_by_4 :
  fails_with (lbann_comm_ctor 6 0 4) InvalidTopology.
Proof.
  apply ctor_rejects_invalid_topology; [lia|].
  right. split; [lia|]. intros [k Hk]. lia.
Defined.

(** C10: with [procs_per_model = 0] the constructor takes [world_size] in
    its place before it validates, and so returns, on every rank of a
    world of at least one process, a communicator of one model that spans
    the world: no exception is thrown. *)
Theorem ctor_zero_procs_per_model (world_size world_rank : Z) :
  1 ≤ world_size ≤ INT_MAX →
  0 ≤ world_rank < world_size →
  lbann_comm_ctor world_size world_rank 0
  = Ret (mk_comm world_size 1 0 world_rank 0 0 0 0 0 ∅).
Proof.
  intros Hws Hwr. unfold lbann_comm_ctor, int_div, int_rem. simpl.
  destruct (Z.gtb_spec world_size world_size); [lia|].
  rewrite Z.rem_same by lia. simpl.
  rewrite Z.quot_same by lia.
  rewrite Z.quot_small, Z.rem_small by lia.
  reflexivity.
Qed.

Lemma ctor_zero_procs_per_model_witness :
  lbann_comm_ctor 8 5 0 = Ret (mk_comm 8 1 0 5 0 0 0 0 0 ∅).
Proof.
  apply ctor_zero_procs_per_model; unfold INT_MAX; lia.
Defined.

(** the number of models of a communicator that was constructed *)
Lemma ctor_num_models (world_size world_rank ppm : Z) (c : lbann_comm) :
  1 ≤ world_size ≤ INT_MAX →
  lbann_comm_ctor world_size world_rank ppm = Ret c →
  num_models c ≠ 0 ∧ INT_MIN < num_models c ≤ INT_MAX.
Proof.
  intros Hws. unfold lbann_comm_ctor.
  set (p := if ppm =? 0 then world_size else ppm).
  assert (p ≠ 0) as Hp.
  { unfold p. destruct (Z.eqb_spec ppm 0); lia. }
  destruct (Z.gtb_spec p world_size) as [|Hle]; [done|].
  unfold int_rem, int_div.
  destruct (Z.eqb_spec (Z.rem world_size p) 0) as [Hrem|]; [|done].
  simpl. intros [= <-]. simpl.
  pose proof (Z.quot_rem' world_size p) as Hqr. rewrite Hrem in Hqr.
  set (q := Z.quot world_size p) in *.
  assert (q ≠ 0) by nia.
  assert (- world_size ≤ q ≤ world_size) by nia.
  rewrite to_int_id; unfold in_int, INT_MIN, INT_MAX in *; lia.
Qed.

(** *** Dispatch *)

(** the number of models does not depend on the rank that constructs *)
Lemma ctor_num_models_agree (world_size world_rank world_rank' ppm : Z)
  (c c' : lbann_comm) :
  lbann_comm_ctor world_size world_rank ppm = Ret c →
  lbann_comm_ctor world_size world_rank' ppm = Ret c' →
  num_models c = num_models c'.
Proof.
  unfold lbann_comm_ctor.
  destruct (_ >? _); [done|]. destruct (negb _); [done|].
  by intros [= <-] [= <-].
Qed.

(** the branches of the dispatch, by the number of models and the
    dimensions of the matrix *)
Lemma dispatch_by_num_models (nprocs height width : Z) :
  nprocs ≠ 0 → INT_MIN < nprocs ≤ INT_MAX →
  (is_pow2 nprocs ∧ height ≤ 64 ∧ width ≤ 64 →
   intermodel_allreduce_algorithm nprocs height width = recursive_doubling)
  ∧ (¬ (is_pow2 nprocs ∧ height ≤ 64 ∧ width ≤ 64) →
     intermodel_allreduce_algorithm nprocs height width = pe_ring).
Proof.
  intros Hn0 Hn.
  pose proof (pow2_test nprocs Hn0 Hn) as Htest.
  unfold intermodel_allreduce_algorithm.
  destruct (Z.land nprocs (int_sub nprocs 1) =? 0); simpl.
  - assert (is_pow2 nprocs) as Hpow by by apply Htest.
    split.
    + intros (_ & Hh & Hw).
      destruct (Z.leb_spec height 64); [|lia].
      destruct (Z.leb_spec width 64); [done|lia].
    + intros Hnot.
      destruct (Z.leb_spec height 64); [|done].
      destruct (Z.leb_spec width 64); [|done].
      exfalso. by apply Hnot.
  - split; [|done].
    intros (Hpow & _). apply Htest in Hpow. done.
Qed.

(** *** The collective buffer pool *)

(** C5, the out-of-sequence request: for an index beyond the length of the
    bucket the function returns [nullptr] as an ordinary result and leaves
    the pool and the free store as they were; nothing is thrown. *)
Theorem get_collective_buffer_out_of_sequence (size idx : Z)
  (c : lbann_comm) (h : heap) :
  bucket_len c size < idx →
  get_collective_buffer size idx (c, h) = (nullptr, (c, h)).
Proof.
  unfold bucket_len, get_collective_buffer. intros Hidx.
  destruct (collective_bufs c !! size) as [bufs|]; simpl in *.
  - destruct (Z.gtb_spec (Z.of_nat (length bufs)) idx); [lia|].
    destruct (Z.eqb_spec (Z.of_nat (length bufs)) idx); [lia|done].
  - destruct (Z.eqb_spec idx 0); [lia|done].
Qed.

Lemma get_collective_buffer_out_of_sequence_witness :
  get_collective_buffer 8 1 (mk_comm 1 1 0 0 0 0 0 0 0 ∅, ∅)
  = (nullptr, (mk_comm 1 1 0 0 0 0 0 0 0 ∅, ∅)).
Proof.
  apply get_collective_buffer_out_of_sequence. vm_compute. reflexivity.
Defined.

(** the request for the next slot appends one fresh buffer of that size *)
Lemma get_collective_buffer_append (size idx : Z) (c : lbann_comm) (h : heap) :
  idx = bucket_len c size →
  ∃ l, get_collective_buffer size idx (c, h)
       = (addr l,
          (set_collective_bufs
             (<[size := default [] (collective_bufs c !! size) ++ [l]]>
                (collective_bufs c)) c,
           <[l := size]> h))
       ∧ h !! l = None.
Proof.
  unfold bucket_len, get_collective_buffer, new_uint8. intros ->.
  assert (h !! fresh (dom h) = None) as Hfresh.
  { apply not_elem_of_dom. apply is_fresh. }
  destruct (collective_bufs c !! size) as [bufs|]; simpl.
  - destruct (Z.gtb_spec (Z.of_nat (length bufs)) (Z.of_nat (length bufs)));
      [lia|].
    rewrite Z.eqb_refl. simpl. eauto.
  - eauto.
Qed.

(** the request for a slot that exists returns it and changes nothing *)
Lemma get_collective_buffer_existing (size idx : Z) (c : lbann_comm)
  (h : heap) :
  0 ≤ idx < bucket_len c size →
  ∃ l, bucket_slot c size idx = Some l
       ∧ get_collective_buffer size idx (c, h) = (addr l, (c, h)).
Proof.
  unfold bucket_len, bucket_slot, get_collective_buffer. intros Hidx.
  destruct (collective_bufs c !! size) as [bufs|]; simpl in *; [|lia].
  destruct (Z.gtb_spec (Z.of_nat (length bufs)) idx); [|lia].
  destruct (lookup_lt_is_Some_2 bufs (Z.to_nat idx)) as [l Hl]; [lia|].
  rewrite Hl. eauto.
Qed.

(** X22.  No call frees a buffer or moves one: every slot of the pool and
    every block of the free store is still there after the call. *)
Lemma get_collective_buffer_keeps (size idx : Z) (st st' : lbann_comm * heap)
  (p : pointer) :
  get_collective_buffer size idx st = (p, st') →
  (∀ s i l, bucket_slot st.1 s i = Some l → bucket_slot st'.1 s i = Some l)
  ∧ (∀ l n, st.2 !! l = Some n → st'.2 !! l = Some n).
Proof.
  destruct st as [c h]. unfold get_collective_buffer, new_uint8.
  assert (h !! fresh (dom h) = None) as Hfresh.
  { apply not_elem_of_dom. apply is_fresh. }
  assert (∀ l n, h !! l = Some n → <[fresh (dom h) := size]> h !! l = Some n)
    as Hheap.
  { intros l n Hl. rewrite lookup_insert_ne; [done|]. congruence. }
  destruct (collective_bufs c !! size) as [bufs|] eqn:Hb; simpl.
  - destruct (Z.of_nat (length bufs) >? idx).
    { destruct (bufs !! Z.to_nat idx); intros [= <- <-]; auto. }
    destruct (Z.of_nat (length bufs) =? idx); simpl; intros [= <- <-];
      [|by auto].
    split; [|by auto]. simpl. unfold bucket_slot. simpl.
    intros s i l. destruct (decide (size = s)) as [<-|Hne].
    + rewrite lookup_insert_eq, Hb. simpl. apply lookup_app_l_Some.
    + by rewrite lookup_insert_ne.
  - destruct (idx =? 0); simpl; intros [= <- <-]; [|by auto].
    split; [|by auto]. simpl. unfold bucket_slot. simpl.
    intros s i l. destruct (decide (size = s)) as [<-|Hne].
    + by rewrite Hb.
    + by rewrite lookup_insert_ne.
Qed.

(** *** Byte accounting *)

Section byte_accounting.
Context {T : Type}.
Variable sizeof_DataType : Z.
Variable AllReduce : Mat T → Mat T.
Variable Broadcast : Mat T → Z → Mat T.

(** the reduction keeps the dimensions of the matrix *)
Hypothesis AllReduce_dims :
  ∀ m, Height (AllReduce m) = Height m ∧ Width (AllReduce m) = Width m.

(** C9, as the code has it: [intermodel_sum_matrix] adds the element size
    times the element count of the matrix (of the local tile, for a
    distributed matrix) to [bytes_sent] and to [bytes_received], in
    [size_t] arithmetic; [intermodel_broadcast_matrix] leaves both counters
    as they are. *)
Theorem byte_accounting_of_intermodel_collectives (c : lbann_comm)
  (mat : Mat T) (dmat : DistMat T) (root : Z) :
  let c1 := (intermodel_sum_matrix sizeof_DataType AllReduce c mat).1 in
  let c2 := (intermodel_sum_matrix_dist sizeof_DataType AllReduce c dmat).1 in
  let c3 := (intermodel_broadcast_matrix Broadcast c mat root).1 in
  let c4 := (intermodel_broadcast_matrix_dist Broadcast c dmat root).1 in
  bytes_sent c1
  = (bytes_sent c + sizeof_DataType * Height mat * Width mat) mod 2 ^ 64
  ∧ bytes_received c1
    = (bytes_received c + sizeof_DataType * Height mat * Width mat) mod 2 ^ 64
  ∧ bytes_sent c2
    = (bytes_sent c + sizeof_DataType * LocalHeight dmat * LocalWidth dmat)
      mod 2 ^ 64
  ∧ bytes_received c2
    = (bytes_received c
       + sizeof_DataType * LocalHeight dmat * LocalWidth dmat) mod 2 ^ 64
  ∧ bytes_sent c3 = bytes_sent c ∧ bytes_received c3 = bytes_received c
  ∧ bytes_sent c4 = bytes_sent c ∧ bytes_received c4 = bytes_received c.
Proof.
  simpl. unfold LocalHeight, LocalWidth. simpl.
  destruct (AllReduce_dims mat) as [-> ->].
  destruct (AllReduce_dims (local_matrix dmat)) as [-> ->].
  rewrite !to_uint64_add_mul. done.
Qed.

End byte_accounting.

Lemma byte_accounting_of_intermodel_collectives_witness :
  let c := mk_comm 1 2 0 0 0 0 0 5 7 ∅ in
  let mat := mk_Mat 2 [[1; 2]; [3; 4]; [5; 6]] in
  bytes_sent (intermodel_sum_matrix 4 id c mat).1 = (5 + 4 * 2 * 3) mod 2 ^ 64
  ∧ bytes_received (intermodel_sum_matrix 4 id c mat).1
    = (7 + 4 * 2 * 3) mod 2 ^ 64.
Proof.
  pose proof (byte_accounting_of_intermodel_collectives (T := Z) 4 id
                (λ m _, m) (λ m, conj eq_refl eq_refl)
                (mk_comm 1 2 0 0 0 0 0 5 7 ∅)
                (mk_Mat 2 [[1; 2]; [3; 4]; [5; 6]])
                (mk_DistMat 2 3 (mk_Mat 2 [[1; 2]; [3; 4]; [5; 6]])) 0) as H.
  simpl in H. destruct H as (H1 & H2 & _). split; assumption.
Defined.

(** C9 as it was stated fails on the broadcast: a 2 x 2 matrix of 4-byte
    entries is broadcast and [bytes_sent] has not moved by its 16 bytes. *)
Lemma broadcast_counts_no_bytes :
  let c := mk_comm 1 2 0 0 0 0 0 0 0 ∅ in
  let mat := mk_Mat 2 [[1; 2]; [3; 4]] in
  bytes_sent (intermodel_broadcast_matrix (λ m _, m) c mat 0).1
  ≠ (bytes_sent c + 4 * Height mat * Width mat) mod 2 ^ 64
  ∧ bytes_received (intermodel_broadcast_matrix (λ m _, m) c mat 0).1
    ≠ (bytes_received c + 4 * Height mat * Width mat) mod 2 ^ 64.
Proof. vm_compute. split; discriminate. Qed.

(** a pool of one buffer, and the request for the second *)
Lemma get_collective_buffer_keeps_witness :
  let st := get_collective_buffers [(8, 0)] (mk_comm 1 1 0 0 0 0 0 0 0 ∅, ∅) in
  let st' := (get_collective_buffer 8 1 st).2 in
  (∀ s i l, bucket_slot st.1 s i = Some l → bucket_slot st'.1 s i = Some l)
  ∧ (∀ l n, st.2 !! l = Some n → st'.2 !! l = Some n).
Proof.
  intros st st'.
  apply (get_collective_buffer_keeps 8 1 st st'
           (get_collective_buffer 8 1 st).1).
  apply surjective_pairing.
Defined.

(** *** The constructor on the topologies it accepts *)

(** X1.  The validation of the constructor lets through exactly the values
    of [procs_per_model] that are 0, or that are at most [world_size] and
    divide it; for every other value the constructor throws.  Nothing in
    it asks [procs_per_model] to be positive. *)
Theorem ctor_returns_iff (world_size world_rank ppm : Z) :
  1 ≤ world_size ≤ INT_MAX →
  (∃ c, lbann_comm_ctor world_size world_rank ppm = Ret c)
  ↔ ppm = 0 ∨ (ppm ≤ world_size ∧ (ppm | world_size)).
Proof.
  intros Hws. unfold lbann_comm_ctor, int_rem.
  destruct (Z.eqb_spec ppm 0) as [->|Hnz].
  - destruct (Z.gtb_spec world_size world_size); [lia|].
    rewrite Z.rem_same by lia. cbn. split; [auto|eauto].
  - destruct (Z.gtb_spec ppm world_size) as [Hgt|Hle].
    { split; [by intros [c ?]|]. intros [?|[? _]]; [done|lia]. }
    destruct (Z.eqb_spec (Z.rem world_size ppm) 0) as [Hrem|Hrem]; cbn.
    + split; [|eauto]. intros _. right. split; [done|].
      by apply Z.rem_divide.
    + split; [by intros [c ?]|]. intros [?|[_ Hdiv]]; [done|].
      exfalso. apply Hrem. by apply Z.rem_divide.
Qed.

Lemma ctor_returns_iff_witness :
  (∃ c, lbann_comm_ctor 8 5 2 = Ret c) ↔ 2 = 0 ∨ (2 ≤ 8 ∧ (2 | 8)).
Proof. apply ctor_returns_iff; unfold INT_MAX; lia. Defined.

(** X2.  On a valid topology with a positive [procs_per_model] the world ranks
    are laid out model by model: [world_rank] is
    [model_rank * procs_per_model + rank_in_model], the rank in the model is
    below [procs_per_model], the model rank is below [num_models], and
    [num_models * procs_per_model] is the size of the world.  The counters
    start at zero and the buffer pool is empty. *)
Theorem ctor_lays_out_models (world_size world_rank ppm : Z) :
  1 ≤ world_size ≤ INT_MAX →
  0 ≤ world_rank < world_size →
  1 ≤ ppm → (ppm | world_size) →
  ∃ c, lbann_comm_ctor world_size world_rank ppm = Ret c
       ∧ procs_per_model c = ppm
       ∧ num_models c * ppm = world_size
       ∧ 0 ≤ model_rank c < num_models c
       ∧ 0 ≤ rank_in_model c < ppm
       ∧ model_rank c * ppm + rank_in_model c = world_rank
       ∧ bytes_sent c = 0 ∧ bytes_received c = 0
       ∧ num_model_barriers c = 0 ∧ num_intermodel_barriers c = 0
       ∧ num_global_barriers c = 0
       ∧ collective_bufs c = ∅.
Proof.
  intros Hws Hwr Hppm Hdiv.
  assert (ppm ≤ world_size) as Hle by (apply Z.divide_pos_le; [lia|done]).
  unfold lbann_comm_ctor, int_rem, int_div.
  destruct (Z.eqb_spec ppm 0) as [|_]; [lia|].
  destruct (Z.gtb_spec ppm world_size) as [|_]; [lia|].
  rewrite !Z.quot_div_nonneg, !Z.rem_mod_nonneg by lia.
  destruct Hdiv as [q Hq].
  assert (world_size mod ppm = 0) as Hmod
    by (rewrite Hq; apply Z_mod_mult).
  rewrite Hmod. cbn [Z.eqb negb].
  assert (world_size / ppm = q) as Hquot by (rewrite Hq; apply Z_div_mult; lia).
  pose proof (Z.div_mod world_rank ppm ltac:(lia)) as Hdm.
  pose proof (Z.mod_pos_bound world_rank ppm ltac:(lia)) as Hmb.
  assert (0 ≤ world_rank / ppm) as Hq0 by (apply Z.div_pos; lia).
  assert (world_rank / ppm < q) as Hlt.
  { apply Z.div_lt_upper_bound; [lia|]. rewrite Z.mul_comm. lia. }
  rewrite Hquot.
  rewrite !to_int_id by (unfold in_int, INT_MIN, INT_MAX in *; nia).
  eexists. split; [reflexivity|]. cbn.
  repeat split; try done; lia.
Qed.

Lemma ctor_lays_out_models_witness :
  ∃ c, lbann_comm_ctor 8 5 2 = Ret c
       ∧ procs_per_model c = 2
       ∧ num_models c * 2 = 8
       ∧ 0 ≤ model_rank c < num_models c
       ∧ 0 ≤ rank_in_model c < 2
       ∧ model_rank c * 2 + rank_in_model c = 5
       ∧ bytes_sent c = 0 ∧ bytes_received c = 0
       ∧ num_model_barriers c = 0 ∧ num_intermodel_barriers c = 0
       ∧ num_global_barriers c = 0
       ∧ collective_bufs c = ∅.
Proof.
  apply ctor_lays_out_models; [unfold INT_MAX; lia | lia | lia |].
  exists 4. lia.
Defined.

(** X3.  A negative [procs_per_model] whose absolute value divides the size
    of the world passes both checks of the constructor: the members are
    computed from it, and [num_models] is negative. *)
Theorem ctor_negative_procs_per_model (world_size world_rank ppm : Z) :
  1 ≤ world_size ≤ INT_MAX →
  ppm < 0 → (ppm | world_size) →
  ∃ c, lbann_comm_ctor world_size world_rank ppm = Ret c
       ∧ procs_per_model c = ppm
       ∧ num_models c < 0
       ∧ num_models c * ppm = world_size.
Proof.
  intros Hws Hppm [q Hq].
  unfold lbann_comm_ctor, int_rem, int_div.
  destruct (Z.eqb_spec ppm 0) as [|_]; [lia|].
  destruct (Z.gtb_spec ppm world_size) as [|_]; [lia|].
  assert (Z.rem world_size ppm = 0) as ->.
  { apply Z.rem_divide; [lia|]. by exists q. }
  cbn [Z.eqb negb].
  assert (Z.quot world_size ppm = q) as ->.
  { rewrite Hq. apply Z.quot_mul. lia. }
  assert (q < 0) by nia.
  assert (- world_size ≤ q) by nia.
  rewrite (to_int_id q) by (unfold in_int, INT_MIN, INT_MAX in *; lia).
  eexists. split; [reflexivity|]. cbn. repeat split; lia.
Qed.

Lemma ctor_negative_procs_per_model_witness :
  ∃ c, lbann_comm_ctor 4 1 (-2) = Ret c
       ∧ procs_per_model c = -2
       ∧ num_models c < 0
       ∧ num_models c * -2 = 4.
Proof.
  apply ctor_negative_procs_per_model; [unfold INT_MAX; lia | lia |].
  exists (-2). lia.
Defined.

(** *** The pool over several requests *)

(** what a request that returns a buffer leaves in the pool *)
Lemma get_collective_buffer_slot (size idx : Z) (st st' : lbann_comm * heap)
  (l : loc) :
  0 ≤ idx →
  get_collective_buffer size idx st = (addr l, st') →
  bucket_slot st'.1 size idx = Some l.
Proof.
  destruct st as [c h]. unfold get_collective_buffer, new_uint8, bucket_slot.
  intros Hidx.
  destruct (collective_bufs c !! size) as [bufs|] eqn:Hb; cbn.
  - destruct (Z.gtb_spec (Z.of_nat (length bufs)) idx).
    { destruct (bufs !! Z.to_nat idx) eqn:Hl; intros [= <- <-]; cbn.
      by rewrite Hb. }
    destruct (Z.eqb_spec (Z.of_nat (length bufs)) idx); cbn; intros [= <- <-].
    cbn. rewrite lookup_insert_eq. cbn.
    rewrite lookup_app_r by lia.
    by replace (Z.to_nat idx - length bufs)%nat with O by lia.
  - destruct (Z.eqb_spec idx 0) as [->|]; cbn; intros [= <- <-].
    cbn. by rewrite lookup_insert_eq.
Qed.

Lemma pool_ok_step (size idx : Z) (st st' : lbann_comm * heap) (p : pointer) :
  pool_ok st →
  get_collective_buffer size idx st = (p, st') →
  pool_ok st'
  ∧ (∀ s i l, bucket_slot st.1 s i = Some l → bucket_slot st'.1 s i = Some l).
Proof.
  destruct st as [c h]. unfold get_collective_buffer, new_uint8.
  intros Hok.
  assert (h !! fresh (dom h) = None) as Hfresh.
  { apply not_elem_of_dom. apply is_fresh. }
  assert (∀ s bufs, collective_bufs c !! s = Some bufs →
            NoDup bufs
            ∧ Forall (λ l, <[fresh (dom h) := size]> h !! l = Some s) bufs
            ∧ fresh (dom h) ∉ bufs) as Hold.
  { intros s bufs Hs. destruct (Hok s bufs Hs) as [Hnd Hlive]. cbn in Hlive.
    split; [done|]. rewrite Forall_forall in Hlive. split.
    - apply Forall_forall. intros l Hl. rewrite lookup_insert_ne; [by apply Hlive|].
      intros <-. specialize (Hlive _ Hl). congruence.
    - intros Hin. specialize (Hlive _ Hin). congruence. }
  destruct (collective_bufs c !! size) as [bufs|] eqn:Hb; cbn.
  - destruct (Z.of_nat (length bufs) >? idx).
    { destruct (bufs !! Z.to_nat idx); intros [= <- <-]; auto. }
    destruct (Z.of_nat (length bufs) =? idx); cbn; intros [= <- <-];
      [|by auto].
    split.
    + intros s bs. cbn. destruct (decide (size = s)) as [<-|Hne].
      * rewrite lookup_insert_eq. intros [= <-].
        destruct (Hold _ _ Hb) as (Hnd & Hlive & Hnew). split.
        -- apply NoDup_app. split; [done|]. split; [|apply NoDup_singleton].
           intros l Hl ->%list_elem_of_singleton. done.
        -- apply Forall_app. split; [done|]. apply Forall_singleton.
           by rewrite lookup_insert_eq.
      * rewrite lookup_insert_ne by done. intros Hs.
        destruct (Hold _ _ Hs) as (Hnd & Hlive & _). done.
    + unfold bucket_slot. cbn. intros s i l.
      destruct (decide (size = s)) as [<-|Hne].
      * rewrite lookup_insert_eq, Hb. cbn. apply lookup_app_l_Some.
      * by rewrite lookup_insert_ne.
  - destruct (idx =? 0); cbn; intros [= <- <-]; [|by auto].
    split.
    + intros s bs. cbn. destruct (decide (size = s)) as [<-|Hne].
      * rewrite lookup_insert_eq. intros [= <-]. split.
        -- apply NoDup_singleton.
        -- apply Forall_singleton. by rewrite lookup_insert_eq.
      * rewrite lookup_insert_ne by done. intros Hs.
        destruct (Hold _ _ Hs) as (Hnd & Hlive & _). done.
    + unfold bucket_slot. cbn. intros s i l.
      destruct (decide (size = s)) as [<-|Hne].
      * by rewrite Hb.
      * by rewrite lookup_insert_ne.
Qed.

Lemma pool_ok_empty (c : lbann_comm) (h : heap) :
  collective_bufs c = ∅ → pool_ok (c, h).
Proof. intros Hc size bufs. cbn. by rewrite Hc, lookup_empty. Qed.

(** X4.  A buffer that was handed out is handed out again: the same request,
    made once more, returns the same address and changes neither the pool
    nor the free store. *)
Theorem get_collective_buffer_again (size idx : Z) (st st' : lbann_comm * heap)
  (l : loc) :
  0 ≤ idx →
  get_collective_buffer size idx st = (addr l, st') →
  get_collective_buffer size idx st' = (addr l, st').
Proof.
  intros Hidx Hget.
  pose proof (get_collective_buffer_slot _ _ _ _ _ Hidx Hget) as Hslot.
  destruct st' as [c' h']. unfold bucket_slot in Hslot. cbn in Hslot.
  unfold get_collective_buffer.
  destruct (collective_bufs c' !! size) as [bufs|]; cbn in Hslot; [|done].
  pose proof (lookup_lt_Some _ _ _ Hslot) as Hlt.
  destruct (Z.gtb_spec (Z.of_nat (length bufs)) idx); [|lia].
  by rewrite Hslot.
Qed.

Lemma get_collective_buffer_again_witness :
  let st := (mk_comm 1 1 0 0 0 0 0 0 0 ∅, ∅) in
  get_collective_buffer 8 0 (get_collective_buffer 8 0 st).2
  = get_collective_buffer 8 0 st.
Proof.
  intros st.
  destruct (get_collective_buffer 8 0 st) as [p st'] eqn:Hget.
  assert (∃ l, p = addr l) as [l ->] by (vm_compute in Hget; injection Hget as <- _; eauto).
  apply (get_collective_buffer_again 8 0 st st' l); [lia|done].
Defined.

(** X5.  Two requests that both return a buffer return the same address exactly
    when they ask for the same size and index: buffers are never shared
    between slots, for instance between [recv_buf] and [recv_buf2] of the
    allreduce.  The pool keeps its invariant, and each address is a live
    block of the size that was asked for. *)
Theorem get_collective_buffer_no_alias (size idx size' idx' : Z)
  (st st1 st2 : lbann_comm * heap) (l l' : loc) :
  pool_ok st → 0 ≤ idx → 0 ≤ idx' →
  get_collective_buffer size idx st = (addr l, st1) →
  get_collective_buffer size' idx' st1 = (addr l', st2) →
  (l = l' ↔ size = size' ∧ idx = idx')
  ∧ st2.2 !! l = Some size ∧ st2.2 !! l' = Some size'
  ∧ pool_ok st2.
Proof.
  intros Hok Hidx Hidx' Hget Hget'.
  destruct (pool_ok_step _ _ _ _ _ Hok Hget) as [Hok1 _].
  destruct (pool_ok_step _ _ _ _ _ Hok1 Hget') as [Hok2 Hkeep].
  pose proof (get_collective_buffer_slot _ _ _ _ _ Hidx Hget) as Hslot.
  pose proof (get_collective_buffer_slot _ _ _ _ _ Hidx' Hget') as Hslot'.
  apply Hkeep in Hslot.
  unfold bucket_slot in Hslot, Hslot'.
  destruct (collective_bufs st2.1 !! size) as [bufs|] eqn:Hb;
    cbn in Hslot; [|done].
  destruct (collective_bufs st2.1 !! size') as [bufs'|] eqn:Hb';
    cbn in Hslot'; [|done].
  destruct (Hok2 _ _ Hb) as [Hnd Hlive].
  destruct (Hok2 _ _ Hb') as [Hnd' Hlive'].
  rewrite Forall_forall in Hlive, Hlive'.
  pose proof (Hlive _ (list_elem_of_lookup_2 _ _ _ Hslot)) as Hl.
  pose proof (Hlive' _ (list_elem_of_lookup_2 _ _ _ Hslot')) as Hl'.
  split; [|done]. split.
  - intros <-. assert (size = size') as <- by congruence. split; [done|].
    assert (bufs = bufs') as <- by congruence.
    pose proof (NoDup_lookup _ _ _ _ Hnd Hslot Hslot'). lia.
  - intros [<- <-]. congruence.
Qed.

Lemma get_collective_buffer_no_alias_witness :
  let st := (mk_comm 1 1 0 0 0 0 0 0 0 ∅, ∅) in
  let first := get_collective_buffer 8 0 st in
  let second := get_collective_buffer 8 1 first.2 in
  ∃ l l', first.1 = addr l ∧ second.1 = addr l'
          ∧ (l = l' ↔ 8 = 8 ∧ 0 = 1)
          ∧ second.2.2 !! l = Some 8 ∧ second.2.2 !! l' = Some 8
          ∧ pool_ok second.2.
Proof.
  intros st first second.
  assert (∃ l, first.1 = addr l) as [l Hl] by (vm_compute; eauto).
  assert (∃ l', second.1 = addr l') as [l' Hl'] by (vm_compute; eauto).
  exists l, l'. split; [done|]. split; [done|].
  apply (get_collective_buffer_no_alias 8 0 8 1 st first.2 second.2 l l').
  - by apply pool_ok_empty.
  - lia.
  - lia.
  - rewrite <- Hl. apply surjective_pairing.
  - rewrite <- Hl'. apply surjective_pairing.
Defined.

(** *** The node communicator *)

(** X6.  The colour of the first split is non-negative, as its comment wants
    it, for every hash but one: a hash that is [INT_MIN] as an [int] stays
    [INT_MIN] when [-hash] wraps around. *)
Theorem node_hash_nonneg (hash_value : Z) :
  node_hash hash_value ≤ INT_MAX
  ∧ (0 ≤ node_hash hash_value ↔ to_int hash_value ≠ INT_MIN)
  ∧ (to_int hash_value = INT_MIN → node_hash hash_value = INT_MIN).
Proof.
  unfold node_hash. pose proof (to_int_range hash_value) as Hr.
  revert Hr. generalize (to_int hash_value). intros hash Hr.
  unfold in_int, INT_MIN, INT_MAX in *.
  destruct (Z.geb_spec hash 0) as [Hge|Hlt].
  { split; [lia|]. split; [|lia]. split; lia. }
  destruct (decide (hash = - 2 ^ 31)) as [->|Hne].
  { split; [by vm_compute|]. split; [|by intros _; vm_compute].
    split; [|done]. intros Hnn. exfalso. revert Hnn. by vm_compute. }
  rewrite to_int_id by (unfold in_int, INT_MIN, INT_MAX; lia).
  split; [lia|]. split; [|lia]. split; [done|lia].
Qed.

Lemma first_same_node_found (s : string) (l : list string) (i d : Z) :
  0 ≤ i → i + Z.of_nat (length l) ≤ INT_MAX → s ∈ l →
  ∃ k : nat, first_same_node s l i d = i + Z.of_nat k
             ∧ l !! k = Some s
             ∧ ∀ k' : nat, (k' < k)%nat → l !! k' ≠ Some s.
Proof.
  revert i. induction l as [|x l IH]; intros i Hi Hlen Hin.
  { by apply elem_of_nil in Hin. }
  cbn [first_same_node]. destruct (String.eqb_spec s x) as [<-|Hne].
  - exists O. split; [lia|]. split; [done|]. intros k' Hk'. lia.
  - apply elem_of_cons in Hin as [?|Hin]; [done|].
    cbn [length] in Hlen.
    rewrite int_add_exact by (unfold in_int, INT_MIN, INT_MAX in *; lia).
    destruct (IH (i + 1)) as (k & Hk & Hlk & Hfirst); [lia|lia|done|].
    exists (S k). split; [lia|]. split; [done|].
    intros [|k'] Hk'; cbn; [congruence|]. apply Hfirst. lia.
Qed.

Section node_comm_facts.
Variable std_hash : string → Z.

(** X7.  Two processes of the world get the same pair of colours, and so end up
    in the same [node_comm], exactly when the names of their nodes are
    equal: the comparison of the names undoes every collision of the
    hash. *)
Theorem same_node_comm_iff_same_name (node_names : list string) (a b : nat)
  (name_a name_b : string) :
  Z.of_nat (length node_names) ≤ INT_MAX →
  node_names !! a = Some name_a →
  node_names !! b = Some name_b →
  node_colours std_hash node_names a = node_colours std_hash node_names b
  ↔ name_a = name_b.
Proof.
  intros Hlen Ha Hb. unfold node_colours. rewrite Ha, Hb.
  assert (∀ (x : nat) (s : string) (d : Z), node_names !! x = Some s →
            let names := hash_comm_names std_hash node_names
                           (node_hash (std_hash s)) in
            ∃ k : nat, node_num s names d = Z.of_nat k
                       ∧ names !! k = Some s
                       ∧ ∀ k' : nat, (k' < k)%nat → names !! k' ≠ Some s)
    as Hfound.
  { intros x s d Hx names. unfold node_num.
    destruct (first_same_node_found s names 0 d) as (k & Hk & Hrest);
      [lia| |  |].
    - pose proof (length_filter (λ s', node_hash (std_hash s')
                                  = node_hash (std_hash s)) node_names).
      unfold names, hash_comm_names. lia.
    - unfold names, hash_comm_names. apply list_elem_of_filter.
      split; [done|]. by eapply list_elem_of_lookup_2.
    - exists k. split; [lia|done]. }
  split.
  - intros [= Hh Hn].
    destruct (Hfound a name_a
                (Z.of_nat (length (hash_comm_names std_hash
                                     (take a node_names)
                                     (node_hash (std_hash name_a))))) Ha)
      as (k & Hk & Hlk & _).
    destruct (Hfound b name_b
                (Z.of_nat (length (hash_comm_names std_hash
                                     (take b node_names)
                                     (node_hash (std_hash name_b))))) Hb)
      as (k' & Hk' & Hlk' & _).
    rewrite Hk, Hk' in Hn. assert (k = k') as <- by lia.
    rewrite Hh in Hlk. congruence.
  - intros <-. f_equal. f_equal.
    destruct (Hfound a name_a
                (Z.of_nat (length (hash_comm_names std_hash
                                     (take a node_names)
                                     (node_hash (std_hash name_a))))) Ha)
      as (k & Hk & Hlk & Hfirst).
    destruct (Hfound b name_a
                (Z.of_nat (length (hash_comm_names std_hash
                                     (take b node_names)
                                     (node_hash (std_hash name_a))))) Hb)
      as (k' & Hk' & Hlk' & Hfirst').
    rewrite Hk, Hk'. f_equal.
    destruct (Nat.lt_trichotomy k k') as [Hlt|[?|Hlt]]; [|done|].
    + by apply Hfirst' in Hlt.
    + by apply Hfirst in Hlt.
Qed.

End node_comm_facts.

(** four processes on two nodes whose names collide under the hash *)
Lemma same_node_comm_iff_same_name_witness :
  let names := ["n1"; "n2"; "n1"; "n2"]%string in
  (node_colours (λ _, 7) names 0 = node_colours (λ _, 7) names 2
   ↔ "n1"%string = "n1"%string)
  ∧ (node_colours (λ _, 7) names 0 = node_colours (λ _, 7) names 1
     ↔ "n1"%string = "n2"%string).
Proof.
  intros names. split.
  - apply (same_node_comm_iff_same_name (λ _, 7) names 0 2);
      [by vm_compute | reflexivity | reflexivity].
  - apply (same_node_comm_iff_same_name (λ _, 7) names 0 1);
      [by vm_compute | reflexivity | reflexivity].
Defined.

(** *** The pool from the constructor to the destructor *)

(** a request leaves the state as it is, or appends one fresh block to the
    bucket of its size *)
Lemma get_collective_buffer_cases (size idx : Z) (c : lbann_comm) (h : heap)
  (p : pointer) (st' : lbann_comm * heap) :
  get_collective_buffer size idx (c, h) = (p, st') →
  st' = (c, h)
  ∨ ∃ l, h !! l = None
         ∧ st' = (set_collective_bufs
                    (<[size := default [] (collective_bufs c !! size) ++ [l]]>
                       (collective_bufs c)) c,
                  <[l := size]> h).
Proof.
  unfold get_collective_buffer, new_uint8.
  assert (h !! fresh (dom h) = None) as Hfresh.
  { apply not_elem_of_dom. apply is_fresh. }
  destruct (collective_bufs c !! size) as [bufs|]; cbn.
  - destruct (Z.of_nat (length bufs) >? idx).
    { destruct (bufs !! Z.to_nat idx); intros [= <- <-]; auto. }
    destruct (Z.of_nat (length bufs) =? idx); cbn; intros [= <- <-];
      [|by auto].
    right. eauto.
  - destruct (idx =? 0); cbn; intros [= <- <-]; [|by auto].
    right. eauto.
Qed.

(** the blocks of the pool are those that were allocated since the free
    store was [h0] *)
Lemma pool_owned_step (h0 : heap) (size idx : Z) (st st' : lbann_comm * heap)
  (p : pointer) :
  pool_ok st →
  (∀ s bufs l, collective_bufs st.1 !! s = Some bufs → l ∈ bufs →
     h0 !! l = None) →
  (∀ l, (∃ s bufs, collective_bufs st.1 !! s = Some bufs ∧ l ∈ bufs)
        ∨ st.2 !! l = h0 !! l) →
  get_collective_buffer size idx st = (p, st') →
  (∀ s bufs l, collective_bufs st'.1 !! s = Some bufs → l ∈ bufs →
     h0 !! l = None)
  ∧ (∀ l, (∃ s bufs, collective_bufs st'.1 !! s = Some bufs ∧ l ∈ bufs)
          ∨ st'.2 !! l = h0 !! l).
Proof.
  destruct st as [c h]. cbn [fst snd]. intros Hok Hnew Hold Hget.
  destruct (get_collective_buffer_cases _ _ _ _ _ _ Hget)
    as [->|(l & Hl & ->)]; [done|].
  cbn [fst snd collective_bufs set_collective_bufs].
  assert (h0 !! l = None) as Hl0.
  { destruct (Hold l) as [(s & bufs & Hs & Hin)|Heq]; [|by rewrite <- Heq].
    destruct (Hok s bufs Hs) as [_ Hlive]. cbn in Hlive.
    rewrite Forall_forall in Hlive. specialize (Hlive l Hin). congruence. }
  split.
  - intros s bufs l'. destruct (decide (size = s)) as [<-|Hne].
    + rewrite lookup_insert_eq. intros [= <-] Hin.
      apply elem_of_app in Hin as [Hin|Hin].
      * destruct (collective_bufs c !! size) as [old|] eqn:Hb; cbn in Hin.
        -- by apply (Hnew size old).
        -- by apply elem_of_nil in Hin.
      * apply list_elem_of_singleton in Hin as ->. done.
    + rewrite lookup_insert_ne by done. apply Hnew.
  - intros l'. destruct (decide (l' = l)) as [->|Hne].
    + left. exists size, (default [] (collective_bufs c !! size) ++ [l]).
      rewrite lookup_insert_eq. split; [done|].
      apply elem_of_app. right. by apply list_elem_of_singleton.
    + destruct (Hold l') as [(s & bufs & Hs & Hin)|Heq].
      * left. destruct (decide (size = s)) as [<-|Hns].
        -- exists size, (default [] (collective_bufs c !! size) ++ [l]).
           rewrite lookup_insert_eq. split; [done|]. rewrite Hs. cbn.
           apply elem_of_app. by left.
        -- exists s, bufs. by rewrite lookup_insert_ne.
      * right. by rewrite lookup_insert_ne.
Qed.

Lemma get_collective_buffers_owned (h0 : heap) (requests : list (Z * Z)) :
  ∀ st : lbann_comm * heap,
    pool_ok st →
    (∀ s bufs l, collective_bufs st.1 !! s = Some bufs → l ∈ bufs →
       h0 !! l = None) →
    (∀ l, (∃ s bufs, collective_bufs st.1 !! s = Some bufs ∧ l ∈ bufs)
          ∨ st.2 !! l = h0 !! l) →
    let st' := get_collective_buffers requests st in
    pool_ok st'
    ∧ (∀ s bufs l, collective_bufs st'.1 !! s = Some bufs → l ∈ bufs →
         h0 !! l = None)
    ∧ (∀ l, (∃ s bufs, collective_bufs st'.1 !! s = Some bufs ∧ l ∈ bufs)
            ∨ st'.2 !! l = h0 !! l).
Proof.
  induction requests as [|[size idx] requests IH]; intros st Hok Hnew Hold.
  { done. }
  cbn [get_collective_buffers foldl fst snd].
  destruct (get_collective_buffer size idx st) as [p st1] eqn:Hget.
  destruct (pool_ok_step _ _ _ _ _ Hok Hget) as [Hok1 _].
  destruct (pool_owned_step h0 _ _ _ _ _ Hok Hnew Hold Hget) as [Hnew1 Hold1].
  apply (IH st1 Hok1 Hnew1 Hold1).
Qed.

(** the inner loop on distinct live blocks *)
Lemma delete_bufs_live (bufs : list loc) :
  ∀ h : heap,
    NoDup bufs → Forall (λ l, is_Some (h !! l)) bufs →
    ∃ h', delete_bufs bufs h = Some h'
          ∧ ∀ l, h' !! l = if decide (l ∈ bufs) then None else h !! l.
Proof.
  induction bufs as [|buf bufs IH]; intros h Hnd Hlive.
  { exists h. split; [done|]. intros l. destruct (decide _) as [Hin|_]; [|done].
    by apply elem_of_nil in Hin. }
  apply NoDup_cons in Hnd as [Hbuf Hnd].
  apply Forall_cons in Hlive as [[n Hn] Hlive].
  cbn [delete_bufs]. unfold delete_uint8. rewrite Hn.
  destruct (IH (delete buf h) Hnd) as (h' & Hrun & Hh').
  { rewrite Forall_forall in Hlive |- *. intros l Hl.
    rewrite lookup_delete_ne; [by apply Hlive|]. by intros ->. }
  exists h'. split; [done|]. intros l. rewrite Hh'.
  destruct (decide (l ∈ bufs)) as [Hin|Hnin].
  - rewrite decide_True; [done|]. by right.
  - destruct (decide (l = buf)) as [->|Hne].
    + rewrite decide_True by left. apply lookup_delete_eq.
    + rewrite decide_False by (by intros [?|?]%elem_of_cons).
      by apply lookup_delete_ne.
Qed.

(** the outer loop *)
Lemma delete_buckets_live (buckets : list (Z * list loc)) :
  ∀ h : heap,
    NoDup (concat buckets.*2) →
    Forall (λ l, is_Some (h !! l)) (concat buckets.*2) →
    ∃ h', delete_buckets buckets h = Some h'
          ∧ ∀ l, h' !! l
                 = if decide (l ∈ concat buckets.*2) then None else h !! l.
Proof.
  induction buckets as [|[size bufs] buckets IH]; intros h Hnd Hlive.
  { exists h. split; [done|]. intros l. destruct (decide _) as [Hin|_]; [|done].
    by apply elem_of_nil in Hin. }
  cbn [fmap list_fmap snd concat] in *.
  apply NoDup_app in Hnd as (Hnd & Hdisj & Hnd').
  apply Forall_app in Hlive as [Hlive Hlive'].
  cbn [delete_buckets snd].
  destruct (delete_bufs_live bufs h Hnd Hlive) as (h1 & -> & Hh1).
  destruct (IH h1 Hnd') as (h' & Hrun & Hh').
  { rewrite Forall_forall in Hlive' |- *. intros l Hl. rewrite Hh1.
    rewrite decide_False; [by apply Hlive'|]. intros Hin.
    by apply (Hdisj l). }
  exists h'. split; [done|]. intros l. rewrite Hh', Hh1.
  destruct (decide (l ∈ concat buckets.*2)) as [Hin|Hnin].
  - rewrite decide_True; [done|]. apply elem_of_app. by right.
  - destruct (decide (l ∈ bufs)) as [Hb|Hb].
    + rewrite decide_True; [done|]. apply elem_of_app. by left.
    + rewrite decide_False; [done|]. by intros [?|?]%elem_of_app.
Qed.

(** the blocks of a pool that is in order, bucket after bucket *)
Lemma pool_blocks (h : heap) (buckets : list (Z * list loc)) :
  NoDup buckets.*1 →
  (∀ size bufs, (size, bufs) ∈ buckets →
     NoDup bufs ∧ Forall (λ l, h !! l = Some size) bufs) →
  NoDup (concat buckets.*2)
  ∧ ∀ l, l ∈ concat buckets.*2 →
         ∃ size bufs, (size, bufs) ∈ buckets ∧ l ∈ bufs ∧ h !! l = Some size.
Proof.
  induction buckets as [|[size bufs] buckets IH]; intros Hkeys Hok.
  { split; [constructor|]. by intros l Hl%elem_of_nil. }
  cbn [fmap list_fmap fst snd concat] in *.
  apply NoDup_cons in Hkeys as [Hkey Hkeys].
  destruct IH as [Hnd Hin]; [done| |].
  { intros s b Hb. apply Hok. by right. }
  destruct (Hok size bufs) as [Hbufs Hlive]; [by left|].
  rewrite Forall_forall in Hlive.
  split.
  - apply NoDup_app. split; [done|]. split; [|done].
    intros l Hl Hl'. destruct (Hin l Hl') as (s & b & Hb & _ & Hs).
    specialize (Hlive l Hl). assert (s = size) as -> by congruence.
    apply Hkey. apply list_elem_of_fmap. by exists (size, b).
  - intros l [Hl|Hl]%elem_of_app.
    + exists size, bufs. split; [by left|]. split; [done|]. by apply Hlive.
    + destruct (Hin l Hl) as (s & b & Hb & Hlb & Hs).
      exists s, b. split; [by right|done].
Qed.

Lemma elem_of_pool_blocks (buckets : list (Z * list loc)) (size : Z)
  (bufs : list loc) (l : loc) :
  (size, bufs) ∈ buckets → l ∈ bufs → l ∈ concat buckets.*2.
Proof.
  induction buckets as [|[s b] buckets IH]; intros Hb Hl.
  { by apply elem_of_nil in Hb. }
  cbn [fmap list_fmap snd concat]. apply elem_of_app.
  apply elem_of_cons in Hb as [[= <- <-]|Hb]; [by left|].
  right. by apply IH.
Qed.

(** X20.  The pool from the constructor to the destructor.  Start with an
    empty pool and any free store, and make any requests
    [get_collective_buffer(size, idx)], in sequence or out of it.  The
    loops of the destructor, in whatever order the container hands out the
    buckets, then delete live blocks only, each of them once, and leave the
    free store as it was before the first request: no block is deleted
    twice and none is lost. *)
Theorem dtor_gives_the_pool_back (requests : list (Z * Z)) (c : lbann_comm)
  (h : heap) (buckets : list (Z * list loc)) :
  collective_bufs c = ∅ →
  let st := get_collective_buffers requests (c, h) in
  buckets ≡ₚ map_to_list (collective_bufs st.1) →
  delete_buckets buckets st.2 = Some h.
Proof.
  intros Hempty st Hperm.
  destruct (get_collective_buffers_owned h requests (c, h))
    as (Hok & Hnew & Hold).
  { by apply pool_ok_empty. }
  { intros s bufs l. cbn. by rewrite Hempty, lookup_empty. }
  { intros l. by right. }
  fold st in Hok, Hnew, Hold.
  assert (∀ size bufs, (size, bufs) ∈ buckets
                       ↔ collective_bufs st.1 !! size = Some bufs) as Hbuckets.
  { intros size bufs. rewrite Hperm. apply elem_of_map_to_list. }
  destruct (pool_blocks st.2 buckets) as [Hnd Hin].
  { rewrite Hperm. apply NoDup_fst_map_to_list. }
  { intros size bufs Hb. apply Hok. by apply Hbuckets. }
  destruct (delete_buckets_live buckets st.2 Hnd) as (h' & Hrun & Hh').
  { apply Forall_forall. intros l Hl.
    destruct (Hin l Hl) as (s & b & _ & _ & Hs). by rewrite Hs. }
  rewrite Hrun. f_equal. apply map_eq. intros l. rewrite Hh'.
  destruct (decide (l ∈ concat buckets.*2)) as [Hl|Hl].
  - destruct (Hin l Hl) as (s & b & Hb & Hlb & _).
    symmetry. apply (Hnew s b l); [by apply Hbuckets|done].
  - destruct (Hold l) as [(s & b & Hs & Hlb)|Heq]; [|done].
    exfalso. apply Hl. apply (elem_of_pool_blocks buckets s b); [|done].
    by apply Hbuckets.
Qed.

(** two buffers of 8 bytes and one of 16, a request out of sequence among
    them, on a free store that holds one other block *)
Lemma dtor_gives_the_pool_back_witness :
  let c := mk_comm 1 1 0 0 0 0 0 0 0 ∅ in
  let h : heap := {[ 1%positive := 3 ]} in
  let st := get_collective_buffers [(8, 0); (8, 1); (8, 5); (16, 0)] (c, h) in
  delete_buckets (map_to_list (collective_bufs st.1)) st.2 = Some h.
Proof.
  intros c h st.
  apply (dtor_gives_the_pool_back [(8, 0); (8, 1); (8, 5); (16, 0)] c h);
    reflexivity.
Defined.

End Comm_facts.

(** ** The data reader *)

Module Reader_facts.
Import CInt CInt_facts Comm Reader.

(** *** Batch size and position *)

(** C8: [getm_batch_size] returns [m_last_mini_batch_size] when the
    alternative last mini-batch size is in use and the current mini-batch
    index is at or past [m_num_mini_batches_per_reader - 1], and
    [m_batch_size] in every other case; the reader is as it was. *)
Theorem getm_batch_size_spec (r : generic_data_reader) :
  in_int (m_num_mini_batches_per_reader r - 1) →
  (m_use_alt_last_mini_batch_size r = true
   ∧ m_num_mini_batches_per_reader r - 1 ≤ m_current_mini_batch_idx r →
   getm_batch_size r = (m_last_mini_batch_size r, r))
  ∧ (¬ (m_use_alt_last_mini_batch_size r = true
        ∧ m_num_mini_batches_per_reader r - 1 ≤ m_current_mini_batch_idx r) →
     getm_batch_size r = (m_batch_size r, r)).
Proof.
  intros Hnum. unfold getm_batch_size. rewrite int_sub_exact by done.
  destruct (m_use_alt_last_mini_batch_size r); simpl.
  - destruct (Z.geb_spec (m_current_mini_batch_idx r)
                (m_num_mini_batches_per_reader r - 1)).
    + split; [done|]. intros Hnot. exfalso. apply Hnot. split; [done|lia].
    + split; [|done]. intros [_ ?]. lia.
  - split; [|done]. intros [? _]. done.
Qed.

(** the reader of the ragged-tail scenario: batches of 10, a tail of 3,
    23 indices, three mini-batches *)
Local Abbreviation tail_reader idx pos :=
  (mk_reader 10 pos 10 1 0 0 true 0 3 10 idx 3 3 (seqZ 0 23) []
     (Zeros 10 1) true 0 false (-1)%float (-1)%float).

Lemma getm_batch_size_spec_witness :
  getm_batch_size (tail_reader 2 20) = (3, tail_reader 2 20)
  ∧ getm_batch_size (tail_reader 1 10) = (10, tail_reader 1 10).
Proof.
  split.
  - apply (getm_batch_size_spec (tail_reader 2 20)); [by vm_compute|].
    simpl. split; [done|lia].
  - apply (getm_batch_size_spec (tail_reader 1 10)); [by vm_compute|].
    simpl. intros [_ ?]. lia.
Defined.

Section update_facts.
Variable rng : Type.
Variable std_shuffle : list Z → rng → list Z * rng.

(** C3, as the code has it: provided no [int] overflows, [update] advances
    [m_current_pos] by [m_batch_stride], or by [m_last_mini_batch_stride]
    when the alternative last mini-batch size is in use and the mini-batch
    about to finish is at or past the second to last one.  While the new
    position is within the shuffled indices it returns [true] and counts
    the mini-batch; otherwise it returns [false], shuffles the indices
    again unless [m_first_n] is set, sets [m_current_mini_batch_idx] to
    zero and sets [m_current_pos] back to [m_base_offset + m_model_offset],
    the position [setup] starts from. *)
Theorem update_spec (r : generic_data_reader) (g : rng) :
  let stride :=
    if m_use_alt_last_mini_batch_size r
       && (m_num_mini_batches_per_reader r - 1
           <=? m_current_mini_batch_idx r + 1)
    then m_last_mini_batch_stride r else m_batch_stride r in
  in_int (m_current_mini_batch_idx r + 1) →
  in_int (m_num_mini_batches_per_reader r - 1) →
  in_int (m_current_pos r + stride) →
  in_int (m_base_offset r + m_model_offset r) →
  Z.of_nat (length (m_shuffled_indices r)) ≤ INT_MAX →
  let '(more, r', g') := update rng std_shuffle r g in
  if decide (m_current_pos r + stride
             < Z.of_nat (length (m_shuffled_indices r)))
  then
    more = true
    ∧ m_current_pos r' = m_current_pos r + stride
    ∧ m_current_mini_batch_idx r' = m_current_mini_batch_idx r + 1
    ∧ m_shuffled_indices r' = m_shuffled_indices r
    ∧ g' = g
  else
    more = false
    ∧ m_current_pos r' = m_base_offset r + m_model_offset r
    ∧ m_current_mini_batch_idx r' = 0
    ∧ (m_shuffled_indices r', g') = shuffle_unless_first_n rng std_shuffle r g.
Proof.
  intros stride Hidx Hnum Hpos Hoff Hlen. unfold update.
  rewrite (int_add_exact _ 1), int_sub_exact by done.
  assert ((m_current_mini_batch_idx r + 1
           >=? m_num_mini_batches_per_reader r - 1)
          = (m_num_mini_batches_per_reader r - 1
             <=? m_current_mini_batch_idx r + 1)) as ->.
  { rewrite Z.geb_leb. done. }
  set (r1 := if _ && _ then _ else _).
  assert (r1 = set_current_pos (m_current_pos r + stride) r) as ->.
  { unfold r1, stride.
    destruct (_ && _); by rewrite int_add_exact. }
  cbn -[int_add to_int Z.add Z.ltb Z.of_nat].
  rewrite to_int_id by (unfold in_int, INT_MIN, INT_MAX in *; lia).
  rewrite !int_add_exact by done.
  destruct (Z.ltb_spec (m_current_pos r + stride)
              (Z.of_nat (length (m_shuffled_indices r)))) as [Hlt|Hge].
  - destruct (decide _) as [_|?]; [done|lia].
  - unfold shuffle_unless_first_n.
    cbn -[int_add to_int Z.add Z.ltb Z.of_nat].
    destruct (m_first_n r); cbn [negb].
    + destruct (decide _) as [?|_]; [lia|done].
    + destruct (std_shuffle (m_shuffled_indices r) g) as [sh g1].
      destruct (decide _) as [?|_]; [lia|done].
Qed.

End update_facts.

(** the second [update] of the tail scenario steps into the tail batch;
    the third one wraps *)
Lemma update_spec_witness :
  (let '(more, r', _) := update unit (λ l g, (reverse l, g))
                           (tail_reader 1 10) tt in
   more = true ∧ m_current_pos r' = 20 ∧ m_current_mini_batch_idx r' = 2)
  ∧ (let '(more, r', _) := update unit (λ l g, (reverse l, g))
                             (tail_reader 2 20) tt in
     more = false ∧ m_current_pos r' = 0 ∧ m_current_mini_batch_idx r' = 0).
Proof.
  split.
  - pose proof (update_spec unit (λ l g, (reverse l, g)) (tail_reader 1 10) tt)
      as H.
    destruct (update unit _ (tail_reader 1 10) tt) as [[more r'] g'].
    simpl in H.
    destruct H as (? & ? & ? & _); [by vm_compute..|done].
  - pose proof (update_spec unit (λ l g, (reverse l, g)) (tail_reader 2 20) tt)
      as H.
    destruct (update unit _ (tail_reader 2 20) tt) as [[more r'] g'].
    simpl in H.
    destruct H as (? & ? & ? & _); [by vm_compute..|done].
Defined.

(** C3 as it was stated fails where the reader starts at an offset: with
    [m_base_offset = 2] and [m_model_offset = 3] the call that ends the
    epoch returns [false] and leaves [m_current_pos] at 5, not at zero. *)
Lemma update_wrap_returns_to_offset :
  let r := mk_reader 10 15 10 1 2 3 false 0 10 10 1 2 2 (seqZ 0 20) []
             (Zeros 10 1) true 0 false (-1)%float (-1)%float in
  let '(more, r', _) := update unit (λ l g, (l, g)) r tt in
  more = false ∧ m_current_mini_batch_idx r' = 0
  ∧ m_current_pos r' = 5 ∧ m_current_pos r' ≠ 0.
Proof. vm_compute. repeat split; discriminate. Qed.

(** *** Subset selection *)

Lemma length_resize (n : nat) (l : list Z) : length (resize n l) = n.
Proof.
  unfold resize. rewrite length_app, length_take, length_replicate. lia.
Qed.

Lemma resize_all (l : list Z) : resize (length l) l = l.
Proof.
  unfold resize. rewrite firstn_all, Nat.sub_diag. simpl.
  by rewrite app_nil_r.
Qed.

Lemma length_std_sort (l : list Z) : length (std_sort l) = length l.
Proof. unfold std_sort. by rewrite merge_sort_Permutation. Qed.

(** unfold the setters and projections of the reader, and nothing else *)
Ltac reader_simpl :=
  cbn -[to_int to_uint64 Z.of_nat double_to_Z int_to_double PrimFloat.mul
        PrimFloat.eqb std_sort resize Z.gtb Z.ltb Z.to_nat Z.sub drop].

Section select_facts.
Variable rng : Type.
Variable std_shuffle : list Z → rng → list Z * rng.

(** [std::shuffle] permutes its range *)
Hypothesis std_shuffle_perm : ∀ l g, (std_shuffle l g).1 ≡ₚ l.

Lemma length_shuffle_unless_first_n r g :
  length (shuffle_unless_first_n rng std_shuffle r g).1
  = length (m_shuffled_indices r).
Proof.
  unfold shuffle_unless_first_n. destruct (m_first_n r); cbn [negb]; [done|].
  by rewrite std_shuffle_perm.
Qed.

Lemma select_subset_of_data_unfold r g :
  select_subset_of_data rng std_shuffle r g
  = let r1 := set_shuffled_indices (shuffle_unless_first_n rng std_shuffle r g).1 r in
    if negb (has_max_sample_count r || has_use_percent r
             || has_validation_percent r)
    then (Ret tt, r1, (shuffle_unless_first_n rng std_shuffle r g).2)
    else
      match truncate_to_count r1 with
      | Throw e => (Throw e, r1, (shuffle_unless_first_n rng std_shuffle r g).2)
      | Ret r2 =>
          let r3 := split_validation r2 in
          (Ret tt,
           if m_first_n r then r3
           else set_unused_indices (std_sort (m_unused_indices r3))
                  (set_shuffled_indices (std_sort (m_shuffled_indices r3)) r3),
           (shuffle_unless_first_n rng std_shuffle r g).2)
      end.
Proof.
  unfold select_subset_of_data, shuffle_unless_first_n, get_firstN.
  destruct (m_first_n r) eqn:Hfn; cbn [negb].
  - cbn [fst snd]. destruct (negb _); [done|].
    destruct (truncate_to_count _) as [r2|e] eqn:Htr; [|done].
    assert (m_first_n (split_validation r2) = true) as ->; [|done].
    unfold truncate_to_count, get_use_percent in Htr.
    unfold split_validation.
    repeat case_match; simplify_eq; done.
  - destruct (std_shuffle (m_shuffled_indices r) g) as [sh g1].
    cbn [fst snd]. destruct (negb _); [done|].
    destruct (truncate_to_count _) as [r2|e] eqn:Htr; [|done].
    assert (m_first_n (split_validation r2) = false) as ->; [|done].
    unfold truncate_to_count, get_use_percent in Htr.
    unfold split_validation.
    repeat case_match; simplify_eq; done.
Qed.

(** C7, as the code has it.  [select_subset_of_data] shuffles the indices
    unless [m_first_n] is set.  When none of the maximal sample count, the
    use percentage and the validation percentage is set it returns there,
    the indices as the shuffle left them.  When the maximal sample count is
    set and exceeds the number of indices it throws (SubsetTooLarge).
    Otherwise, when the percentages that the call reads lie between 0 and
    1, it applies, in this order: the cut of the shuffled indices to the
    maximal sample count, or else to the use percentage of their number;
    the move of the validation percentage of what remains, when that is at
    least one index, from the tail into the unused indices; the sort of
    both vectors unless [m_first_n] is set.  With 100 indices, a use
    percentage of 0.5 and a validation percentage of 0.2, 40 indices stay
    and 10 are unused.  The setters let not-a-number through as a
    percentage; the conversion of the product to an integer is then
    undefined, and nothing is said of the call. *)
Theorem select_subset_of_data_spec (r : generic_data_reader) (g : rng) :
  Z.of_nat (length (m_shuffled_indices r)) ≤ INT_MAX →
  0 ≤ m_max_sample_count r < 2 ^ 64 →
  let pool := shuffle_unless_first_n rng std_shuffle r g in
  let N := Z.of_nat (length (m_shuffled_indices r)) in
  let '(result, r', g') := select_subset_of_data rng std_shuffle r g in
  g' = pool.2
  ∧ (has_max_sample_count r = false → has_use_percent r = false →
     has_validation_percent r = false →
     result = Ret tt ∧ m_shuffled_indices r' = pool.1
     ∧ m_unused_indices r' = m_unused_indices r)
  ∧ (has_max_sample_count r = true → m_max_sample_count r > N →
     fails_with result SubsetTooLarge ∧ m_shuffled_indices r' = pool.1
     ∧ m_unused_indices r' = m_unused_indices r)
  ∧ (has_max_sample_count r || has_use_percent r
     || has_validation_percent r = true →
     (has_max_sample_count r = true → m_max_sample_count r ≤ N) →
     (has_max_sample_count r = false → has_use_percent r = true →
      PrimFloat.leb 0 (m_use_percent r) = true
      ∧ PrimFloat.leb (m_use_percent r) 1 = true) →
     (has_validation_percent r = true →
      PrimFloat.leb 0 (m_validation_percent r) = true
      ∧ PrimFloat.leb (m_validation_percent r) 1 = true) →
     let cut :=
       if has_max_sample_count r
       then resize (Z.to_nat (m_max_sample_count r)) pool.1
       else if has_use_percent r
       then resize
              (Z.to_nat
                 (double_to_Z
                    (PrimFloat.mul (m_use_percent r) (int_to_double N))))
              pool.1
       else pool.1 in
     let n := to_int (Z.of_nat (length cut)) in
     let unused :=
       if has_validation_percent r
       then double_to_Z
              (PrimFloat.mul (m_validation_percent r) (int_to_double n))
       else 0 in
     let keep :=
       if 0 <? unused then resize (Z.to_nat (n - unused)) cut else cut in
     let rest :=
       if 0 <? unused then drop (Z.to_nat (n - unused)) cut
       else m_unused_indices r in
     result = Ret tt
     ∧ m_shuffled_indices r' = (if m_first_n r then keep else std_sort keep)
     ∧ m_unused_indices r' = (if m_first_n r then rest else std_sort rest))
  ∧ (N = 100 → has_max_sample_count r = false →
     m_use_percent r = 0.5%float → m_validation_percent r = 0.2%float →
     result = Ret tt
     ∧ length (m_shuffled_indices r') = 40%nat
     ∧ length (m_unused_indices r') = 10%nat).
Proof.
  intros Hlen Hmax pool N.
  rewrite select_subset_of_data_unfold.
  change (if m_first_n r then (m_shuffled_indices r, g)
          else std_shuffle (m_shuffled_indices r) g)
    with (shuffle_unless_first_n rng std_shuffle r g) in pool.
  pose proof (length_shuffle_unless_first_n r g) as Hpool. fold pool in Hpool.
  fold pool. clearbody pool. destruct pool as [sh g1]. cbn [fst snd] in *.
  assert (to_int N = N) as HN
    by (apply to_int_id; unfold in_int, INT_MIN, INT_MAX in *; lia).
  assert (to_uint64 N = N) as HN64
    by (apply to_uint64_id; unfold INT_MAX in *; lia).
  assert (to_uint64 (m_max_sample_count r) = m_max_sample_count r) as Hmax64
    by by apply to_uint64_id.
  unfold truncate_to_count, split_validation, get_use_percent, getNumData,
    get_max_sample_count, get_validation_percent, has_use_percent,
    has_max_sample_count, has_validation_percent.
  reader_simpl. rewrite Hpool. fold N. rewrite HN, HN64, Hmax64, Z.gtb_ltb.
  destruct (m_max_sample_count_was_set r) eqn:Hset;
    destruct (PrimFloat.eqb (m_use_percent r) (-1)) eqn:Huse;
    destruct (PrimFloat.eqb (m_validation_percent r) (-1)) eqn:Hval;
    destruct (m_first_n r) eqn:Hfn;
    reader_simpl.
  all: try destruct (Z.ltb_spec N (m_max_sample_count r)) as [Hgt|Hle].
  all: reader_simpl; rewrite ?Hval, ?Z.gtb_ltb; reader_simpl.
  all: try destruct (0 <? double_to_Z _) eqn:Hpos; reader_simpl.
  all: split; [done|].
  all: split; [by intros|].
  all: split;
    [try done; intros; try lia;
     (split; [|done]); eexists; (split; [reflexivity|done])|].
  all: split;
    [try done; intros _ Hle' _ _; try (specialize (Hle' eq_refl); lia);
     done|].
  all: try done.
  all: intros HN100 _ Hu Hv.
  all: try (rewrite Hu in Huse; by vm_compute in Huse).
  all: try (rewrite Hv in Hval; by vm_compute in Hval).
  all: rewrite ?Hu, ?Hv, ?HN100, ?length_resize in *.
  all: try by vm_compute in Hpos.
  all: rewrite ?length_std_sort, ?length_drop, ?length_resize.
  all: split; [done|]; by vm_compute.
Qed.

End select_facts.

(** the scenario of C7 on the indices 0..99, with a shuffle that reverses *)
Lemma select_subset_of_data_spec_witness :
  let r := mk_reader 10 0 10 1 0 0 false 0 10 10 0 10 10 (seqZ 0 100) []
             (Zeros 10 1) false 0 false 0.2%float 0.5%float in
  let '(result, r', _) :=
    select_subset_of_data unit (λ l g, (reverse l, g)) r tt in
  result = Ret tt
  ∧ length (m_shuffled_indices r') = 40%nat
  ∧ length (m_unused_indices r') = 10%nat.
Proof.
  intros r.
  pose proof (select_subset_of_data_spec unit (λ l g, (reverse l, g))
                (λ l g, reverse_Permutation l) r tt) as H.
  destruct (select_subset_of_data unit _ r tt) as [[result r'] g'].
  destruct H as (_ & _ & _ & _ & H); [by vm_compute | by vm_compute |].
  apply H; reflexivity.
Defined.

(** C7 as it was stated fails when no option is set: the indices are
    shuffled (here: reversed) and the call returns without sorting them. *)
Lemma select_subset_without_options_is_not_sorted :
  let r := mk_reader 10 0 10 1 0 0 false 0 10 10 0 10 10 [0; 1; 2] []
             (Zeros 10 1) false 0 false (-1)%float (-1)%float in
  let '(result, r', _) :=
    select_subset_of_data unit (λ l g, (reverse l, g)) r tt in
  result = Ret tt
  ∧ m_shuffled_indices r' = [2; 1; 0]
  ∧ m_shuffled_indices r' ≠ std_sort (m_shuffled_indices r').
Proof. vm_compute. repeat split; discriminate. Qed.

(** *** Checkpoints *)

Lemma string_take_all (n : nat) (s : string) :
  (String.length s ≤ n)%nat → string_take n s = s.
Proof.
  revert n. induction s as [|a s IH]; intros [|n] Hn; simpl in *;
    try done; try lia.
  f_equal. apply IH. lia.
Qed.

Lemma string_length_app (s1 s2 : string) :
  String.length (s1 +:+ s2) = (String.length s1 + String.length s2)%nat.
Proof. induction s1 as [|a s1 IH]; simpl; [done|]. by rewrite IH. Qed.

Lemma string_app_inj (s s1 s2 : string) : s +:+ s1 = s +:+ s2 → s1 = s2.
Proof. induction s as [|a s IH]; simpl; [done|]. intros [= ?]. auto. Qed.

(** a name of at most 1000 characters fits the buffer with every suffix
    the checkpoint uses *)
Lemma fieldname_fits (name suffix : string) :
  (String.length name ≤ 1000)%nat → (String.length suffix ≤ 23)%nat →
  fieldname name suffix = name +:+ suffix.
Proof.
  intros Hn Hs. unfold fieldname. apply string_take_all.
  rewrite string_length_app. lia.
Qed.

Lemma fieldname_ne (name s1 s2 : string) :
  (String.length name ≤ 1000)%nat →
  (String.length s1 ≤ 23)%nat → (String.length s2 ≤ 23)%nat →
  s1 ≠ s2 → fieldname name s1 ≠ fieldname name s2.
Proof.
  intros Hn H1 H2 Hne. rewrite !fieldname_fits by done.
  intros Heq. by apply string_app_inj in Heq.
Qed.

(** only rank 0 writes *)
Lemma save_world_root (p : persist) (name : string) (r0 : generic_data_reader)
  (others : list generic_data_reader) :
  save_world p name (r0 :: others)
  = (saveToCheckpointShared 0 p name r0).2.
Proof.
  unfold save_world. rewrite imap_cons. cbn [foldl fst snd].
  change (Z.of_nat 0) with 0.
  assert (∀ (q : persist) (f : nat → nat) (l : list generic_data_reader),
            (∀ i, f i ≠ O) →
            foldl (λ p x, (saveToCheckpointShared x.1 p name x.2).2) q
              (imap (λ i r, (Z.of_nat (f i), r)) l) = q) as Hrest.
  { intros q f l. revert f. induction l as [|r l IH]; intros f Hf; [done|].
    rewrite imap_cons. cbn [foldl fst snd].
    unfold saveToCheckpointShared at 2.
    destruct (Z.eqb_spec (Z.of_nat (f O)) 0) as [H0|_].
    { specialize (Hf O). lia. }
    cbn [snd]. apply (IH (f ∘ S)). intros i. apply Hf. }
  apply (Hrest _ S). done.
Qed.

Lemma to_int_length (l : list Z) :
  Z.of_nat (length l) ≤ INT_MAX →
  Z.to_nat (to_uint64 (to_int (Z.of_nat (length l)))) = length l
  ∧ Z.to_nat (to_int (Z.of_nat (length l))) = length l.
Proof.
  intros Hl. rewrite to_int_id by (unfold in_int, INT_MIN, INT_MAX in *; lia).
  rewrite to_uint64_id by (unfold INT_MAX in *; lia). lia.
Qed.

(** what rank 0 reads back from the checkpoint that [saved] wrote *)
Lemma load_on_root_saved (p : persist) (name : string)
  (saved r : generic_data_reader) :
  (String.length name ≤ 1000)%nat →
  in_int (m_current_pos saved) →
  in_int (m_current_mini_batch_idx saved) →
  Z.of_nat (length (m_shuffled_indices saved)) ≤ INT_MAX →
  load_on_root (saveToCheckpointShared 0 p name saved).2 name r
  = Some (set_shuffled_indices (m_shuffled_indices saved)
            (set_current_pos (m_current_pos saved)
               (set_current_mini_batch_idx (m_current_mini_batch_idx saved)
                  r))).
Proof.
  intros Hname Hpos Hidx Hlen.
  destruct (to_int_length _ Hlen) as [Hlen64 _].
  unfold saveToCheckpointShared, load_on_root, read_uint64,
    read_int32_contig, write_uint64, write_int32_contig, write_field.
  cbn [Z.eqb snd fields_of train_fields].
  rewrite Hlen64, firstn_all.
  repeat (rewrite lookup_insert_eq
          || rewrite lookup_insert_ne
               by (apply fieldname_ne;
                   [done | simpl; lia | simpl; lia | discriminate])).
  rewrite !to_int_to_uint64 by (done || apply to_int_range).
  rewrite Hlen64.
  destruct (Z.ltb_spec (Z.of_nat (length (m_shuffled_indices saved)))
              (to_uint64 (to_int (Z.of_nat (length (m_shuffled_indices saved))))))
    as [Hlt|_].
  { lia. }
  rewrite firstn_all.
  cbn [m_shuffled_indices set_current_pos set_current_mini_batch_idx].
  rewrite drop_ge; [by rewrite app_nil_r|].
  rewrite length_resize. lia.
Qed.

(** what a rank holds after the broadcasts *)
Lemma receive_broadcasts_fields (rank : Z)
  (root r : generic_data_reader) :
  Z.of_nat (length (m_shuffled_indices root)) ≤ INT_MAX →
  rank ≠ 0 ∨ r = root →
  let r' := receive_broadcasts rank root r in
  m_current_pos r' = m_current_pos root
  ∧ m_current_mini_batch_idx r' = m_current_mini_batch_idx root
  ∧ m_shuffled_indices r' = m_shuffled_indices root.
Proof.
  intros Hlen Hrank.
  destruct (to_int_length _ Hlen) as [Hlen64 Hlen32].
  unfold receive_broadcasts. rewrite Hlen64, Hlen32, firstn_all.
  destruct (Z.eqb_spec rank 0) as [->|Hne]; cbn.
  - destruct Hrank as [?|Hr]; [done|]. subst r. cbn.
    rewrite drop_all. by rewrite app_nil_r.
  - rewrite drop_ge; [by rewrite app_nil_r|].
    rewrite length_resize. lia.
Qed.

(** C4: whatever rank 0 saved of its position, its mini-batch index and
    its shuffled indices, every rank of the world that loads the
    checkpoint holds exactly that afterwards: the load succeeds, returns
    [true] everywhere, and all ranks agree.  The reader name must leave
    room for the field suffix in the 1024 bytes of [fieldname]. *)
Theorem checkpoint_round_trip (p : persist) (name : string)
  (saved : generic_data_reader) (others w : list generic_data_reader) :
  (String.length name ≤ 1000)%nat →
  in_int (m_current_pos saved) →
  in_int (m_current_mini_batch_idx saved) →
  Z.of_nat (length (m_shuffled_indices saved)) ≤ INT_MAX →
  ∃ w', load_world (save_world p name (saved :: others)) name w = Some w'
        ∧ length w' = length w
        ∧ Forall (λ x : bool * generic_data_reader,
                    x.1 = true
                    ∧ m_current_pos x.2 = m_current_pos saved
                    ∧ m_current_mini_batch_idx x.2
                      = m_current_mini_batch_idx saved
                    ∧ m_shuffled_indices x.2 = m_shuffled_indices saved) w'.
Proof.
  intros Hname Hpos Hidx Hlen. rewrite save_world_root.
  destruct w as [|r0 rest]; [by exists []|].
  unfold load_world. rewrite load_on_root_saved by done.
  set (root := set_shuffled_indices _ _).
  eexists. split; [reflexivity|]. split.
  { by rewrite length_imap. }
  apply Forall_lookup_2. intros i [b r'] Hi.
  apply list_lookup_imap_Some in Hi as (r & Hr & [= -> ->]).
  split; [done|]. cbn [snd].
  destruct (receive_broadcasts_fields (Z.of_nat i) root r) as (H1 & H2 & H3).
  { done. }
  { destruct i as [|i]; [right|left; lia]. by injection Hr. }
  rewrite H1, H2, H3. done.
Qed.

(** two ranks save while rank 1 is ahead of rank 0, then load *)
Lemma checkpoint_round_trip_witness :
  ∃ w', load_world
          (save_world (mk_persist ∅ ∅) "mnist"
             [tail_reader 1 10; tail_reader 2 20])
          "mnist" [tail_reader 1 10; tail_reader 2 20] = Some w'
        ∧ length w' = 2%nat
        ∧ Forall (λ x : bool * generic_data_reader,
                    x.1 = true
                    ∧ m_current_pos x.2 = 10
                    ∧ m_current_mini_batch_idx x.2 = 1
                    ∧ m_shuffled_indices x.2 = seqZ 0 23) w'.
Proof.
  apply (checkpoint_round_trip (mk_persist ∅ ∅) "mnist" (tail_reader 1 10)
           [tail_reader 2 20] [tail_reader 1 10; tail_reader 2 20]);
    unfold in_int, INT_MIN, INT_MAX; simpl; lia.
Defined.

(** *** Subset selection: the one failure, and the split *)

Section subset_facts.
Variable rng : Type.
Variable std_shuffle : list Z → rng → list Z * rng.
Hypothesis std_shuffle_perm : ∀ l g, (std_shuffle l g).1 ≡ₚ l.

Lemma shuffle_unless_first_n_perm (r : generic_data_reader) (g : rng) :
  (shuffle_unless_first_n rng std_shuffle r g).1 ≡ₚ m_shuffled_indices r.
Proof.
  unfold shuffle_unless_first_n. destruct (m_first_n r); cbn [negb]; [done|].
  apply std_shuffle_perm.
Qed.


Lemma resize_take (n : nat) (l : list Z) :
  (n ≤ length l)%nat → resize n l = take n l.
Proof.
  intros Hn. unfold resize.
  replace (n - length l)%nat with O by lia. cbn. by rewrite app_nil_r.
Qed.

(** X16.  The split into training and validation indices.  Let the first branch
    cut the indices to [count] of them, no more than there are, and let the
    validation percentage of [count] be [unused], at least one index and at
    most [count].  Then the call returns; the shuffled and the unused
    indices it leaves are, together, the first [count] indices of the
    shuffle, the last [unused] of them unused; so no index is both in the
    training and in the validation set beyond its multiplicity in the
    indices the reader had.  Both vectors are sorted unless [m_first_n] is
    set.  [use_unused_index_set] then makes the unused indices the indices
    of the reader and leaves none unused. *)
Theorem select_subset_of_data_splits (r : generic_data_reader) (g : rng) :
  let pool := shuffle_unless_first_n rng std_shuffle r g in
  let N := Z.of_nat (length (m_shuffled_indices r)) in
  let count :=
    if has_max_sample_count r then m_max_sample_count r
    else if has_use_percent r
    then double_to_Z (PrimFloat.mul (m_use_percent r) (int_to_double N))
    else N in
  let unused :=
    double_to_Z
      (PrimFloat.mul (m_validation_percent r) (int_to_double count)) in
  N ≤ INT_MAX →
  has_validation_percent r = true →
  0 ≤ count ≤ N → 0 < unused ≤ count →
  let '(result, r', _) := select_subset_of_data rng std_shuffle r g in
  result = Ret tt
  ∧ m_shuffled_indices r' ++ m_unused_indices r'
    ≡ₚ take (Z.to_nat count) pool.1
  ∧ length (m_unused_indices r') = Z.to_nat unused
  ∧ m_shuffled_indices r' ++ m_unused_indices r' ⊆+ m_shuffled_indices r
  ∧ (m_first_n r = false →
     Sorted Z.le (m_shuffled_indices r') ∧ Sorted Z.le (m_unused_indices r'))
  ∧ m_shuffled_indices (use_unused_index_set r') = m_unused_indices r'
  ∧ m_unused_indices (use_unused_index_set r') = [].
Proof.
  intros pool N count unused HN Hval Hcount Hunused.
  rewrite select_subset_of_data_unfold.
  pose proof (length_shuffle_unless_first_n rng std_shuffle std_shuffle_perm
                r g) as Hpool.
  pose proof (shuffle_unless_first_n_perm r g) as Hperm.
  fold pool in Hpool, Hperm |- *. clearbody pool.
  destruct pool as [sh g1]. cbn [fst snd] in *.
  assert (to_int N = N) as HN32
    by (apply to_int_id; unfold in_int, INT_MIN, INT_MAX in *; lia).
  assert (to_uint64 N = N) as HN64
    by (apply to_uint64_id; unfold INT_MAX in *; lia).
  assert (to_int count = count) as Hc32
    by (apply to_int_id; unfold in_int, INT_MIN, INT_MAX in *; lia).
  assert (to_uint64 count = count) as Hc64
    by (apply to_uint64_id; unfold INT_MAX in *; lia).
  (* the cut *)
  set (cut := take (Z.to_nat count) sh).
  assert (length cut = Z.to_nat count) as Hcut
    by (unfold cut; rewrite length_take; lia).
  assert (has_max_sample_count r || has_use_percent r
          || has_validation_percent r = true) as ->
    by (rewrite Hval; apply orb_true_r).
  cbn [negb].
  assert (truncate_to_count (set_shuffled_indices sh r)
          = Ret (set_shuffled_indices cut r)) as ->.
  { unfold truncate_to_count, get_use_percent, getNumData,
      has_max_sample_count, get_max_sample_count, has_use_percent in *.
    reader_simpl. rewrite Hpool. fold N. rewrite HN32, HN64.
    unfold cut, count in *.
    destruct (m_max_sample_count_was_set r).
    - rewrite Hc64. destruct (Z.gtb_spec (m_max_sample_count r) N); [lia|].
      by rewrite resize_take by lia.
    - destruct (PrimFloat.eqb (m_use_percent r) (-1)); reader_simpl.
      + unfold N. by rewrite Nat2Z.id, <- Hpool, firstn_all.
      + by rewrite resize_take by lia. }
  (* the validation indices *)
  unfold split_validation, getNumData, get_validation_percent,
    has_validation_percent in *.
  reader_simpl. rewrite Hval. reader_simpl.
  rewrite Hcut, Z2Nat.id, Hc32 by lia.
  fold unused. destruct (Z.gtb_spec unused 0) as [_|?]; [|lia].
  reader_simpl. rewrite resize_take by lia.
  set (keep := take (Z.to_nat (count - unused)) cut).
  set (rest := drop (Z.to_nat (count - unused)) cut).
  assert (keep ++ rest = cut) as Hsplit by apply take_drop.
  assert (length rest = Z.to_nat unused) as Hrest
    by (unfold rest; rewrite length_drop; lia).
  assert (cut ⊆+ m_shuffled_indices r) as Hsub.
  { rewrite <- Hperm. apply sublist_submseteq, sublist_take. }
  destruct (m_first_n r); reader_simpl.
  - rewrite Hsplit. repeat split; done.
  - unfold std_sort.
    assert (merge_sort Z.le keep ++ merge_sort Z.le rest ≡ₚ cut) as Hsorted
      by (by rewrite !merge_sort_Permutation, Hsplit).
    split; [done|]. split; [done|]. split.
    { by rewrite merge_sort_Permutation. }
    split; [by rewrite Hsorted|]. split; [|done].
    intros _. split; apply (Sorted_merge_sort Z.le).
Qed.

End subset_facts.


(** 100 indices, half of them used, a fifth of those for validation *)
Lemma select_subset_of_data_splits_witness :
  let r := mk_reader 10 0 10 1 0 0 false 0 10 10 0 10 10 (seqZ 0 100) []
             (Zeros 10 1) false 0 false 0.2%float 0.5%float in
  let '(result, r', _) :=
    select_subset_of_data unit (λ l g, (reverse l, g)) r tt in
  result = Ret tt
  ∧ m_shuffled_indices r' ++ m_unused_indices r'
    ≡ₚ take 50 (reverse (seqZ 0 100))
  ∧ length (m_unused_indices r') = 10%nat
  ∧ m_shuffled_indices r' ++ m_unused_indices r' ⊆+ seqZ 0 100
  ∧ (false = false →
     Sorted Z.le (m_shuffled_indices r') ∧ Sorted Z.le (m_unused_indices r'))
  ∧ m_shuffled_indices (use_unused_index_set r') = m_unused_indices r'
  ∧ m_unused_indices (use_unused_index_set r') = [].
Proof.
  intros r.
  apply (select_subset_of_data_splits unit (λ l g, (reverse l, g))
           (λ l g, reverse_Permutation l) r tt).
  - by vm_compute.
  - reflexivity.
  - vm_compute. split; discriminate.
  - vm_compute. split; [reflexivity | discriminate].
Defined.

(** *** Epochs *)

Section epoch_facts.
Variable rng : Type.
Variable std_shuffle : list Z → rng → list Z * rng.
Hypothesis std_shuffle_perm : ∀ l g, (std_shuffle l g).1 ≡ₚ l.

(** X13.  [get_next_position] tells where [update] goes: the position after a
    call of [update] that returns [true] is the one [get_next_position]
    returned before the call, and after a call that returns [false] it is
    [m_base_offset + m_model_offset]. *)
Theorem update_goes_to_next_position (r : generic_data_reader) (g : rng) :
  let '(more, r', _) := update rng std_shuffle r g in
  m_current_pos r'
  = if more then get_next_position r
    else int_add (m_base_offset r) (m_model_offset r).
Proof.
  unfold update, get_next_position, shuffle_unless_first_n.
  destruct (m_use_alt_last_mini_batch_size r && _);
    cbn -[int_add to_int Z.ltb Z.of_nat];
    destruct (_ <? _); cbn -[int_add to_int Z.ltb Z.of_nat]; try done;
    destruct (m_first_n r); cbn -[int_add]; try done;
    by destruct (std_shuffle _ _).
Qed.

Lemma update_equal_strides (r : generic_data_reader) (g : rng) :
  m_last_mini_batch_stride r = m_batch_stride r →
  in_int (m_current_pos r + m_batch_stride r) →
  in_int (m_current_mini_batch_idx r + 1) →
  in_int (m_base_offset r + m_model_offset r) →
  Z.of_nat (length (m_shuffled_indices r)) ≤ INT_MAX →
  let '(more, r', g') := update rng std_shuffle r g in
  same_plan r r'
  ∧ m_indices_fetched_per_mb r'
    = Zeros (Width (m_indices_fetched_per_mb r)) 1
  ∧ if decide (m_current_pos r + m_batch_stride r
               < Z.of_nat (length (m_shuffled_indices r)))
    then more = true ∧ g' = g
         ∧ m_current_pos r' = m_current_pos r + m_batch_stride r
         ∧ m_current_mini_batch_idx r' = m_current_mini_batch_idx r + 1
         ∧ m_shuffled_indices r' = m_shuffled_indices r
    else more = false
         ∧ m_current_pos r' = m_base_offset r + m_model_offset r
         ∧ m_current_mini_batch_idx r' = 0
         ∧ m_shuffled_indices r' ≡ₚ m_shuffled_indices r.
Proof.
  intros Hstride Hpos Hidx Hoff Hlen. unfold update.
  set (r1 := if _ && _ then _ else _).
  assert (r1 = set_current_pos (m_current_pos r + m_batch_stride r) r) as ->.
  { unfold r1. rewrite Hstride.
    rewrite (int_add_exact (m_current_pos r)) by done. by destruct (_ && _). }
  cbn -[int_add to_int Z.add Z.ltb Z.of_nat Zeros Width].
  rewrite to_int_id by (unfold in_int, INT_MIN, INT_MAX in *; lia).
  rewrite !int_add_exact by done.
  destruct (Z.ltb_spec (m_current_pos r + m_batch_stride r)
              (Z.of_nat (length (m_shuffled_indices r)))) as [Hlt|Hge].
  - split; [done|]. split; [done|].
    destruct (decide _) as [_|?]; [done|lia].
  - pose proof (std_shuffle_perm (m_shuffled_indices r) g) as Hperm.
    unfold shuffle_unless_first_n.
    cbn -[int_add to_int Z.add Z.ltb Z.of_nat Zeros Width].
    destruct (m_first_n r) eqn:Hfn; cbn [negb].
    + split; [by unfold same_plan|]. split; [done|].
      destruct (decide _) as [?|_]; [lia|done].
    + destruct (std_shuffle (m_shuffled_indices r) g) as [sh g1].
      split; [by unfold same_plan|]. split; [done|].
      destruct (decide _) as [?|_]; [lia|done].
Qed.

Lemma updates_app (n m : nat) (r : generic_data_reader) (g : rng) :
  updates rng std_shuffle (n + m) r g
  = let '(results1, r1, g1) := updates rng std_shuffle n r g in
    let '(results2, r2, g2) := updates rng std_shuffle m r1 g1 in
    (results1 ++ results2, r2, g2).
Proof.
  revert r g. induction n as [|n IH]; intros r g; cbn [updates Nat.add].
  { by destruct (updates rng std_shuffle m r g) as [[??]?]. }
  destruct (update rng std_shuffle r g) as [[more r1] g1].
  rewrite IH.
  destruct (updates rng std_shuffle n r1 g1) as [[results1 r2] g2].
  by destruct (updates rng std_shuffle m r2 g2) as [[results2 r3] g3].
Qed.

(** [k] calls that stay within the indices *)
Lemma updates_within (k : nat) :
  ∀ (r : generic_data_reader) (g : rng),
    let s := m_batch_stride r in
    let N := Z.of_nat (length (m_shuffled_indices r)) in
    m_last_mini_batch_stride r = s → 0 < s →
    0 ≤ m_current_mini_batch_idx r →
    m_current_mini_batch_idx r + Z.of_nat k ≤ INT_MAX →
    in_int (m_current_pos r) →
    in_int (m_base_offset r + m_model_offset r) →
    N ≤ INT_MAX →
    (k = O ∨ m_current_pos r + Z.of_nat k * s < N) →
    Width (m_indices_fetched_per_mb r) = 1 →
    let '(results, r', g') := updates rng std_shuffle k r g in
    results = replicate k true ∧ g' = g
    ∧ same_plan r r'
    ∧ m_current_pos r' = m_current_pos r + Z.of_nat k * s
    ∧ m_current_mini_batch_idx r' = m_current_mini_batch_idx r + Z.of_nat k
    ∧ m_shuffled_indices r' = m_shuffled_indices r
    ∧ m_indices_fetched_per_mb r'
      = match k with
        | O => m_indices_fetched_per_mb r
        | S _ => Zeros 1 1
        end.
Proof.
  induction k as [|k IH]; intros r g s N Hstride Hs Hidx0 Hidx Hpos Hoff HN
    Hin Hwd.
  { cbn. repeat split; try done; lia. }
  destruct Hin as [?|Hin]; [done|].
  cbn [updates].
  pose proof (update_equal_strides r g Hstride) as Hstep.
  destruct (update rng std_shuffle r g) as [[more r1] g1].
  fold s N in Hstep.
  destruct Hstep as (Hplan & Hfetched & Hstep).
  { unfold in_int, INT_MIN, INT_MAX in *. nia. }
  { unfold in_int, INT_MIN, INT_MAX in *. lia. }
  { done. }
  { done. }
  destruct (decide (m_current_pos r + s < N)) as [_|Hge]; [|nia].
  destruct Hstep as (-> & -> & Hpos1 & Hidx1 & Hsh1).
  destruct Hplan as (Hbs & Hst & Hlast & Hbase & Hmodel & Hfn & Hun).
  rewrite Hwd in Hfetched.
  specialize (IH r1 g). cbn zeta in IH.
  rewrite Hst, Hlast, Hbase, Hmodel, Hsh1, Hpos1, Hidx1, Hfetched in IH.
  destruct (updates rng std_shuffle k r1 g) as [[results r2] g2].
  fold s N in IH.
  destruct IH as (-> & -> & Hplan2 & Hpos2 & Hidx2 & Hsh2 & Hf2);
    try done; try lia;
    try (unfold in_int, INT_MIN, INT_MAX in *; nia);
    try (destruct k as [|k]; [by left | right; lia]).
  split; [done|]. split; [done|]. split.
  { destruct Hplan2 as (? & ? & ? & ? & ? & ? & ?).
    unfold same_plan. repeat split; congruence. }
  split; [lia|]. split; [lia|]. split; [done|].
  rewrite Hf2. by destruct k.
Qed.

(** X14.  An epoch after [setup].  [setup] makes both strides [batch_stride], so
    [update] advances by it whether or not the alternative last mini-batch
    is in use.  When [k] strides from the start [base_offset + model_offset]
    stay within the indices and one more does not, the first [k] calls of
    [update] return [true] and the next one returns [false]; the reader is
    then where [setup] put it, at the start and at mini-batch 0, over a
    permutation of the same indices.  The matrix of fetched indices, which
    [setup] made [m_batch_size] x 1, is 1 x 1 after the first [update]. *)
Theorem epoch_after_setup (base_offset batch_stride sample_stride
    model_offset : Z) (has_comm : bool) (ceil_num_data : Z)
    (r : generic_data_reader) (g : rng) (k : nat) :
  let N := Z.of_nat (length (m_shuffled_indices r)) in
  let start := base_offset + model_offset in
  0 < batch_stride → 0 ≤ start →
  start + (Z.of_nat k + 1) * batch_stride ≤ INT_MAX →
  (k = O ∨ start + Z.of_nat k * batch_stride < N) →
  N ≤ start + (Z.of_nat k + 1) * batch_stride →
  let '(r0, g0) :=
    setup rng std_shuffle base_offset batch_stride sample_stride model_offset
      has_comm ceil_num_data r g in
  let '(results, r', g') := updates rng std_shuffle (S k) r0 g0 in
  results = replicate k true ++ [false]
  ∧ m_current_pos r' = start
  ∧ m_current_mini_batch_idx r' = 0
  ∧ m_shuffled_indices r' ≡ₚ m_shuffled_indices r
  ∧ m_indices_fetched_per_mb r' = Zeros 1 1.
Proof.
  intros N start Hs Hstart Hmax Hin Hout. unfold setup.
  pose proof (shuffle_unless_first_n_perm rng std_shuffle std_shuffle_perm
                r g) as Hperm.
  destruct (shuffle_unless_first_n rng std_shuffle r g) as [sh g1].
  cbn [fst] in Hperm.
  assert (Z.of_nat (length sh) = N) as Hsh by (by rewrite Hperm).
  rewrite int_add_exact by (unfold in_int, INT_MIN, INT_MAX in *; nia).
  fold start. set (r0 := mk_reader _ _ _ _ _ _ _ _ _ _ _ _ _ _ _ _ _ _ _ _ _).
  replace (S k) with (k + 1)%nat by lia. rewrite updates_app.
  pose proof (updates_within k r0 g1) as Hk. cbn zeta in Hk.
  destruct (updates rng std_shuffle k r0 g1) as [[results1 r1] g2].
  destruct Hk as (-> & -> & Hplan & Hpos1 & Hidx1 & Hsh1 & Hf1);
    try done; cbn [r0 m_current_pos m_current_mini_batch_idx m_batch_stride
                   m_base_offset m_model_offset m_shuffled_indices];
    try lia; try (unfold in_int, INT_MIN, INT_MAX in *; nia);
    try (rewrite Hsh; destruct Hin as [?|?]; [by left | by right]).
  cbn [r0 m_current_pos m_current_mini_batch_idx m_batch_stride
       m_shuffled_indices m_indices_fetched_per_mb] in Hpos1, Hidx1, Hsh1, Hf1.
  destruct Hplan as (Hbs & Hst & Hlast & Hbase & Hmodel & Hfn & Hun).
  cbn [r0 m_batch_stride m_last_mini_batch_stride m_base_offset
       m_model_offset] in Hst, Hlast, Hbase, Hmodel.
  cbn [updates].
  pose proof (update_equal_strides r1 g1) as Hlast_call.
  rewrite Hst, Hlast, Hbase, Hmodel, Hsh1, Hpos1, Hidx1, Hsh in Hlast_call.
  destruct (update rng std_shuffle r1 g1) as [[more r2] g3].
  destruct Hlast_call as (_ & Hf2 & Hlast_call);
    try done; try (unfold in_int, INT_MIN, INT_MAX in *; nia).
  destruct (decide (start + Z.of_nat k * batch_stride + batch_stride < N))
    as [?|_]; [nia|].
  destruct Hlast_call as (-> & Hpos2 & Hidx2 & Hsh2).
  split; [done|]. split; [done|]. split; [done|]. split.
  { by rewrite Hsh2. }
  rewrite Hf2, Hf1. by destruct k.
Qed.

End epoch_facts.

(** 23 indices in strides of 10: two calls go on, the third ends the epoch *)
Lemma epoch_after_setup_witness :
  let r := mk_reader 10 0 0 0 0 0 false 0 3 0 0 3 0 (seqZ 0 23) []
             (Zeros 0 0) true 0 false (-1)%float (-1)%float in
  let '(r0, g0) := setup unit (λ l g, (reverse l, g)) 0 10 1 0 true 3 r tt in
  let '(results, r', g') := updates unit (λ l g, (reverse l, g)) 3 r0 g0 in
  results = [true; true; false]
  ∧ m_current_pos r' = 0
  ∧ m_current_mini_batch_idx r' = 0
  ∧ m_shuffled_indices r' ≡ₚ seqZ 0 23
  ∧ m_indices_fetched_per_mb r' = Zeros 1 1.
Proof.
  intros r.
  apply (epoch_after_setup unit (λ l g, (reverse l, g))
           (λ l g, reverse_Permutation l) 0 10 1 0 true 3 r tt 2);
    unfold INT_MAX; simpl; lia.
Defined.

(** *** The options *)

(** a [double] that is neither below 0 nor above 1 is not a number, or lies
    between 0 and 1; in both cases it is not -1 *)
Lemma double_not_outside_unit (s : float) :
  PrimFloat.ltb s 0 = false → PrimFloat.ltb 1 s = false →
  (PrimFloat.is_nan s = true
   ∨ (PrimFloat.leb 0 s = true ∧ PrimFloat.leb s 1 = true))
  ∧ PrimFloat.eqb s (-1) = false.
Proof.
  unfold PrimFloat.is_nan.
  rewrite !FloatAxioms.ltb_spec, !FloatAxioms.leb_spec, !FloatAxioms.eqb_spec.
  change (Prim2SF 0) with (S754_zero false).
  change (Prim2SF 1) with (S754_finite false 4503599627370496 (-52)).
  change (Prim2SF (-1)) with (S754_finite true 4503599627370496 (-52)).
  unfold SFltb, SFleb, SFeqb.
  destruct (Prim2SF s) as [sg|sg| |sg m e]; cbn [SFcompare].
  - destruct sg; cbn; auto.
  - destruct sg; cbn; try done; auto.
  - cbn; auto.
  - destruct sg; cbn [negb]; [done|]. intros _.
    rewrite (Z.compare_antisym (-52) e).
    destruct (-52 ?= e) eqn:He; cbn [CompOpp]; try done; auto.
    change (PosDef.Pos.compare_cont Eq m 4503599627370496)
      with (Pos.compare_cont (CompOpp Eq) m 4503599627370496).
    rewrite <- (Pos.compare_cont_antisym 4503599627370496 m Eq).
    destruct (Pos.compare_cont Eq 4503599627370496 m); cbn [CompOpp];
      try done; auto.
Qed.

(** X17.  The setters of the two percentages.  A value below 0 or above 1 makes
    them throw.  Every other value is stored, and is then told from the
    value -1 that stands for an option that was not set: the option counts
    as set, and [get_use_percent] returns the value without throwing.  The
    values that are stored are those between 0 and 1 and, since it is
    neither below 0 nor above 1, not-a-number. *)
Theorem set_percent_spec (s : float) (r : generic_data_reader) :
  match set_use_percent s r with
  | inl e =>
      e = use_percent_out_of_range s
      ∧ (PrimFloat.ltb s 0 = true ∨ PrimFloat.ltb 1 s = true)
  | inr r' =>
      (PrimFloat.is_nan s = true
       ∨ (PrimFloat.leb 0 s = true ∧ PrimFloat.leb s 1 = true))
      ∧ has_use_percent r' = true
      ∧ get_use_percent r' = Ret s
      ∧ m_shuffled_indices r' = m_shuffled_indices r
      ∧ get_validation_percent r' = get_validation_percent r
  end
  ∧ match set_validation_percent s r with
    | inl e =>
        e = validation_percent_out_of_range s
        ∧ (PrimFloat.ltb s 0 = true ∨ PrimFloat.ltb 1 s = true)
    | inr r' =>
        (PrimFloat.is_nan s = true
         ∨ (PrimFloat.leb 0 s = true ∧ PrimFloat.leb s 1 = true))
        ∧ has_validation_percent r' = true
        ∧ get_validation_percent r' = s
        ∧ m_shuffled_indices r' = m_shuffled_indices r
        ∧ m_use_percent r' = m_use_percent r
    end.
Proof.
  unfold set_use_percent, set_validation_percent, has_use_percent,
    get_use_percent, has_use_percent, has_validation_percent,
    get_validation_percent.
  destruct (PrimFloat.ltb s 0) eqn:Hlo; cbn [orb].
  { split; (split; [done|by left]). }
  destruct (PrimFloat.ltb 1 s) eqn:Hhi.
  { split; (split; [done|by right]). }
  destruct (double_not_outside_unit s Hlo Hhi) as [Hin Hne].
  cbn [m_use_percent m_validation_percent m_shuffled_indices].
  rewrite Hne. cbn [negb]. done.
Qed.

(** *** File names *)

(** X18.  What was set as the name of the data file, or of the label file, is
    what the getter returns, unless it is the empty string: the getter then
    throws, as it does for a name that was never set.  The three names do
    not touch one another. *)
Theorem file_name_round_trip (s : string) (n : file_names) :
  get_data_filename (set_data_filename s n)
  = (if decide (s = EmptyString) then inl data_filename_not_set else inr s)
  ∧ get_label_filename (set_label_filename s n)
    = (if decide (s = EmptyString) then inl label_filename_not_set else inr s)
  ∧ get_file_dir (set_file_dir s n) = s
  ∧ get_data_filename (set_label_filename s (set_file_dir s n))
    = get_data_filename n
  ∧ get_label_filename (set_data_filename s (set_file_dir s n))
    = get_label_filename n
  ∧ get_file_dir (set_data_filename s (set_label_filename s n))
    = get_file_dir n.
Proof.
  unfold get_data_filename, get_label_filename, get_file_dir,
    set_data_filename, set_label_filename, set_file_dir.
  cbn [m_data_fn m_label_fn m_file_dir].
  destruct (String.eqb_spec s EmptyString) as [->|Hne].
  - repeat case_decide; done.
  - repeat case_decide; done.
Qed.

(** *** Assignment *)

(** X19.  Assignment is not a copy of the whole reader.  The reader assigned
    to is equal to the source exactly when it had, before the assignment,
    the mini-batch index of the source, its number of mini-batches and of
    iterations per epoch, its matrix of fetched indices and its subset
    options: these eight members of the record are not assigned.  Assigning
    twice is assigning once. *)
Theorem assign_is_partial (this source : generic_data_reader) :
  (assign this source = source
   ↔ m_current_mini_batch_idx this = m_current_mini_batch_idx source
     ∧ m_num_mini_batches_per_reader this
       = m_num_mini_batches_per_reader source
     ∧ m_num_iterations_per_epoch this = m_num_iterations_per_epoch source
     ∧ m_indices_fetched_per_mb this = m_indices_fetched_per_mb source
     ∧ m_max_sample_count this = m_max_sample_count source
     ∧ m_max_sample_count_was_set this = m_max_sample_count_was_set source
     ∧ m_validation_percent this = m_validation_percent source
     ∧ m_use_percent this = m_use_percent source)
  ∧ assign (assign this source) source = assign this source.
Proof.
  split; [|done]. destruct this, source. unfold assign. cbn. split.
  - intros [= -> -> -> -> -> -> -> ->]. done.
  - intros (-> & -> & -> & -> & -> & -> & -> & ->). done.
Qed.

(** *** The first samples *)

Section first_n_facts.
Variable rng : Type.
Variable std_shuffle : list Z → rng → list Z * rng.

(** X21.  The first [n] samples.  After [set_firstN(true)] and
    [set_max_sample_count(n)], with [n] at most the number of indices and
    no validation percentage, [select_subset_of_data] returns and keeps
    the first [n] indices, in the order they had: nothing is shuffled,
    nothing is sorted, no random number is drawn, and the use percentage,
    set or not, plays no part. *)
Theorem first_n_keeps_a_prefix (r : generic_data_reader) (g : rng) (n : Z) :
  let N := Z.of_nat (length (m_shuffled_indices r)) in
  N ≤ INT_MAX → 0 ≤ n ≤ N →
  has_validation_percent r = false →
  let '(result, r', g') :=
    select_subset_of_data rng std_shuffle
      (set_max_sample_count n (set_firstN true r)) g in
  result = Ret tt ∧ g' = g
  ∧ m_shuffled_indices r' = take (Z.to_nat n) (m_shuffled_indices r)
  ∧ m_unused_indices r' = m_unused_indices r.
Proof.
  intros N HN Hn Hval. rewrite select_subset_of_data_unfold.
  unfold shuffle_unless_first_n, truncate_to_count, split_validation,
    has_max_sample_count, get_max_sample_count, getNumData,
    has_validation_percent, set_max_sample_count, set_firstN in *.
  reader_simpl. fold N.
  rewrite (to_uint64_id n) by (unfold INT_MAX in *; lia).
  rewrite (to_uint64_id n) by (unfold INT_MAX in *; lia).
  rewrite (to_int_id N) by (unfold in_int, INT_MIN, INT_MAX in *; lia).
  rewrite (to_uint64_id N) by (unfold INT_MAX in *; lia).
  destruct (Z.gtb_spec n N) as [?|_]; [lia|].
  reader_simpl. rewrite Hval. reader_simpl.
  repeat split; try done.
  unfold resize. replace (Z.to_nat n - length (m_shuffled_indices r))%nat
    with O by lia.
  cbn. by rewrite app_nil_r.
Qed.

End first_n_facts.

(** the first three of five indices *)
Lemma first_n_keeps_a_prefix_witness :
  let r := mk_reader 10 0 10 1 0 0 false 0 10 10 0 10 10 [4; 2; 0; 3; 1] []
             (Zeros 10 1) false 0 false (-1)%float 0.5%float in
  let '(result, r', g') :=
    select_subset_of_data unit (λ l g, (reverse l, g))
      (set_max_sample_count 3 (set_firstN true r)) tt in
  result = Ret tt ∧ g' = tt
  ∧ m_shuffled_indices r' = take (Z.to_nat 3) [4; 2; 0; 3; 1]
  ∧ m_unused_indices r' = [].
Proof.
  intros r.
  apply (first_n_keeps_a_prefix unit (λ l g, (reverse l, g)) r tt 3).
  - by vm_compute.
  - simpl. lia.
  - reflexivity.
Defined.

End Reader_facts.

(** ** The transform-aware allreduce *)

Module Allreduce_facts.
Import CInt CInt_facts Comm Comm_facts Allreduce.

(** *** Rounds of [mpi::SendRecv] *)

Section rounds.
Context {Buf S S1 S2 : Type}.
Variable max_recv_count : Z.
Variable before : Z → S → S1 * (Buf * Z * Z).
Variable src : Z → Z.
Variable after : Z → Buf → S1 → S2.

(** A round completes when every rank's source is a rank that addresses
    its message to it and keeps to the size of the receive buffer; each
    rank then holds what [after] makes of that message. *)
Lemma SendRecv_round_Some (w : list S) :
  (∀ (r : nat) st, w !! r = Some st →
     ∃ st_s, 0 ≤ src (Z.of_nat r)
       ∧ w !! Z.to_nat (src (Z.of_nat r)) = Some st_s
       ∧ (before (src (Z.of_nat r)) st_s).2.2 = Z.of_nat r
       ∧ (before (src (Z.of_nat r)) st_s).2.1.2 ≤ max_recv_count) →
  ∃ w', SendRecv_round max_recv_count before src after w = Some w'
    ∧ length w' = length w
    ∧ ∀ (r : nat) st st_s,
        w !! r = Some st → w !! Z.to_nat (src (Z.of_nat r)) = Some st_s →
        w' !! r = Some (after (Z.of_nat r)
                          (before (src (Z.of_nat r)) st_s).2.1.1
                          (before (Z.of_nat r) st).1).
Proof.
  intros Hok. unfold SendRecv_round.
  set (mid := imap (λ r st, before (Z.of_nat r) st) w).
  set (f := λ x : Z * (S1 * (Buf * Z * Z)), _).
  assert (∀ (r : nat) st st_s,
            w !! r = Some st → w !! Z.to_nat (src (Z.of_nat r)) = Some st_s →
            f (Z.of_nat r, before (Z.of_nat r) st)
            = Some (after (Z.of_nat r)
                      (before (src (Z.of_nat r)) st_s).2.1.1
                      (before (Z.of_nat r) st).1)) as Hf.
  { intros r st st_s Hr Hs.
    destruct (Hok r st Hr) as (st_s' & Hsrc & Hs' & Hdst & Hsize).
    assert (st_s' = st_s) as -> by congruence.
    unfold f. destruct (before (Z.of_nat r) st) as [s1 post] eqn:Hb.
    destruct (Z.leb_spec 0 (src (Z.of_nat r))); [|lia].
    unfold mid. rewrite list_lookup_imap, Hs. cbn [fmap option_fmap option_map].
    rewrite Z2Nat.id by done.
    destruct (before (src (Z.of_nat r)) st_s) as [s1' [[msg size] dst]].
    cbn [fst snd] in *. subst dst.
    rewrite Z.eqb_refl. destruct (Z.leb_spec size max_recv_count); [done|lia]. }
  assert (∃ w', mapM f (imap (λ r y, (Z.of_nat r, y)) mid) = Some w')
    as [w' Hw'].
  { apply mapM_is_Some. apply Forall_lookup_2. intros i [r x] Hi.
    apply list_lookup_imap_Some in Hi as (y & Hy & [= -> ->]).
    unfold mid in Hy.
    apply list_lookup_imap_Some in Hy as (st & Hst & ->).
    destruct (Hok i st Hst) as (st_s & _ & Hs & _).
    unfold compose. erewrite Hf by done. done. }
  exists w'. split; [done|].
  apply mapM_Some_1 in Hw'.
  pose proof (Forall2_length _ _ _ Hw') as Hlen.
  unfold mid in Hlen. rewrite !length_imap in Hlen.
  split; [done|].
  intros r st st_s Hr Hs.
  assert (imap (λ r y, (Z.of_nat r, y)) mid !! r
          = Some (Z.of_nat r, before (Z.of_nat r) st)) as Hx.
  { unfold mid. rewrite !list_lookup_imap, Hr. done. }
  destruct (Forall2_lookup_l _ _ _ _ _ Hw' Hx) as (y & Hy & Hfy).
  rewrite (Hf r st st_s Hr Hs) in Hfy. congruence.
Qed.

End rounds.

(** *** Matrices and their views *)

Section views.
Context {T : Type}.
Implicit Types m v : Mat T.

Lemma view_ALL m : view m ALL = m.
Proof.
  destruct m as [h cols]. unfold view, Width. cbn.
  by rewrite Nat2Z.id, firstn_all.
Qed.

Lemma Height_view m cols : Height (view m cols) = Height m.
Proof. done. Qed.

Lemma lookup_view m (lo hi : Z) (i : nat) :
  columns (view m (IR lo hi)) !! i
  = if decide (i < Z.to_nat (hi - lo))%nat
    then columns m !! (Z.to_nat lo + i)%nat else None.
Proof. unfold view. cbn. by rewrite lookup_take, lookup_drop. Qed.

Lemma Width_view m (lo hi : Z) :
  0 ≤ lo ≤ hi → hi ≤ Width m → Width (view m (IR lo hi)) = hi - lo.
Proof.
  unfold Width, view. cbn. intros ? ?.
  rewrite length_take, length_drop. lia.
Qed.

Lemma Height_write_view m cols v : Height (write_view m cols v) = Height m.
Proof. done. Qed.

Lemma length_write_view m cols v :
  length (columns (write_view m cols v)) = length (columns m).
Proof. unfold write_view. cbn. by rewrite length_imap. Qed.

(** column [j] of the matrix after a write through the view of
    [IR(lo, hi)] that fills the view *)
Lemma lookup_write_view m (lo hi : Z) v (j : nat) :
  0 ≤ lo ≤ hi → (Z.to_nat (hi - lo) ≤ length (columns v))%nat →
  (j < length (columns m))%nat →
  columns (write_view m (IR lo hi) v) !! j
  = if decide (lo ≤ Z.of_nat j < hi)
    then columns v !! (j - Z.to_nat lo)%nat else columns m !! j.
Proof.
  intros Hlo Hv Hj. unfold write_view. cbn. rewrite list_lookup_imap.
  destruct (lookup_lt_is_Some_2 _ _ Hj) as [c Hc]. rewrite Hc. cbn.
  case_decide as Hin.
  - destruct (Z.leb_spec 0 (Z.of_nat j - lo)); [|lia].
    destruct (Z.ltb_spec (Z.of_nat j - lo) (hi - lo)); [|lia]. cbn.
    replace (Z.to_nat (Z.of_nat j - lo)) with (j - Z.to_nat lo)%nat by lia.
    destruct (lookup_lt_is_Some_2 (columns v) (j - Z.to_nat lo)) as [c' Hc'];
      [lia|].
    by rewrite Hc'.
  - destruct (Z.leb_spec 0 (Z.of_nat j - lo)); [|done].
    destruct (Z.ltb_spec (Z.of_nat j - lo) (hi - lo)); [lia|done].
Qed.

End views.

(** *** Sums of columns *)

Section column_sums.
Context {T : Type}.
Variable add : T → T → T.
Hypothesis add_assoc : ∀ x y z, add x (add y z) = add (add x y) z.
Hypothesis add_comm : ∀ x y, add x y = add y x.

(** the sum of two columns, entry by entry *)
Local Abbreviation cadd := (zip_with add).

Lemma cadd_assoc (a b c : list T) : cadd a (cadd b c) = cadd (cadd a b) c.
Proof.
  revert b c. induction a as [|x a IH]; intros [|y b] [|z c]; cbn; try done.
  by rewrite add_assoc, IH.
Qed.

Lemma cadd_comm (a b : list T) : cadd a b = cadd b a.
Proof.
  revert b. induction a as [|x a IH]; intros [|y b]; cbn; try done.
  by rewrite add_comm, IH.
Qed.

Lemma foldl_cadd_assoc (x y : list T) (l : list (list T)) :
  foldl cadd (cadd x y) l = cadd x (foldl cadd y l).
Proof.
  revert y. induction l as [|z l IH]; intros y; cbn; [done|].
  by rewrite <- cadd_assoc, IH.
Qed.

(** the sum of [f a], [f (a + 1)], ..., [f (a + n - 1)], from the left *)
Local Abbreviation range_sum f a n :=
  (foldl cadd (f a%Z) (f <$> seqZ (a + 1) (n - 1)))%function.

Lemma range_sum_one (f : Z → list T) (a : Z) : range_sum f a 1 = f a.
Proof. done. Qed.

Lemma range_sum_snoc (f : Z → list T) (a n : Z) :
  1 ≤ n → range_sum f a (n + 1) = cadd (range_sum f a n) (f (a + n)).
Proof.
  intros Hn. replace (n + 1 - 1) with ((n - 1) + 1) by lia.
  rewrite seqZ_app by lia. rewrite fmap_app, foldl_app.
  rewrite (seqZ_cons _ 1), (seqZ_nil _ (Z.pred 1)) by lia. cbn.
  do 2 f_equal. lia.
Qed.

Lemma range_sum_app (f : Z → list T) (a n m : Z) :
  1 ≤ n → 1 ≤ m →
  range_sum f a (n + m)
  = cadd (range_sum f a n) (range_sum f (a + n) m).
Proof.
  intros Hn Hm. replace (n + m - 1) with ((n - 1) + m) by lia.
  rewrite seqZ_app by lia. rewrite fmap_app, foldl_app.
  replace (a + 1 + (n - 1)) with (a + n) by lia.
  rewrite (seqZ_cons (a + n)) by lia. cbn.
  rewrite foldl_cadd_assoc. do 4 f_equal; lia.
Qed.

(** summing downwards from [a] gives the sum of the same range *)
Lemma range_sum_down (f : Z → list T) (a : Z) (n : nat) :
  foldl cadd (f a) ((λ t, f (a - t)) <$> seqZ 1 (Z.of_nat n))
  = range_sum f (a - Z.of_nat n) (Z.of_nat n + 1).
Proof.
  induction n as [|n IH].
  { cbn. by rewrite Z.sub_0_r. }
  rewrite seqZ_S, fmap_app, foldl_app, IH. cbn [fmap list_fmap foldl].
  rewrite cadd_comm.
  replace (Z.of_nat (S n) + 1) with (1 + (Z.of_nat n + 1)) by lia.
  rewrite (range_sum_app f (a - Z.of_nat (S n)) 1 (Z.of_nat n + 1)) by lia.
  cbn [fmap list_fmap foldl seqZ].
  replace (a - Z.of_nat (S n) + 1) with (a - Z.of_nat n) by lia.
  change (1 - 1) with 0. rewrite (seqZ_nil _ 0) by lia.
  cbn [fmap list_fmap foldl]. do 2 f_equal. lia.
Qed.

Lemma range_sum_down_Z (f : Z → list T) (a n : Z) :
  0 ≤ n →
  foldl cadd (f a) ((λ t, f (a - t)) <$> seqZ 1 n)
  = range_sum f (a - n) (n + 1).
Proof.
  intros Hn. rewrite <- (Z2Nat.id n) by done. apply range_sum_down.
Qed.

Lemma fmap_seqZ_shift {A} (f : Z → A) (m k n : Z) :
  f <$> seqZ (m + k) n = (λ t, f (t + k)) <$> seqZ m n.
Proof.
  rewrite (Z.add_comm m k), <- fmap_add_seqZ, <- list_fmap_compose.
  apply list_fmap_ext. intros i t _. cbn. f_equal. lia.
Qed.

(** adding, one after the other, [f (a - 1)], ..., [f (a - n)] to [x] *)
Lemma foldl_down (f : Z → list T) (x : list T) (a n : Z) :
  1 ≤ n →
  foldl cadd x ((λ t, f (a - t)) <$> seqZ 1 n)
  = cadd x (range_sum f (a - n) n).
Proof.
  intros Hn. rewrite seqZ_cons by lia. cbn [fmap list_fmap foldl].
  rewrite foldl_cadd_assoc. f_equal.
  change (Z.succ 1) with (1 + 1).
  rewrite (fmap_seqZ_shift (λ t, f (a - t))).
  assert ((λ t, f (a - (t + 1))) <$> seqZ 1 (Z.pred n)
          = (λ t, f (a - 1 - t)) <$> seqZ 1 (Z.pred n)) as ->.
  { apply list_fmap_ext. intros i t _. f_equal. lia. }
  rewrite (range_sum_down_Z f (a - 1)) by lia.
  replace (a - 1 - Z.pred n) with (a - n) by lia.
  by replace (Z.pred n + 1) with n by lia.
Qed.

End column_sums.

(** *** Arithmetic of the recursive-doubling partners *)

Lemma lxor_pow2 (r k : Z) :
  0 ≤ r → 0 ≤ k →
  Z.lxor r (2 ^ k) = if Z.testbit r k then r - 2 ^ k else r + 2 ^ k.
Proof.
  assert (∀ r, 0 ≤ r → 0 ≤ k → Z.testbit r k = false →
               Z.lxor r (2 ^ k) = r + 2 ^ k) as Hclear.
  { intros r' Hr Hk Hbit. symmetry. apply Z.add_nocarry_lxor.
    apply Z.bits_inj'. intros i Hi.
    rewrite Z.land_spec, Z.bits_0, Z.pow2_bits_eqb by done.
    destruct (Z.eqb_spec k i) as [->|]; [by rewrite Hbit|].
    apply andb_false_r. }
  intros Hr Hk. destruct (Z.testbit r k) eqn:Hbit; [|by apply Hclear].
  assert (Z.lxor (Z.lxor r (2 ^ k)) (2 ^ k) = Z.lxor r (2 ^ k) + 2 ^ k) as Heq.
  { apply Hclear; [by apply Z.lxor_nonneg; lia | done |].
    rewrite Z.lxor_spec, Hbit, Z.pow2_bits_eqb, Z.eqb_refl by done. done. }
  rewrite Z.lxor_assoc, Z.lxor_nilpotent, Z.lxor_0_r in Heq. lia.
Qed.

Lemma mod_pow2_succ (r k : Z) :
  0 ≤ k →
  r mod 2 ^ (k + 1)
  = r mod 2 ^ k + (if Z.testbit r k then 2 ^ k else 0).
Proof.
  intros Hk. rewrite Z.pow_add_r, Z.pow_1_r by lia.
  pose proof (Z.pow_pos_nonneg 2 k).
  rewrite Z.rem_mul_r by lia.
  destruct (Z.testbit r k) eqn:Hbit.
  - apply Z.testbit_true in Hbit; [|done]. rewrite Hbit. lia.
  - apply Z.testbit_false in Hbit; [|done]. rewrite Hbit. lia.
Qed.

Lemma lxor_pow2_lt (r k n : Z) :
  0 ≤ r < 2 ^ n → 0 ≤ k < n → 0 ≤ Z.lxor r (2 ^ k) < 2 ^ n.
Proof.
  intros Hr Hk. rewrite lxor_pow2 by lia.
  pose proof (mod_pow2_succ r k ltac:(lia)) as Hmod.
  assert (0 < 2 ^ k) as Hpk by (apply Z.pow_pos_nonneg; lia).
  pose proof (Z.mod_pos_bound r (2 ^ k) Hpk) as Hu.
  assert (0 < 2 ^ (k + 1)) as Hpos by (apply Z.pow_pos_nonneg; lia).
  assert (r mod 2 ^ (k + 1) ≤ r) as Hle by (apply Z.mod_le; lia).
  assert (2 ^ (k + 1) = 2 * 2 ^ k) as Hk1
    by (rewrite Z.pow_add_r, Z.pow_1_r; lia).
  assert (0 < 2 ^ (n - k - 1)) as HB by (apply Z.pow_pos_nonneg; lia).
  assert (2 ^ n = 2 ^ (k + 1) * 2 ^ (n - k - 1)) as Hn.
  { rewrite <- Z.pow_add_r by lia. f_equal. lia. }
  pose proof (Z.div_mod r (2 ^ (k + 1)) ltac:(lia)) as Hdiv.
  revert Hmod Hu Hle Hdiv.
  generalize (r mod 2 ^ (k + 1)) (r mod 2 ^ k) (r / 2 ^ (k + 1)).
  intros v u q Hmod Hu Hle Hdiv.
  rewrite Hn, Hk1 in *. clear Hn Hk1.
  revert Hr Hpk HB Hmod Hu Hle Hdiv.
  generalize (2 ^ k) (2 ^ (n - k - 1)). intros A B Hr HA HB Hmod Hu Hle Hdiv.
  destruct (Z.testbit r k); [lia|].
  assert (q < B) by nia.
  nia.
Qed.

(** *** Arithmetic of the ring neighbours *)

Section ring_ranks.
Variable P : Z.
Hypothesis P_range : 1 ≤ P ≤ 2 ^ 30.

Lemma mod_back (r t : Z) :
  0 ≤ r < P → 0 ≤ t ≤ P →
  (r - t) mod P = if t <=? r then r - t else r - t + P.
Proof.
  intros Hr Ht. destruct (Z.leb_spec t r).
  - apply Z.mod_small. lia.
  - rewrite <- (Z_mod_plus_full (r - t) 1 P).
    rewrite Z.mod_small by lia. lia.
Qed.

Lemma mod_back_range (r t : Z) : 0 ≤ (r - t) mod P < P.
Proof. apply Z.mod_pos_bound. lia. Qed.

Lemma mod_back_back (r t : Z) :
  0 ≤ r < P → ((r - t) mod P + t) mod P = r.
Proof.
  intros Hr. rewrite Zplus_mod_idemp_l.
  replace (r - t + t) with r by lia. apply Z.mod_small. lia.
Qed.

Lemma mod_back_add (r t u : Z) :
  ((r - t) mod P - u) mod P = (r - (t + u)) mod P.
Proof. rewrite Zminus_mod_idemp_l. f_equal. lia. Qed.

Lemma mod_back_owner (r o : Z) :
  0 ≤ o < P → (r - (r - o) mod P) mod P = o.
Proof.
  intros Ho. rewrite Zminus_mod_idemp_r.
  replace (r - (r - o)) with o by lia. apply Z.mod_small. lia.
Qed.

Lemma mod_back_ne (r t : Z) :
  0 ≤ r < P → 0 < t < P → (r - t) mod P ≠ r.
Proof.
  intros Hr Ht. rewrite mod_back by lia. destruct (t <=? r); lia.
Qed.

(** the sources and destinations the code computes, in [int] arithmetic *)
Lemma rs_src_spec (step rank : Z) :
  0 ≤ rank < P → 0 ≤ step ≤ P →
  rs_src P step rank = (rank - step) mod P.
Proof.
  intros Hr Hs. unfold rs_src, int_rem.
  rewrite int_sub_exact, int_add_exact
    by (unfold in_int, INT_MIN, INT_MAX; lia).
  rewrite Z.rem_mod_nonneg by lia.
  replace (rank - step + P) with (rank - step + 1 * P) by lia.
  apply Z_mod_plus_full.
Qed.

Lemma ring_src_spec (rank : Z) :
  0 ≤ rank < P → ring_src P rank = (rank - 1) mod P.
Proof. intros Hr. apply (rs_src_spec 1 rank); lia. Qed.

Lemma dst_spec (step rank : Z) :
  0 ≤ rank < P → 0 ≤ step < P →
  int_rem (int_add rank step) P = (rank + step) mod P.
Proof.
  intros Hr Hs. unfold int_rem.
  rewrite int_add_exact by (unfold in_int, INT_MIN, INT_MAX; lia).
  apply Z.rem_mod_nonneg; lia.
Qed.

Lemma ring_dst_spec (rank : Z) :
  0 ≤ rank < P → ring_dst P rank = (rank + 1) mod P.
Proof.
  intros Hr. unfold ring_dst, int_rem.
  rewrite int_add_exact by (unfold in_int, INT_MIN, INT_MAX; lia).
  apply Z.rem_mod_nonneg; lia.
Qed.

Lemma data_src_spec (step rank : Z) :
  0 ≤ rank < P → 0 ≤ step < P →
  int_rem (int_add (int_sub (int_sub rank step) 1) P) P
  = (rank - (step + 1)) mod P.
Proof.
  intros Hr Hs. unfold int_rem.
  rewrite (int_sub_exact rank step), int_sub_exact, int_add_exact
    by (unfold in_int, INT_MIN, INT_MAX; lia).
  rewrite Z.rem_mod_nonneg by lia.
  replace (rank - step - 1 + P) with (rank - (step + 1) + 1 * P) by lia.
  apply Z_mod_plus_full.
Qed.

End ring_ranks.

(** *** The slices of the pairwise-exchange ring *)

Section slices.
Variable W P : Z.
Hypothesis W_nonneg : 0 ≤ W.
Hypothesis P_pos : 1 ≤ P.

(** where slice [i] starts: [i] times the quotient, plus one for each
    earlier slice that takes a column of the remainder *)
Local Abbreviation slice_start i := (W / P * i%Z + Z.min i (W mod P)).

Lemma slice_lengths_spec :
  length (slice_lengths W P) = Z.to_nat P
  ∧ ∀ i : nat, (i < Z.to_nat P)%nat →
      slice_lengths W P !! i
      = Some (W / P + (if Z.of_nat i <? W mod P then 1 else 0)).
Proof.
  unfold slice_lengths.
  rewrite Z.quot_div_nonneg, Z.rem_mod_nonneg by lia.
  pose proof (Z.mod_pos_bound W P ltac:(lia)) as Hrem.
  revert Hrem. generalize (W mod P). intros rem Hrem.
  replace rem with (Z.of_nat (Z.to_nat rem)) by lia.
  assert (Z.to_nat rem ≤ Z.to_nat P)%nat as Hk by lia.
  revert Hk. generalize (Z.to_nat rem). clear rem Hrem. intros k Hk.
  induction k as [|k IH].
  - rewrite seqZ_nil by lia. cbn [foldl].
    split; [by rewrite length_replicate|]. intros i Hi.
    rewrite lookup_replicate_2 by done.
    destruct (Z.ltb_spec (Z.of_nat i) (Z.of_nat 0)); [lia|].
    by rewrite Z.add_0_r.
  - destruct IH as [IHlen IH]; [lia|].
    rewrite seqZ_S, foldl_app. cbn [foldl]. rewrite Z.add_0_l, Nat2Z.id.
    split; [by rewrite length_insert|]. intros i Hi.
    destruct (decide (i = k)) as [->|Hne].
    + rewrite list_lookup_insert_eq by lia.
      pose proof (IH k ltac:(lia)) as Hkk.
      apply list_lookup_total_correct in Hkk. rewrite Hkk.
      destruct (Z.ltb_spec (Z.of_nat k) (Z.of_nat k)); [lia|].
      destruct (Z.ltb_spec (Z.of_nat k) (Z.of_nat (S k))); [|lia].
      f_equal. lia.
    + rewrite list_lookup_insert_ne by done. rewrite IH by done.
      destruct (Z.ltb_spec (Z.of_nat i) (Z.of_nat k));
        destruct (Z.ltb_spec (Z.of_nat i) (Z.of_nat (S k))); done || lia.
Qed.

Lemma lookup_partial_sum_from (c : nat → Z) (l : list Z) (acc : Z) :
  acc = c O →
  (∀ i x, l !! i = Some x → x = c (S i) - c i) →
  ∀ i, (i < length l)%nat → partial_sum_from acc l !! i = Some (c (S i)).
Proof.
  revert c acc. induction l as [|x l IH]; intros c acc Hacc Hl i Hi;
    cbn in *; [lia|].
  pose proof (Hl O x eq_refl) as Hx.
  destruct i as [|i]; cbn.
  - f_equal. lia.
  - apply (IH (λ i, c (S i))); [lia| |lia].
    intros i' x' Hi'. apply (Hl (S i') x' Hi').
Qed.

Lemma slice_ends_spec (i : nat) :
  (i < Z.to_nat P)%nat →
  slice_ends W P !! i = Some (slice_start (Z.of_nat (S i))).
Proof.
  intros Hi. destruct slice_lengths_spec as [Hlen Hl].
  pose proof (Z.mod_pos_bound W P ltac:(lia)) as Hrem.
  unfold slice_ends.
  apply (lookup_partial_sum_from (λ i, slice_start (Z.of_nat i)));
    [change (Z.of_nat 0) with 0; lia| |lia].
  intros i' x Hi'. pose proof (lookup_lt_Some _ _ _ Hi') as Hlt.
  rewrite Hl in Hi' by lia. injection Hi' as <-.
  destruct (Z.ltb_spec (Z.of_nat i') (W mod P)); lia.
Qed.

Lemma slice_hi_spec (i : Z) :
  0 ≤ i < P → slice_hi W P i = slice_start (i + 1).
Proof.
  intros Hi. unfold slice_hi.
  pose proof (slice_ends_spec (Z.to_nat i) ltac:(lia)) as Hend.
  apply list_lookup_total_correct in Hend. rewrite Hend.
  replace (Z.of_nat (S (Z.to_nat i))) with (i + 1) by lia. done.
Qed.

Lemma slice_lo_spec (i : Z) :
  0 ≤ i < P → slice_lo W P i = slice_start i.
Proof.
  intros Hi. unfold slice_lo. fold (slice_hi W P i).
  rewrite slice_hi_spec by done.
  destruct slice_lengths_spec as [_ Hl].
  pose proof (Hl (Z.to_nat i) ltac:(lia)) as Hli.
  apply list_lookup_total_correct in Hli. rewrite Hli.
  rewrite Z2Nat.id by lia.
  destruct (Z.ltb_spec i (W mod P)); lia.
Qed.

(** the slices are intervals of [0, W), in the order of the ranks *)
Lemma slice_bounds (i : Z) :
  0 ≤ i < P → 0 ≤ slice_lo W P i ≤ slice_hi W P i ∧ slice_hi W P i ≤ W.
Proof.
  intros Hi. rewrite slice_lo_spec, slice_hi_spec by done.
  pose proof (Z.mod_pos_bound W P ltac:(lia)) as Hrem.
  pose proof (Z.div_mod W P ltac:(lia)) as Hdiv.
  assert (0 ≤ W / P) as Hq by (apply Z.div_pos; lia).
  revert Hrem Hdiv Hq. generalize (W / P) (W mod P). intros q rem ? ? ?.
  nia.
Qed.

Lemma slice_ordered (i i' : Z) :
  0 ≤ i < i' → i' < P → slice_hi W P i ≤ slice_lo W P i'.
Proof.
  intros Hi Hi'. rewrite slice_lo_spec, slice_hi_spec by lia.
  assert (0 ≤ W / P) as Hq by (apply Z.div_pos; lia).
  revert Hq. generalize (W / P) (W mod P). intros q rem ?.
  nia.
Qed.

(** every column lies in the slice of some rank *)
Lemma slice_cover (j : Z) :
  0 ≤ j < W → ∃ o, 0 ≤ o < P ∧ slice_lo W P o ≤ j < slice_hi W P o.
Proof.
  intros Hj.
  assert (∀ n : nat, Z.of_nat n ≤ P → j < slice_start (Z.of_nat n) →
            ∃ o, 0 ≤ o < Z.of_nat n
                 ∧ slice_start o ≤ j < slice_start (o + 1)) as Hfind.
  { induction n as [|n IH]; intros Hn Hlt; [cbn in Hlt; lia|].
    destruct (Z.lt_ge_cases j (slice_start (Z.of_nat n))) as [Hlt'|Hge].
    - destruct (IH ltac:(lia) Hlt') as (o & Ho & Hin). exists o.
      split; [lia|done].
    - exists (Z.of_nat n). split; [lia|].
      replace (Z.of_nat n + 1) with (Z.of_nat (S n)) by lia. done. }
  destruct (Hfind (Z.to_nat P)) as (o & Ho & Hin); [lia| |].
  { rewrite Z2Nat.id by lia.
    pose proof (Z.mod_pos_bound W P ltac:(lia)) as Hrem.
    pose proof (Z.div_mod W P ltac:(lia)) as Hdiv.
    revert Hrem Hdiv. generalize (W / P) (W mod P). intros q rem ? ?.
    nia. }
  exists o. rewrite slice_lo_spec, slice_hi_spec by lia. split; [lia|done].
Qed.

End slices.

(** *** Worlds of ranks that hold sums *)

Section sum_allreduce.
Context {T : Type}.
Variable add : T → T → T.
Hypothesis add_assoc : ∀ x y z, add x (add y z) = add (add x y) z.
Hypothesis add_comm : ∀ x y, add x y = add y x.

Variable sizeof_DataType : Z.
Variable max_recv_count : Z.

(** the common shape of the matrices and the number of ranks *)
Variable H : Z.
Variable Wn : nat.
Variable Pn : nat.

Hypothesis sizeof_nonneg : 0 ≤ sizeof_DataType.
Hypothesis H_nonneg : 0 ≤ H.
Hypothesis max_recv_count_fits :
  sizeof_DataType * H * Z.of_nat Wn ≤ max_recv_count.

Local Abbreviation cadd := (zip_with add).
Local Abbreviation tr := (sum_transforms add sizeof_DataType).
Local Abbreviation range_sum f a n :=
  (foldl cadd (f a%Z) (f <$> seqZ (a + 1) (n - 1)))%function.

(** every rank [r] holds a matrix of the common shape whose column [j] is
    [F r j] *)
Local Abbreviation is_world w F :=
  (length w = Pn
   ∧ ∀ (r : nat) (st : proc T), w%list !! r = Some st →
       Height (p_mat st) = H
       ∧ length (columns (p_mat st)) = Wn
       ∧ ∀ j : nat, (j < Wn)%nat →
           columns (p_mat st) !! j = Some (F (Z.of_nat r) j)).

Lemma is_world_ext (w : list (proc T)) (F G : Z → nat → list T) :
  (∀ r j, 0 ≤ r < Z.of_nat Pn → (j < Wn)%nat → F r j = G r j) →
  is_world w F → is_world w G.
Proof.
  intros HFG [Hlen Hw]. split; [done|]. intros r st Hr.
  destruct (Hw r st Hr) as (Hh & Hwd & Hcols). split; [done|]. split; [done|].
  intros j Hj. rewrite Hcols by done. f_equal. apply HFG; [|done].
  apply lookup_lt_Some in Hr. lia.
Qed.

Lemma encoded_size_fits (m : Mat T) :
  Height m = H → Width m ≤ Z.of_nat Wn →
  encoded_size sizeof_DataType m ≤ max_recv_count.
Proof.
  intros Hh Hw. unfold encoded_size. rewrite Hh.
  pose proof (Z.mul_nonneg_nonneg _ _ sizeof_nonneg H_nonneg).
  assert (0 ≤ Width m) by (unfold Width; lia). nia.
Qed.

Lemma lookup_mat_add (a b : Mat T) (j : nat) (x y : list T) :
  columns a !! j = Some x → columns b !! j = Some y →
  columns (mat_add add a b) !! j = Some (cadd x y).
Proof.
  intros Ha Hb. unfold mat_add. cbn. by rewrite lookup_zip_with, Ha, Hb.
Qed.

(** *** Recursive doubling *)

Lemma rd_before_sum (mask rank : Z) (st : proc T) :
  rd_before tr mask rank st
  = (mk_proc (add_bytes_sent (encoded_size sizeof_DataType (p_mat st))
                (p_comm st)) (p_mat st),
     (p_mat st, encoded_size sizeof_DataType (p_mat st), Z.lxor rank mask)).
Proof.
  unfold rd_before. cbn [send_transform sum_transforms row_slice].
  by rewrite view_ALL.
Qed.

Lemma rd_after_sum (rank : Z) (buf : Mat T) (st : proc T) :
  p_mat (rd_after tr rank buf st) = mat_add add (p_mat st) buf.
Proof. done. Qed.

(** one round: every rank adds the matrix of its partner to its own *)
Lemma rd_round_world (mask : Z) (w : list (proc T)) (F : Z → nat → list T) :
  (∀ r, 0 ≤ r < Z.of_nat Pn → 0 ≤ Z.lxor r mask < Z.of_nat Pn) →
  is_world w F →
  ∃ w', SendRecv_round max_recv_count (rd_before tr mask)
          (λ rank, Z.lxor rank mask) (rd_after tr) w = Some w'
        ∧ is_world w' (λ r j, cadd (F r j) (F (Z.lxor r mask) j)).
Proof.
  intros Hpartner [Hlen Hw].
  assert (∀ r : nat, (r < Pn)%nat →
            ∃ st_s, w !! Z.to_nat (Z.lxor (Z.of_nat r) mask) = Some st_s)
    as Hsrc.
  { intros r Hr. apply lookup_lt_is_Some_2.
    specialize (Hpartner (Z.of_nat r)). lia. }
  destruct (SendRecv_round_Some max_recv_count (rd_before tr mask)
              (λ rank, Z.lxor rank mask) (rd_after tr) w)
    as (w' & Hrun & Hlen' & Hw').
  { intros r st Hr. pose proof (lookup_lt_Some _ _ _ Hr) as Hlt.
    destruct (Hsrc r) as [st_s Hs]; [lia|]. exists st_s.
    specialize (Hpartner (Z.of_nat r)).
    split; [lia|]. split; [done|].
    rewrite rd_before_sum. cbn [fst snd]. split.
    - by rewrite Z.lxor_assoc, Z.lxor_nilpotent, Z.lxor_0_r.
    - destruct (Hw _ _ Hs) as (Hh & Hwd & _).
      apply encoded_size_fits; [done|]. unfold Width. lia. }
  exists w'. split; [done|]. split; [lia|].
  intros r st' Hr'. pose proof (lookup_lt_Some _ _ _ Hr') as Hlt.
  destruct (lookup_lt_is_Some_2 w r) as [st Hr]; [lia|].
  destruct (Hsrc r) as [st_s Hs]; [lia|].
  rewrite (Hw' r st st_s Hr Hs), !rd_before_sum in Hr'.
  cbn [fst snd] in Hr'. injection Hr' as <-.
  rewrite rd_after_sum. cbn [p_mat].
  destruct (Hw _ _ Hr) as (Hh & Hwd & Hcols).
  destruct (Hw _ _ Hs) as (Hh' & Hwd' & Hcols').
  split; [done|]. split.
  { unfold mat_add. cbn. rewrite length_zip_with. lia. }
  intros j Hj. apply lookup_mat_add; [by apply Hcols|].
  rewrite Hcols' by done. do 2 f_equal.
  specialize (Hpartner (Z.of_nat r)). lia.
Qed.

(** the blocks of two partners make up the block of the next round *)
Lemma rd_step_sum (f : Z → list T) (r k : Z) :
  0 ≤ r → 0 ≤ k →
  cadd (range_sum f (r - r mod 2 ^ k) (2 ^ k))
    (range_sum f (Z.lxor r (2 ^ k) - Z.lxor r (2 ^ k) mod 2 ^ k) (2 ^ k))
  = range_sum f (r - r mod 2 ^ (k + 1)) (2 ^ (k + 1)).
Proof.
  intros Hr Hk. rewrite lxor_pow2, mod_pow2_succ by done.
  assert (0 < 2 ^ k) as Hpk by (apply Z.pow_pos_nonneg; lia).
  assert (2 ^ (k + 1) = 2 ^ k + 2 ^ k) as ->
    by (rewrite Z.pow_add_r, Z.pow_1_r; lia).
  set (u := r mod 2 ^ k).
  destruct (Z.testbit r k).
  - replace ((r - 2 ^ k) mod 2 ^ k) with u.
    2:{ replace (r - 2 ^ k) with (r + (-1) * 2 ^ k) by lia.
        by rewrite Z_mod_plus_full. }
    rewrite (cadd_comm add add_comm).
    replace (r - (u + 2 ^ k)) with (r - 2 ^ k - u) by lia.
    replace (r - u) with (r - 2 ^ k - u + 2 ^ k) by lia.
    by rewrite (range_sum_app add add_assoc f _ (2 ^ k) (2 ^ k)) by lia.
  - replace ((r + 2 ^ k) mod 2 ^ k) with u.
    2:{ replace (r + 2 ^ k) with (r + 1 * 2 ^ k) by lia.
        by rewrite Z_mod_plus_full. }
    replace (r - (u + 0)) with (r - u) by lia.
    replace (r + 2 ^ k - u) with (r - u + 2 ^ k) by lia.
    by rewrite (range_sum_app add add_assoc f _ (2 ^ k) (2 ^ k)) by lia.
Qed.

(** the rounds that remain when the mask is [2 ^ k] *)
Lemma rd_loop_world (f : nat → Z → list T) (n : Z) (m : nat) :
  Z.of_nat Pn = 2 ^ n → n ≤ 30 →
  ∀ (k : Z) (fuel : nat) (w : list (proc T)),
    0 ≤ k → k + Z.of_nat m = n → (m ≤ fuel)%nat →
    is_world w (λ r j, range_sum (f j) (r - r mod 2 ^ k) (2 ^ k)) →
    ∃ w', rd_loop tr fuel max_recv_count (Z.of_nat Pn) (2 ^ k) w = Some w'
          ∧ is_world w' (λ r j, range_sum (f j) 0 (Z.of_nat Pn)).
Proof.
  intros HP Hn.
  assert (to_uint32 (Z.of_nat Pn) = Z.of_nat Pn) as HP32.
  { unfold to_uint32. apply Z.mod_small. rewrite HP. split.
    - apply Z.pow_nonneg. lia.
    - apply Z.pow_lt_mono_r; lia. }
  induction m as [|m IH]; intros k fuel w Hk Hkm Hfuel Hw.
  - assert (k = n) as -> by lia. exists w. split.
    + destruct fuel; cbn; rewrite HP32, HP, Z.ltb_irrefl; done.
    + refine (is_world_ext w
                (λ r j, range_sum (f j) (r - r mod 2 ^ n) (2 ^ n))
                (λ r j, range_sum (f j) 0 (Z.of_nat Pn)) _ Hw).
      intros r j Hr Hj.
      rewrite <- HP. rewrite Z.mod_small by lia. by rewrite Z.sub_diag.
  - destruct fuel as [|fuel]; [lia|].
    assert (2 ^ k < 2 ^ n) as Hlt by (apply Z.pow_lt_mono_r; lia).
    destruct (rd_round_world (2 ^ k) w
                (λ r j, range_sum (f j) (r - r mod 2 ^ k) (2 ^ k)))
      as (w1 & Hrun & Hw1); [|exact Hw|].
    { intros r Hr. rewrite HP in *. apply lxor_pow2_lt; lia. }
    cbn [rd_loop]. rewrite HP32, HP.
    destruct (Z.ltb_spec (2 ^ k) (2 ^ n)); [|lia]. cbn [negb].
    rewrite <- HP, Hrun.
    assert (to_uint32 (Z.shiftl (2 ^ k) 1) = 2 ^ (k + 1)) as ->.
    { rewrite Z.shiftl_mul_pow2, <- Z.pow_add_r by lia.
      unfold to_uint32. apply Z.mod_small. split.
      - apply Z.pow_nonneg. lia.
      - apply Z.pow_lt_mono_r; lia. }
    apply IH; [lia|lia|lia|].
    refine (is_world_ext w1
              (λ r j, cadd (range_sum (f j) (r - r mod 2 ^ k) (2 ^ k))
                        (range_sum (f j)
                           (Z.lxor r (2 ^ k) - Z.lxor r (2 ^ k) mod 2 ^ k)
                           (2 ^ k)))
              (λ r j, range_sum (f j) (r - r mod 2 ^ (k + 1)) (2 ^ (k + 1)))
              _ Hw1).
    intros r j Hr Hj. apply rd_step_sum; lia.
Qed.

(** *** Pairwise exchange: the reduce-scatter *)

Hypothesis P_range : 1 ≤ Z.of_nat Pn ≤ 2 ^ 30.

Local Abbreviation W := (Z.of_nat Wn).
Local Abbreviation P := (Z.of_nat Pn).
Local Abbreviation in_slice o j :=
  (slice_lo W P o%Z ≤ Z.of_nat j%nat < slice_hi W P o%Z).

Lemma W_nonneg_ : 0 ≤ W.
Proof. lia. Qed.

Lemma P_pos_ : 1 ≤ P.
Proof. lia. Qed.

Lemma in_slice_unique (o o' : Z) (j : nat) :
  0 ≤ o < P → 0 ≤ o' < P → in_slice o j → in_slice o' j → o = o'.
Proof.
  intros Ho Ho' Hin Hin'. pose proof W_nonneg_. pose proof P_pos_.
  destruct (Z.lt_trichotomy o o') as [Hlt|[?|Hlt]]; [|done|].
  - pose proof (slice_ordered W P W_nonneg_ P_pos_ o o'). lia.
  - pose proof (slice_ordered W P W_nonneg_ P_pos_ o' o). lia.
Qed.

Lemma Width_is_W (m : Mat T) : length (columns m) = Wn → Width m = W.
Proof. unfold Width. by intros ->. Qed.

(** the view of a slice: its shape and its columns *)
Lemma slice_view (m : Mat T) (o : Z) :
  Height m = H → length (columns m) = Wn → 0 ≤ o < P →
  Height (view m (slice W P o)) = H
  ∧ length (columns (view m (slice W P o)))
    = Z.to_nat (slice_hi W P o - slice_lo W P o)
  ∧ encoded_size sizeof_DataType (view m (slice W P o)) ≤ max_recv_count
  ∧ ∀ i : nat, (i < Z.to_nat (slice_hi W P o - slice_lo W P o))%nat →
      columns (view m (slice W P o)) !! i
      = columns m !! (Z.to_nat (slice_lo W P o) + i)%nat.
Proof.
  intros Hh Hlen Ho.
  pose proof (slice_bounds W P W_nonneg_ P_pos_ o Ho) as [Hlo Hhi].
  assert (Width (view m (slice W P o)) = slice_hi W P o - slice_lo W P o)
    as Hwd.
  { apply Width_view; [done|]. rewrite Width_is_W by done. done. }
  split; [done|]. split.
  { unfold Width in Hwd. lia. }
  split.
  { apply encoded_size_fits; [done|]. rewrite Hwd. lia. }
  intros i Hi. unfold slice. rewrite lookup_view. by rewrite decide_True.
Qed.

Lemma rs_before_sum (step rank : Z) (st : proc T) :
  rs_before tr P step rank st
  = (mk_proc
       (add_bytes_sent
          (encoded_size sizeof_DataType
             (view (p_mat st)
                (slice (Width (p_mat st)) P (int_rem (int_add rank step) P))))
          (p_comm st)) (p_mat st),
     (view (p_mat st)
        (slice (Width (p_mat st)) P (int_rem (int_add rank step) P)),
      encoded_size sizeof_DataType
        (view (p_mat st)
           (slice (Width (p_mat st)) P (int_rem (int_add rank step) P))),
      int_rem (int_add rank step) P)).
Proof. done. Qed.

Lemma rs_after_sum (rank : Z) (buf : Mat T) (st : proc T) :
  p_mat (rs_after tr P rank buf st)
  = write_view (p_mat st) (slice (Width (p_mat st)) P rank)
      (mat_add add (view (p_mat st) (slice (Width (p_mat st)) P rank)) buf).
Proof. done. Qed.

(** what the ranks hold after [s] steps of the reduce-scatter: rank [r]
    has added to its own slice the slices of the [s] ranks before it *)
Local Abbreviation rs_fun f s :=
  (λ (r : Z) (j : nat),
     if decide (in_slice r j)
     then foldl cadd (f j r) ((λ t, f j ((r - t) mod P)) <$> seqZ 1 s%Z)
     else f j r)%function.

Lemma rs_round_world (f : nat → Z → list T) (s : Z) (w : list (proc T)) :
  0 ≤ s → s + 1 < P →
  is_world w (rs_fun f s) →
  ∃ w', SendRecv_round max_recv_count (rs_before tr P (s + 1))
          (rs_src P (s + 1)) (rs_after tr P) w = Some w'
        ∧ is_world w' (rs_fun f (s + 1)).
Proof.
  intros Hs Hs1 [Hlen Hw].
  assert (∀ r : nat, (r < Pn)%nat →
            rs_src P (s + 1) (Z.of_nat r) = (Z.of_nat r - (s + 1)) mod P)
    as Hsrc_eq.
  { intros r Hr. apply rs_src_spec; lia. }
  assert (∀ r : nat, (r < Pn)%nat →
            ∃ st_s, w !! Z.to_nat ((Z.of_nat r - (s + 1)) mod P) = Some st_s)
    as Hsrc.
  { intros r Hr. apply lookup_lt_is_Some_2.
    pose proof (mod_back_range P P_range (Z.of_nat r) (s + 1)). lia. }
  assert (∀ r : nat, (r < Pn)%nat →
            int_rem (int_add ((Z.of_nat r - (s + 1)) mod P) (s + 1)) P
            = Z.of_nat r) as Hdst.
  { intros r Hr.
    pose proof (mod_back_range P P_range (Z.of_nat r) (s + 1)).
    rewrite dst_spec by lia. apply mod_back_back; lia. }
  destruct (SendRecv_round_Some max_recv_count (rs_before tr P (s + 1))
              (rs_src P (s + 1)) (rs_after tr P) w)
    as (w' & Hrun & Hlen' & Hw').
  { intros r st Hr. pose proof (lookup_lt_Some _ _ _ Hr) as Hlt.
    rewrite Hsrc_eq by lia.
    destruct (Hsrc r) as [st_s Hst_s]; [lia|]. exists st_s.
    pose proof (mod_back_range P P_range (Z.of_nat r) (s + 1)).
    split; [lia|]. split; [done|].
    rewrite rs_before_sum. cbn [fst snd]. rewrite Hdst by lia.
    split; [done|].
    destruct (Hw _ _ Hst_s) as (Hh & Hwd & _).
    rewrite (Width_is_W _ Hwd).
    apply (slice_view (p_mat st_s) (Z.of_nat r)); [done|done|lia]. }
  exists w'. split; [done|]. split; [lia|].
  intros r st' Hr'. pose proof (lookup_lt_Some _ _ _ Hr') as Hlt.
  destruct (lookup_lt_is_Some_2 w r) as [st Hr]; [lia|].
  destruct (Hsrc r) as [st_s Hst_s]; [lia|].
  rewrite <- Hsrc_eq in Hst_s by lia.
  rewrite (Hw' r st st_s Hr Hst_s), !rs_before_sum in Hr'.
  cbn [fst snd] in Hr'. injection Hr' as <-.
  rewrite rs_after_sum. cbn [p_mat].
  rewrite Hsrc_eq, Hdst by lia. rewrite Hsrc_eq in Hst_s by lia.
  destruct (Hw _ _ Hr) as (Hh & Hwd & Hcols).
  destruct (Hw _ _ Hst_s) as (Hh' & Hwd' & Hcols').
  rewrite (Width_is_W _ Hwd), (Width_is_W _ Hwd').
  pose proof (mod_back_range P P_range (Z.of_nat r) (s + 1)) as Hsr.
  rewrite Z2Nat.id in Hcols' by lia.
  destruct (slice_view (p_mat st) (Z.of_nat r) Hh Hwd ltac:(lia))
    as (_ & Hvlen & _ & Hv).
  destruct (slice_view (p_mat st_s) (Z.of_nat r) Hh' Hwd' ltac:(lia))
    as (_ & Hvlen' & _ & Hv').
  pose proof (slice_bounds W P W_nonneg_ P_pos_ (Z.of_nat r) ltac:(lia))
    as [Hlo Hhi].
  split; [done|]. split; [by rewrite length_write_view|].
  intros j Hj. unfold slice at 1.
  rewrite lookup_write_view; [|done| |lia].
  2:{ unfold mat_add. cbn [columns]. rewrite length_zip_with. lia. }
  destruct (decide (in_slice (Z.of_nat r) j)) as [Hin|Hout].
  - assert (Z.to_nat (slice_lo W P (Z.of_nat r))
            + (j - Z.to_nat (slice_lo W P (Z.of_nat r))) = j)%nat as Hjj
      by lia.
    rewrite (lookup_mat_add _ _ _ (rs_fun f s (Z.of_nat r) j)
               (f j ((Z.of_nat r - (s + 1)) mod P))).
    + rewrite decide_True by done.
      rewrite seqZ_app, fmap_app, foldl_app by lia.
      rewrite (seqZ_cons _ 1), (seqZ_nil _ (Z.pred 1)) by lia.
      cbn [fmap list_fmap foldl]. do 4 f_equal. lia.
    + rewrite Hv by lia. rewrite Hjj. by apply Hcols.
    + rewrite Hv' by lia. rewrite Hjj, Hcols' by done.
      rewrite decide_False; [done|].
      intros Hin'. apply (mod_back_ne P (Z.of_nat r) (s + 1));
        [lia|lia|].
      apply (in_slice_unique _ _ j); [lia|lia|done|done].
  - rewrite Hcols by done. by rewrite !decide_False.
Qed.

Lemma rs_loop_world (f : nat → Z → list T) (m : nat) :
  ∀ (s : Z) (w : list (proc T)),
    0 ≤ s → s + Z.of_nat m = P - 1 →
    is_world w (rs_fun f s) →
    ∃ w', for_steps
            (λ step, SendRecv_round max_recv_count (rs_before tr P step)
                       (rs_src P step) (rs_after tr P))
            (seqZ (s + 1) (Z.of_nat m)) w = Some w'
          ∧ is_world w' (rs_fun f (P - 1)).
Proof.
  induction m as [|m IH]; intros s w Hs Hsm Hw.
  - exists w. split; [done|]. by replace (P - 1) with s by lia.
  - rewrite seqZ_cons by lia. cbn [for_steps].
    destruct (rs_round_world f s w) as (w1 & -> & Hw1); [lia|lia|done|].
    replace (Z.succ (s + 1)) with (s + 1 + 1) by lia.
    replace (Z.pred (Z.of_nat (S m))) with (Z.of_nat m) by lia.
    apply IH; [lia|lia|done].
Qed.

(** a rank that has added the slices of all ranks before it, around the
    ring, holds the sum over the ranks in their order *)
Lemma ring_sum (g : Z → list T) (r : Z) :
  0 ≤ r < P →
  foldl cadd (g r) ((λ t, g ((r - t) mod P)) <$> seqZ 1 (P - 1))
  = range_sum g 0 P.
Proof.
  intros Hr. replace (P - 1) with (r + (P - 1 - r)) at 1 by lia.
  rewrite seqZ_app, fmap_app, foldl_app by lia.
  assert ((λ t, g ((r - t) mod P)) <$> seqZ 1 r
          = (λ t, g (r - t)) <$> seqZ 1 r) as ->.
  { apply Forall_fmap_ext_1, Forall_seqZ. intros t Ht. f_equal.
    apply Z.mod_small. lia. }
  rewrite (range_sum_down_Z add add_assoc add_comm g r r) by lia.
  rewrite Z.sub_diag.
  destruct (decide (P - 1 - r = 0)) as [Hlast|Hmore].
  - rewrite Hlast. rewrite (seqZ_nil _ 0) by lia. cbn [fmap list_fmap foldl].
    by replace (r + 1) with P by lia.
  - rewrite (fmap_seqZ_shift (λ t, g ((r - t) mod P)) 1 r).
    assert ((λ t, g ((r - (t + r)) mod P)) <$> seqZ 1 (P - 1 - r)
            = (λ t, g (P - t)) <$> seqZ 1 (P - 1 - r)) as ->.
    { apply Forall_fmap_ext_1, Forall_seqZ. intros t Ht. f_equal.
      replace (r - (t + r)) with (0 - t) by lia.
      rewrite mod_back by lia. destruct (Z.leb_spec t 0); lia. }
    rewrite (foldl_down add add_assoc add_comm g) by lia.
    replace (P - (P - 1 - r)) with (0 + (r + 1)) by lia.
    rewrite <- (range_sum_app add add_assoc g 0 (r + 1) (P - 1 - r)) by lia.
    by replace (r + 1 + (P - 1 - r)) with P by lia.
Qed.

(** *** Pairwise exchange: the allgather *)

Lemma lookup_mat_copy (dest src : Mat T) (i : nat) :
  (i < length (columns dest))%nat →
  columns (mat_copy dest src) !! i = columns src !! i.
Proof.
  intros Hi. unfold mat_copy. cbn [columns]. rewrite lookup_zip_with.
  destruct (lookup_lt_is_Some_2 _ _ Hi) as [x ->]. cbn.
  by destruct (columns src !! i).
Qed.

(** the columns of a matrix after a buffer was received into its slice
    [o] *)
Lemma copy_into_slice (m buf : Mat T) (o : Z) :
  Height m = H → length (columns m) = Wn → 0 ≤ o < P →
  length (columns buf) = Z.to_nat (slice_hi W P o - slice_lo W P o) →
  let m' := write_view m (slice W P o) (mat_copy (view m (slice W P o)) buf) in
  Height m' = H ∧ length (columns m') = Wn
  ∧ ∀ j : nat, (j < Wn)%nat →
      columns m' !! j
      = if decide (in_slice o j)
        then columns buf !! (j - Z.to_nat (slice_lo W P o))%nat
        else columns m !! j.
Proof.
  intros Hh Hlen Ho Hbuf m'.
  destruct (slice_view m o Hh Hlen Ho) as (_ & Hvlen & _ & _).
  pose proof (slice_bounds W P W_nonneg_ P_pos_ o Ho) as [Hlo Hhi].
  split; [done|]. split; [by unfold m'; rewrite length_write_view|].
  intros j Hj. unfold m', slice.
  rewrite lookup_write_view; [|done| |lia].
  2:{ unfold mat_copy. cbn [columns]. rewrite length_zip_with.
      fold (slice W P o). lia. }
  case_decide as Hin; [|done].
  apply lookup_mat_copy. fold (slice W P o). lia.
Qed.

(** the ranks after the allgather step [k]: rank [r] holds the reduced
    columns [tot] in its own slice and in the slices of the [k] ranks
    before it, and its buffer holds the slice of the last of them *)
#[local] Set Warnings "-inconsistent-scopes".
Local Abbreviation is_ring tot k w :=
  (length w = Pn
   ∧ ∀ (r : nat) (l : ring_local T (Mat T)), w%list !! r = Some l →
       Height (p_mat (rl_proc l)) = H
       ∧ length (columns (p_mat (rl_proc l))) = Wn
       ∧ (∀ (t : Z) (j : nat), 0 ≤ t ≤ k%Z → (j < Wn)%nat →
            in_slice ((Z.of_nat r - t) mod P) j →
            columns (p_mat (rl_proc l)) !! j = Some (tot j))
       ∧ Height (rl_recv_buf l) = H
       ∧ length (columns (rl_recv_buf l))
         = Z.to_nat (slice_hi W P ((Z.of_nat r - k%Z) mod P)
                     - slice_lo W P ((Z.of_nat r - k%Z) mod P))
       ∧ (∀ i : nat,
            (i < Z.to_nat (slice_hi W P ((Z.of_nat r - k%Z) mod P)
                           - slice_lo W P ((Z.of_nat r - k%Z) mod P)))%nat →
            columns (rl_recv_buf l) !! i
            = Some (tot (Z.to_nat (slice_lo W P ((Z.of_nat r - k%Z) mod P))
                         + i)%nat))
       ∧ rl_send_size l = encoded_size sizeof_DataType (rl_recv_buf l)).

Lemma ag_first_before_sum (rank : Z) (st : proc T) :
  (ag_first_before tr P rank st).2
  = (view (p_mat st) (slice (Width (p_mat st)) P rank),
     encoded_size sizeof_DataType
       (view (p_mat st) (slice (Width (p_mat st)) P rank)),
     ring_dst P rank)
  ∧ p_mat (ag_first_before tr P rank st).1 = p_mat st.
Proof. done. Qed.

Lemma ag_first_after_sum (rank : Z) (buf : Mat T) (st : proc T) :
  let l := ag_first_after tr P rank buf st in
  p_mat (rl_proc l)
  = write_view (p_mat st) (slice (Width (p_mat st)) P (ring_src P rank))
      (mat_copy
         (view (p_mat st) (slice (Width (p_mat st)) P (ring_src P rank)))
         buf)
  ∧ rl_recv_buf l = buf
  ∧ rl_send_size l = encoded_size sizeof_DataType buf.
Proof. done. Qed.

Lemma ag_first_world (F : Z → nat → list T) (tot : nat → list T)
  (w : list (proc T)) :
  (∀ r j, 0 ≤ r < P → (j < Wn)%nat → in_slice r j → F r j = tot j) →
  is_world w F →
  ∃ w', SendRecv_round max_recv_count (ag_first_before tr P) (ring_src P)
          (ag_first_after tr P) w = Some w'
        ∧ is_ring tot 1 w'.
Proof.
  intros Htot [Hlen Hw].
  assert (∀ r : nat, (r < Pn)%nat →
            ring_src P (Z.of_nat r) = (Z.of_nat r - 1) mod P) as Hsrc_eq.
  { intros r Hr. apply ring_src_spec; lia. }
  assert (∀ r : nat, (r < Pn)%nat →
            ∃ st_s, w !! Z.to_nat ((Z.of_nat r - 1) mod P) = Some st_s)
    as Hsrc.
  { intros r Hr. apply lookup_lt_is_Some_2.
    pose proof (mod_back_range P P_range (Z.of_nat r) 1). lia. }
  assert (∀ r : nat, (r < Pn)%nat →
            ring_dst P ((Z.of_nat r - 1) mod P) = Z.of_nat r) as Hdst.
  { intros r Hr. pose proof (mod_back_range P P_range (Z.of_nat r) 1).
    rewrite ring_dst_spec by lia. apply mod_back_back; lia. }
  destruct (SendRecv_round_Some max_recv_count (ag_first_before tr P)
              (ring_src P) (ag_first_after tr P) w)
    as (w' & Hrun & Hlen' & Hw').
  { intros r st Hr. pose proof (lookup_lt_Some _ _ _ Hr) as Hlt.
    rewrite Hsrc_eq by lia.
    destruct (Hsrc r) as [st_s Hst_s]; [lia|]. exists st_s.
    pose proof (mod_back_range P P_range (Z.of_nat r) 1).
    split; [lia|]. split; [done|].
    destruct (ag_first_before_sum ((Z.of_nat r - 1) mod P) st_s) as [-> _].
    cbn [fst snd]. rewrite Hdst by lia. split; [done|].
    destruct (Hw _ _ Hst_s) as (Hh & Hwd & _).
    rewrite (Width_is_W _ Hwd).
    apply (slice_view (p_mat st_s) ((Z.of_nat r - 1) mod P)); [done|done|lia]. }
  exists w'. split; [done|]. split; [lia|].
  intros r l Hr'. pose proof (lookup_lt_Some _ _ _ Hr') as Hlt.
  destruct (lookup_lt_is_Some_2 w r) as [st Hr]; [lia|].
  destruct (Hsrc r) as [st_s Hst_s]; [lia|].
  pose proof (mod_back_range P P_range (Z.of_nat r) 1) as Hsr.
  rewrite <- Hsrc_eq in Hst_s by lia.
  assert (l = ag_first_after tr P (Z.of_nat r)
                (ag_first_before tr P (ring_src P (Z.of_nat r)) st_s).2.1.1
                (ag_first_before tr P (Z.of_nat r) st).1) as ->.
  { pose proof (Hw' r st st_s Hr Hst_s) as Hl. congruence. }
  destruct (ag_first_after_sum (Z.of_nat r)
              (ag_first_before tr P (ring_src P (Z.of_nat r)) st_s).2.1.1
              (ag_first_before tr P (Z.of_nat r) st).1) as (-> & -> & ->).
  destruct (ag_first_before_sum (Z.of_nat r) st) as [_ ->].
  destruct (ag_first_before_sum (ring_src P (Z.of_nat r)) st_s) as [-> _].
  cbn [fst snd]. rewrite Hsrc_eq in * by lia.
  set (o := (Z.of_nat r - 1) mod P) in *.
  destruct (Hw _ _ Hr) as (Hh & Hwd & Hcols).
  destruct (Hw _ _ Hst_s) as (Hh' & Hwd' & Hcols').
  rewrite Z2Nat.id in Hcols' by lia.
  rewrite (Width_is_W _ Hwd), (Width_is_W _ Hwd').
  destruct (slice_view (p_mat st_s) o Hh' Hwd' ltac:(lia))
    as (Hbh & Hblen & _ & Hb).
  pose proof (slice_bounds W P W_nonneg_ P_pos_ o ltac:(lia)) as [Hlo Hhi].
  destruct (copy_into_slice (p_mat st) (view (p_mat st_s) (slice W P o)) o
              Hh Hwd ltac:(lia) Hblen) as (Hh2 & Hlen2 & Hcols2).
  assert (∀ i : nat, (i < Z.to_nat (slice_hi W P o - slice_lo W P o))%nat →
            columns (view (p_mat st_s) (slice W P o)) !! i
            = Some (tot (Z.to_nat (slice_lo W P o) + i)%nat)) as Hbuf.
  { intros i Hi. rewrite Hb by done. rewrite Hcols' by lia. f_equal.
    apply Htot; lia. }
  split; [done|]. split; [done|]. split.
  { intros t j Ht Hj Hin. rewrite Hcols2 by done.
    destruct (decide (in_slice o j)) as [Hino|Hnot].
    - rewrite Hbuf by lia. do 2 f_equal. lia.
    - assert (t = 0) as ->.
      { destruct (decide (t = 0)) as [|Hne]; [done|].
        assert (t = 1) as -> by lia. done. }
      rewrite Z.sub_0_r, Z.mod_small in Hin by lia.
      rewrite Hcols by done. f_equal. apply Htot; [lia|done|done]. }
  split; [done|]. split; [done|]. split; [done|]. done.
Qed.

Lemma ag_before_sum (rank : Z) (l : ring_local T (Mat T)) :
  (ag_before P rank l).2 = (rl_recv_buf l, rl_send_size l, ring_dst P rank)
  ∧ p_mat (rl_proc (ag_before P rank l).1) = p_mat (rl_proc l).
Proof. done. Qed.

Lemma ag_after_sum (step rank : Z) (buf : Mat T) (l : ring_local T (Mat T)) :
  let l' := ag_after tr P step rank buf l in
  let data_src :=
    int_rem (int_add (int_sub (int_sub rank step) 1) P) P in
  let m := p_mat (rl_proc l) in
  p_mat (rl_proc l')
  = write_view m (slice (Width m) P data_src)
      (mat_copy (view m (slice (Width m) P data_src)) buf)
  ∧ rl_recv_buf l' = buf
  ∧ rl_send_size l' = encoded_size sizeof_DataType buf.
Proof. done. Qed.

Lemma ag_round_world (tot : nat → list T) (k : Z)
  (w : list (ring_local T (Mat T))) :
  1 ≤ k → k + 1 < P →
  is_ring tot k w →
  ∃ w', SendRecv_round max_recv_count (ag_before P) (ring_src P)
          (ag_after tr P k) w = Some w'
        ∧ is_ring tot (k + 1) w'.
Proof.
  intros Hk Hk1 [Hlen Hw].
  assert (∀ r : nat, (r < Pn)%nat →
            ring_src P (Z.of_nat r) = (Z.of_nat r - 1) mod P) as Hsrc_eq.
  { intros r Hr. apply ring_src_spec; lia. }
  assert (∀ r : nat, (r < Pn)%nat →
            ∃ l_s, w !! Z.to_nat ((Z.of_nat r - 1) mod P) = Some l_s)
    as Hsrc.
  { intros r Hr. apply lookup_lt_is_Some_2.
    pose proof (mod_back_range P P_range (Z.of_nat r) 1). lia. }
  assert (∀ r : nat, (r < Pn)%nat →
            ring_dst P ((Z.of_nat r - 1) mod P) = Z.of_nat r) as Hdst.
  { intros r Hr. pose proof (mod_back_range P P_range (Z.of_nat r) 1).
    rewrite ring_dst_spec by lia. apply mod_back_back; lia. }
  (* the slice that the source of rank [r] forwards *)
  assert (∀ r : nat, (r < Pn)%nat →
            ((Z.of_nat (Z.to_nat ((Z.of_nat r - 1) mod P)) - k) mod P)
            = (Z.of_nat r - (k + 1)) mod P) as Hfwd.
  { intros r Hr. pose proof (mod_back_range P P_range (Z.of_nat r) 1).
    rewrite Z2Nat.id by lia. rewrite mod_back_add. f_equal. lia. }
  destruct (SendRecv_round_Some max_recv_count (ag_before P) (ring_src P)
              (ag_after tr P k) w)
    as (w' & Hrun & Hlen' & Hw').
  { intros r l Hr. pose proof (lookup_lt_Some _ _ _ Hr) as Hlt.
    rewrite Hsrc_eq by lia.
    destruct (Hsrc r) as [l_s Hl_s]; [lia|]. exists l_s.
    pose proof (mod_back_range P P_range (Z.of_nat r) 1).
    split; [lia|]. split; [done|].
    destruct (ag_before_sum ((Z.of_nat r - 1) mod P) l_s) as [-> _].
    cbn [fst snd]. rewrite Hdst by lia. split; [done|].
    destruct (Hw _ _ Hl_s) as (_ & _ & _ & Hbh & Hblen & _ & ->).
    rewrite Hfwd in Hblen by lia.
    pose proof (mod_back_range P P_range (Z.of_nat r) (k + 1)) as Ho.
    pose proof (slice_bounds W P W_nonneg_ P_pos_ _ Ho) as [Hlo Hhi].
    apply encoded_size_fits; [done|]. unfold Width. lia. }
  exists w'. split; [done|]. split; [lia|].
  intros r l' Hr'. pose proof (lookup_lt_Some _ _ _ Hr') as Hlt.
  destruct (lookup_lt_is_Some_2 w r) as [l Hr]; [lia|].
  destruct (Hsrc r) as [l_s Hl_s]; [lia|].
  rewrite <- Hsrc_eq in Hl_s by lia.
  assert (l' = ag_after tr P k (Z.of_nat r)
                 (ag_before P (ring_src P (Z.of_nat r)) l_s).2.1.1
                 (ag_before P (Z.of_nat r) l).1) as ->.
  { pose proof (Hw' r l l_s Hr Hl_s) as Hl. congruence. }
  destruct (ag_after_sum k (Z.of_nat r)
              (ag_before P (ring_src P (Z.of_nat r)) l_s).2.1.1
              (ag_before P (Z.of_nat r) l).1) as (-> & -> & ->).
  destruct (ag_before_sum (Z.of_nat r) l) as [_ ->].
  destruct (ag_before_sum (ring_src P (Z.of_nat r)) l_s) as [-> _].
  cbn [fst snd]. rewrite Hsrc_eq in Hl_s by lia.
  rewrite data_src_spec by lia.
  pose proof (mod_back_range P P_range (Z.of_nat r) (k + 1)) as Ho.
  destruct (Hw _ _ Hr) as (Hh & Hwd & Hdone & _).
  destruct (Hw _ _ Hl_s) as (_ & _ & _ & Hbh & Hblen & Hbuf & _).
  rewrite Hfwd in Hblen, Hbuf by lia.
  set (o := (Z.of_nat r - (k + 1)) mod P) in *.
  rewrite (Width_is_W _ Hwd).
  pose proof (slice_bounds W P W_nonneg_ P_pos_ o Ho) as [Hlo Hhi].
  destruct (copy_into_slice (p_mat (rl_proc l)) (rl_recv_buf l_s) o
              Hh Hwd Ho Hblen) as (Hh2 & Hlen2 & Hcols2).
  split; [done|]. split; [done|]. split.
  { intros t j Ht Hj Hin. rewrite Hcols2 by done.
    destruct (decide (in_slice o j)) as [Hino|Hnot].
    - rewrite Hbuf by lia. do 2 f_equal. lia.
    - apply (Hdone t); [|done|done].
      destruct (decide (t = k + 1)) as [->|]; [done|lia]. }
  split; [done|]. split; [done|]. split; [done|]. done.
Qed.

Lemma ag_loop_world (tot : nat → list T) (m : nat) :
  ∀ (k : Z) (w : list (ring_local T (Mat T))),
    1 ≤ k → k + Z.of_nat m = Z.max 1 (P - 1) →
    is_ring tot k w →
    ∃ w', for_steps
            (λ step, SendRecv_round max_recv_count (ag_before P) (ring_src P)
                       (ag_after tr P step))
            (seqZ k (Z.of_nat m)) w = Some w'
          ∧ is_ring tot (Z.max 1 (P - 1)) w'.
Proof.
  induction m as [|m IH]; intros k w Hk Hkm Hw.
  - exists w. split; [done|]. by replace (Z.max 1 (P - 1)) with k by lia.
  - rewrite seqZ_cons by lia. cbn [for_steps].
    destruct (ag_round_world tot k w) as (w1 & -> & Hw1); [lia|lia|done|].
    replace (Z.succ k) with (k + 1) by lia.
    replace (Z.pred (Z.of_nat (S m))) with (Z.of_nat m) by lia.
    apply IH; [lia|lia|done].
Qed.

(** when the allgather is over every column of every rank is reduced *)
Lemma ring_complete (tot : nat → list T) (k : Z)
  (w : list (ring_local T (Mat T))) :
  P - 1 ≤ k →
  is_ring tot k w →
  is_world (rl_proc <$> w) (λ _ j, tot j).
Proof.
  intros Hk [Hlen Hw]. split; [by rewrite length_fmap|].
  intros r st Hr. rewrite list_lookup_fmap in Hr.
  destruct (w !! r) as [l|] eqn:Hl; [|done]. injection Hr as <-.
  pose proof (lookup_lt_Some _ _ _ Hl) as Hlt.
  destruct (Hw _ _ Hl) as (Hh & Hwd & Hdone & _).
  split; [done|]. split; [done|]. intros j Hj.
  destruct (slice_cover W P W_nonneg_ P_pos_ (Z.of_nat j)) as (o & Ho & Hin);
    [lia|].
  pose proof (mod_back_range P P_range (Z.of_nat r) o).
  apply (Hdone ((Z.of_nat r - o) mod P)); [lia|done|].
  by rewrite mod_back_owner.
Qed.

(** *** The two algorithms on a world of equal shapes *)

Lemma pe_ring_world (f : nat → Z → list T) (w : list (proc T)) :
  is_world w (λ r j, f j r) →
  ∃ w', pe_ring_allreduce tr max_recv_count w = Some w'
        ∧ is_world w' (λ _ j, range_sum (f j) 0 P).
Proof.
  intros Hw. pose proof Hw as [Hlen _]. unfold pe_ring_allreduce.
  rewrite Hlen.
  destruct (rs_loop_world f (Z.to_nat (P - 1)) 0 w) as (w1 & Hrun1 & Hw1);
    [lia|lia| |].
  { refine (is_world_ext w (λ r j, f j r) (rs_fun f 0) _ Hw).
    intros r j _ _. cbn. by destruct (decide _). }
  rewrite Z.add_0_l, Z2Nat.id in Hrun1 by lia. rewrite Hrun1.
  destruct (ag_first_world (rs_fun f (P - 1))
              (λ j, range_sum (f j) 0 P) w1) as (w2 & -> & Hw2);
    [|done|].
  { intros r j Hr Hj Hin. rewrite decide_True by done.
    by apply ring_sum. }
  destruct (ag_loop_world (λ j, range_sum (f j) 0 P) (Z.to_nat (P - 2)) 1 w2)
    as (w3 & Hrun3 & Hw3); [lia|lia|done|].
  assert (seqZ 1 (P - 2) = seqZ 1 (Z.of_nat (Z.to_nat (P - 2)))) as ->.
  { destruct (decide (P - 2 < 0)).
    - by rewrite !seqZ_nil by lia.
    - by rewrite Z2Nat.id by lia. }
  rewrite Hrun3. eexists. split; [done|].
  apply (ring_complete _ (Z.max 1 (P - 1))); [lia|done].
Qed.

Lemma rd_world (f : nat → Z → list T) (w : list (proc T)) :
  is_pow2 P →
  is_world w (λ r j, f j r) →
  ∃ w', recursive_doubling_allreduce_pow2 tr max_recv_count w = Some w'
        ∧ is_world w' (λ _ j, range_sum (f j) 0 P).
Proof.
  intros Hpow Hw. pose proof Hw as [Hlen _].
  unfold recursive_doubling_allreduce_pow2. rewrite Hlen.
  assert ((Z.land P (int_sub P 1) =? 0) = true) as ->.
  { apply pow2_test; [lia|unfold INT_MIN, INT_MAX; lia|done]. }
  cbn [negb]. destruct Hpow as (n & Hn & HP).
  assert (n ≤ 30) as Hn30.
  { apply (Z.pow_le_mono_r_iff 2); lia. }
  change 1 with (2 ^ 0).
  apply (rd_loop_world f n (Z.to_nat n)); [done|done|lia|lia|lia|].
  refine (is_world_ext w (λ r j, f j r)
            (λ r j, range_sum (f j) (r - r mod 2 ^ 0) (2 ^ 0)) _ Hw).
  intros r j _ _. change (2 ^ 0) with 1. rewrite Z.mod_1_r, Z.sub_0_r.
  done.
Qed.

(** *** Ring: the reduce-scatter *)

Lemma mod_back_inj (r d d' : Z) :
  0 ≤ d < P → 0 ≤ d' < P → (r - d) mod P = (r - d') mod P → d = d'.
Proof.
  intros Hd Hd' Heq.
  pose proof (mod_back_owner P r d Hd) as H1.
  pose proof (mod_back_owner P r d' Hd') as H2.
  rewrite Heq in H1. congruence.
Qed.

Lemma ring_rs_before_sum (step rank : Z) (st : proc T) :
  ring_rs_before tr P step rank st
  = (st,
     (view (p_mat st) (slice (Width (p_mat st)) P (rs_src P step rank)),
      encoded_size sizeof_DataType
        (view (p_mat st) (slice (Width (p_mat st)) P (rs_src P step rank))),
      ring_dst P rank)).
Proof. done. Qed.

Lemma ring_rs_after_sum (step rank : Z) (buf : Mat T) (st : proc T) :
  let cols :=
    slice (Width (p_mat st)) P
      (int_rem (int_add (int_sub (int_sub rank step) 1) P) P) in
  ring_rs_after tr P step rank buf st
  = mk_proc (p_comm st)
      (write_view (p_mat st) cols
         (mat_add add (view (p_mat st) cols) buf)).
Proof. done. Qed.

(** what rank [r] has added up after walking [d] ranks back round the
    ring *)
Local Abbreviation ring_fold f r j d :=
  (foldl cadd (f j%nat r%Z)
     ((λ i, f j%nat ((r%Z - i) mod P)) <$> seqZ 1 d%Z))%function.

(** adding the own column to what the rank before has added up *)
Lemma ring_fold_step (g : Z → list T) (r t : Z) :
  0 ≤ t →
  cadd (g r)
    (foldl cadd (g ((r - 1) mod P))
       ((λ i, g (((r - 1) mod P - i) mod P)) <$> seqZ 1 t))
  = foldl cadd (g r) ((λ i, g ((r - i) mod P)) <$> seqZ 1 (t + 1)).
Proof.
  intros Ht. rewrite (seqZ_cons 1 (t + 1)) by lia.
  cbn [fmap list_fmap foldl].
  rewrite (foldl_cadd_assoc add add_assoc). f_equal. f_equal.
  replace (Z.pred (t + 1)) with t by lia.
  change (Z.succ 1) with (1 + 1).
  rewrite (fmap_seqZ_shift (λ i, g ((r - i) mod P)) 1 1 t).
  apply list_fmap_ext. intros _ i _. cbn. f_equal.
  rewrite mod_back_add. f_equal. lia.
Qed.

(** the ranks after [t] steps: rank [r] holds, in the slice that lies [d]
    ranks back, the sum over itself and the [d] ranks before it when
    [d ≤ t], and its own columns in the other slices; its communicator is
    as it was *)
Local Abbreviation ring_rs_inv f c t w :=
  (length w = Pn
   ∧ ∀ (r : nat) (st : proc T), w%list !! r = Some st →
       p_comm st = c r
       ∧ Height (p_mat st) = H
       ∧ length (columns (p_mat st)) = Wn
       ∧ ∀ (d : Z) (j : nat), 0 ≤ d < P → (j < Wn)%nat →
           in_slice ((Z.of_nat r - d) mod P) j →
           columns (p_mat st) !! j
           = Some (if decide (d ≤ t%Z) then ring_fold f (Z.of_nat r) j d
                   else f j (Z.of_nat r))).

Lemma ring_rs_round_world (f : nat → Z → list T) (c : nat → lbann_comm)
  (t : Z) (w : list (proc T)) :
  0 ≤ t → t + 1 < P →
  ring_rs_inv f c t w →
  ∃ w', SendRecv_round max_recv_count (ring_rs_before tr P t) (ring_src P)
          (ring_rs_after tr P t) w = Some w'
        ∧ ring_rs_inv f c (t + 1) w'.
Proof.
  intros Ht Ht1 [Hlen Hw].
  assert (∀ r : nat, (r < Pn)%nat →
            ring_src P (Z.of_nat r) = (Z.of_nat r - 1) mod P) as Hsrc_eq.
  { intros r Hr. apply ring_src_spec; lia. }
  assert (∀ r : nat, (r < Pn)%nat →
            ∃ st_s, w !! Z.to_nat ((Z.of_nat r - 1) mod P) = Some st_s)
    as Hsrc.
  { intros r Hr. apply lookup_lt_is_Some_2.
    pose proof (mod_back_range P P_range (Z.of_nat r) 1). lia. }
  assert (∀ r : nat, (r < Pn)%nat →
            ring_dst P ((Z.of_nat r - 1) mod P) = Z.of_nat r) as Hdst.
  { intros r Hr. pose proof (mod_back_range P P_range (Z.of_nat r) 1).
    rewrite ring_dst_spec by lia. apply mod_back_back; lia. }
  (* the slice that the source of rank [r] sends *)
  assert (∀ r : nat, (r < Pn)%nat →
            rs_src P t ((Z.of_nat r - 1) mod P)
            = (Z.of_nat r - (t + 1)) mod P) as Hsent.
  { intros r Hr. pose proof (mod_back_range P P_range (Z.of_nat r) 1).
    rewrite rs_src_spec by lia. rewrite mod_back_add. f_equal. lia. }
  destruct (SendRecv_round_Some max_recv_count (ring_rs_before tr P t)
              (ring_src P) (ring_rs_after tr P t) w)
    as (w' & Hrun & Hlen' & Hw').
  { intros r st Hr. pose proof (lookup_lt_Some _ _ _ Hr) as Hlt.
    rewrite Hsrc_eq by lia.
    destruct (Hsrc r) as [st_s Hst_s]; [lia|]. exists st_s.
    pose proof (mod_back_range P P_range (Z.of_nat r) 1).
    split; [lia|]. split; [done|].
    rewrite ring_rs_before_sum. cbn [fst snd]. rewrite Hdst by lia.
    split; [done|].
    destruct (Hw _ _ Hst_s) as (_ & Hh & Hwd & _).
    rewrite (Width_is_W _ Hwd), Hsent by lia.
    pose proof (mod_back_range P P_range (Z.of_nat r) (t + 1)).
    apply (slice_view (p_mat st_s)); [done|done|lia]. }
  exists w'. split; [done|]. split; [lia|].
  intros r st' Hr'. pose proof (lookup_lt_Some _ _ _ Hr') as Hlt.
  destruct (lookup_lt_is_Some_2 w r) as [st Hr]; [lia|].
  destruct (Hsrc r) as [st_s Hst_s]; [lia|].
  rewrite <- Hsrc_eq in Hst_s by lia.
  rewrite (Hw' r st st_s Hr Hst_s), !ring_rs_before_sum in Hr'.
  cbn [fst snd] in Hr'. injection Hr' as <-.
  rewrite ring_rs_after_sum. cbn [p_mat p_comm].
  rewrite Hsrc_eq in * by lia.
  rewrite data_src_spec, Hsent by lia.
  pose proof (mod_back_range P P_range (Z.of_nat r) 1) as Hsr.
  pose proof (mod_back_range P P_range (Z.of_nat r) (t + 1)) as Ho.
  set (o := (Z.of_nat r - (t + 1)) mod P) in *.
  destruct (Hw _ _ Hr) as (Hc & Hh & Hwd & Hcols).
  destruct (Hw _ _ Hst_s) as (_ & Hh' & Hwd' & Hcols').
  rewrite (Width_is_W _ Hwd), (Width_is_W _ Hwd').
  rewrite Z2Nat.id in Hcols' by lia.
  destruct (slice_view (p_mat st) o Hh Hwd Ho) as (_ & Hvlen & _ & Hv).
  destruct (slice_view (p_mat st_s) o Hh' Hwd' Ho) as (_ & Hvlen' & _ & Hv').
  pose proof (slice_bounds W P W_nonneg_ P_pos_ o Ho) as [Hlo Hhi].
  split; [done|]. split; [done|]. split; [by rewrite length_write_view|].
  intros d j Hd Hj Hin. unfold slice at 1.
  rewrite lookup_write_view; [|done| |lia].
  2:{ unfold mat_add. cbn [columns]. rewrite length_zip_with. lia. }
  destruct (decide (in_slice o j)) as [Hino|Hout].
  - assert (d = t + 1) as ->.
    { apply (mod_back_inj (Z.of_nat r)); [done|lia|].
      apply (in_slice_unique _ _ j); [|done|done|done].
      apply (mod_back_range P P_range). }
    rewrite decide_True by lia.
    assert (Z.to_nat (slice_lo W P o) + (j - Z.to_nat (slice_lo W P o)) = j)%nat
      as Hjj by lia.
    rewrite (lookup_mat_add _ _ _ (f j (Z.of_nat r))
               (ring_fold f ((Z.of_nat r - 1) mod P) j t)).
    + f_equal. apply (ring_fold_step (f j)). lia.
    + rewrite Hv by lia. rewrite Hjj.
      rewrite (Hcols (t + 1) j) by (done || lia).
      by rewrite decide_False by lia.
    + rewrite Hv' by lia. rewrite Hjj.
      rewrite (Hcols' t j); [by rewrite decide_True by lia|lia|done|].
      rewrite mod_back_add.
      by replace (1 + t) with (t + 1) by lia.
  - rewrite (Hcols d j) by done.
    assert (d ≠ t + 1) by (intros ->; done).
    destruct (decide (d ≤ t)); destruct (decide (d ≤ t + 1)); done || lia.
Qed.

Lemma ring_rs_loop_world (f : nat → Z → list T) (c : nat → lbann_comm)
  (m : nat) :
  ∀ (t : Z) (w : list (proc T)),
    0 ≤ t → t + Z.of_nat m = P - 1 →
    ring_rs_inv f c t w →
    ∃ w', for_steps
            (λ step, SendRecv_round max_recv_count (ring_rs_before tr P step)
                       (ring_src P) (ring_rs_after tr P step))
            (seqZ t (Z.of_nat m)) w = Some w'
          ∧ ring_rs_inv f c (P - 1) w'.
Proof.
  induction m as [|m IH]; intros t w Ht Htm Hw.
  - exists w. split; [done|]. by replace (P - 1) with t by lia.
  - rewrite seqZ_cons by lia. cbn [for_steps].
    destruct (ring_rs_round_world f c t w) as (w1 & -> & Hw1);
      [lia|lia|done|].
    replace (Z.succ t) with (t + 1) by lia.
    replace (Z.pred (Z.of_nat (S m))) with (Z.of_nat m) by lia.
    apply IH; [lia|lia|done].
Qed.

(** *** Ring: the allgather *)

(** the ranks after the allgather step [k]: rank [r] holds the reduced
    columns [tot] in the slice of the rank after it and in the [k] slices
    before that one, and its buffer holds the last of them *)
Local Abbreviation is_ring1 tot c k w :=
  (length w = Pn
   ∧ ∀ (r : nat) (l : ring_local T (Mat T)), w%list !! r = Some l →
       p_comm (rl_proc l) = c r
       ∧ Height (p_mat (rl_proc l)) = H
       ∧ length (columns (p_mat (rl_proc l))) = Wn
       ∧ (∀ (t : Z) (j : nat), 0 ≤ t ≤ k%Z → (j < Wn)%nat →
            in_slice ((Z.of_nat r - (t - 1)) mod P) j →
            columns (p_mat (rl_proc l)) !! j = Some (tot j))
       ∧ Height (rl_recv_buf l) = H
       ∧ length (columns (rl_recv_buf l))
         = Z.to_nat (slice_hi W P ((Z.of_nat r - (k%Z - 1)) mod P)
                     - slice_lo W P ((Z.of_nat r - (k%Z - 1)) mod P))
       ∧ (∀ i : nat,
            (i < Z.to_nat (slice_hi W P ((Z.of_nat r - (k%Z - 1)) mod P)
                           - slice_lo W P ((Z.of_nat r - (k%Z - 1)) mod P)))%nat →
            columns (rl_recv_buf l) !! i
            = Some (tot (Z.to_nat
                           (slice_lo W P ((Z.of_nat r - (k%Z - 1)) mod P))
                         + i)%nat))
       ∧ rl_send_size l = encoded_size sizeof_DataType (rl_recv_buf l)).

Lemma ring_ag_first_before_sum (rank : Z) (st : proc T) :
  ring_ag_first_before tr P rank st
  = (st,
     (view (p_mat st) (slice (Width (p_mat st)) P (ring_dst P rank)),
      encoded_size sizeof_DataType
        (view (p_mat st) (slice (Width (p_mat st)) P (ring_dst P rank))),
      ring_dst P rank)).
Proof. done. Qed.

Lemma ring_ag_first_after_sum (rank : Z) (buf : Mat T) (st : proc T) :
  ring_ag_first_after tr P rank buf st
  = mk_ring_local
      (mk_proc (p_comm st)
         (write_view (p_mat st) (slice (Width (p_mat st)) P rank)
            (mat_copy (view (p_mat st) (slice (Width (p_mat st)) P rank))
               buf)))
      buf None (encoded_size sizeof_DataType buf).
Proof. done. Qed.

Lemma ring_ag_first_world (tot : nat → list T) (c : nat → lbann_comm)
  (w : list (proc T)) :
  (length w = Pn
   ∧ ∀ (r : nat) (st : proc T), w !! r = Some st →
       p_comm st = c r
       ∧ Height (p_mat st) = H
       ∧ length (columns (p_mat st)) = Wn
       ∧ ∀ j : nat, (j < Wn)%nat →
           in_slice ((Z.of_nat r + 1) mod P) j →
           columns (p_mat st) !! j = Some (tot j)) →
  ∃ w', SendRecv_round max_recv_count (ring_ag_first_before tr P)
          (ring_src P) (ring_ag_first_after tr P) w = Some w'
        ∧ is_ring1 tot c 1 w'.
Proof.
  intros [Hlen Hw].
  assert (∀ r : nat, (r < Pn)%nat →
            ring_src P (Z.of_nat r) = (Z.of_nat r - 1) mod P) as Hsrc_eq.
  { intros r Hr. apply ring_src_spec; lia. }
  assert (∀ r : nat, (r < Pn)%nat →
            ∃ st_s, w !! Z.to_nat ((Z.of_nat r - 1) mod P) = Some st_s)
    as Hsrc.
  { intros r Hr. apply lookup_lt_is_Some_2.
    pose proof (mod_back_range P P_range (Z.of_nat r) 1). lia. }
  assert (∀ r : nat, (r < Pn)%nat →
            ring_dst P ((Z.of_nat r - 1) mod P) = Z.of_nat r) as Hdst.
  { intros r Hr. pose proof (mod_back_range P P_range (Z.of_nat r) 1).
    rewrite ring_dst_spec by lia. apply mod_back_back; lia. }
  destruct (SendRecv_round_Some max_recv_count (ring_ag_first_before tr P)
              (ring_src P) (ring_ag_first_after tr P) w)
    as (w' & Hrun & Hlen' & Hw').
  { intros r st Hr. pose proof (lookup_lt_Some _ _ _ Hr) as Hlt.
    rewrite Hsrc_eq by lia.
    destruct (Hsrc r) as [st_s Hst_s]; [lia|]. exists st_s.
    pose proof (mod_back_range P P_range (Z.of_nat r) 1).
    split; [lia|]. split; [done|].
    rewrite ring_ag_first_before_sum. cbn [fst snd]. rewrite Hdst by lia.
    split; [done|].
    destruct (Hw _ _ Hst_s) as (_ & Hh & Hwd & _).
    rewrite (Width_is_W _ Hwd).
    apply (slice_view (p_mat st_s) (Z.of_nat r)); [done|done|lia]. }
  exists w'. split; [done|]. split; [lia|].
  intros r l Hr'. pose proof (lookup_lt_Some _ _ _ Hr') as Hlt.
  destruct (lookup_lt_is_Some_2 w r) as [st Hr]; [lia|].
  destruct (Hsrc r) as [st_s Hst_s]; [lia|].
  pose proof (mod_back_range P P_range (Z.of_nat r) 1) as Hsr.
  rewrite <- Hsrc_eq in Hst_s by lia.
  rewrite (Hw' r st st_s Hr Hst_s), !ring_ag_first_before_sum in Hr'.
  cbn [fst snd] in Hr'. injection Hr' as <-.
  rewrite ring_ag_first_after_sum. cbn [rl_proc rl_recv_buf rl_send_size
                                         p_mat p_comm].
  rewrite Hsrc_eq in * by lia. rewrite Hdst by lia.
  destruct (Hw _ _ Hr) as (Hc & Hh & Hwd & Hcols).
  destruct (Hw _ _ Hst_s) as (_ & Hh' & Hwd' & Hcols').
  rewrite Z2Nat.id in Hcols' by lia.
  rewrite (Width_is_W _ Hwd), (Width_is_W _ Hwd').
  assert (((Z.of_nat r - 1) mod P + 1) mod P = Z.of_nat r) as Hback
    by (apply mod_back_back; lia).
  rewrite Hback in Hcols'.
  assert ((Z.of_nat r - (1 - 1)) mod P = Z.of_nat r) as Hown
    by (rewrite Z.sub_0_r; apply Z.mod_small; lia).
  rewrite Hown.
  set (o := Z.of_nat r) in *.
  assert (0 ≤ o < P) as Ho by lia.
  destruct (slice_view (p_mat st_s) o Hh' Hwd' Ho) as (Hbh & Hblen & _ & Hb).
  pose proof (slice_bounds W P W_nonneg_ P_pos_ o Ho) as [Hlo Hhi].
  destruct (copy_into_slice (p_mat st) (view (p_mat st_s) (slice W P o)) o
              Hh Hwd Ho Hblen) as (Hh2 & Hlen2 & Hcols2).
  assert (∀ i : nat, (i < Z.to_nat (slice_hi W P o - slice_lo W P o))%nat →
            columns (view (p_mat st_s) (slice W P o)) !! i
            = Some (tot (Z.to_nat (slice_lo W P o) + i)%nat)) as Hbuf.
  { intros i Hi. rewrite Hb by done. apply Hcols'; lia. }
  split; [done|]. split; [done|]. split; [done|]. split.
  { intros t j Ht Hj Hin. rewrite Hcols2 by done.
    destruct (decide (in_slice o j)) as [Hino|Hnot].
    - rewrite Hbuf by lia. do 2 f_equal. lia.
    - assert (t = 0) as ->.
      { destruct (decide (t = 0)) as [|Hne]; [done|].
        assert (t = 1) as -> by lia. by rewrite Hown in Hin. }
      apply Hcols; [done|].
      replace (o + 1) with (o - (0 - 1)) by lia. done. }
  split; [done|]. split; [done|]. split; [done|]. done.
Qed.

Lemma ring_ag_after_sum (step rank : Z) (buf : Mat T)
  (l : ring_local T (Mat T)) :
  let m := p_mat (rl_proc l) in
  let cols := slice (Width m) P (rs_src P step rank) in
  ring_ag_after tr P step rank buf l
  = mk_ring_local
      (mk_proc (p_comm (rl_proc l))
         (write_view m cols (mat_copy (view m cols) buf)))
      buf (Some (rl_recv_buf l)) (encoded_size sizeof_DataType buf).
Proof. done. Qed.

Lemma ring_ag_round_world (tot : nat → list T) (c : nat → lbann_comm)
  (k : Z) (w : list (ring_local T (Mat T))) :
  1 ≤ k → k + 1 < P →
  is_ring1 tot c k w →
  ∃ w', SendRecv_round max_recv_count (ring_ag_before P) (ring_src P)
          (ring_ag_after tr P k) w = Some w'
        ∧ is_ring1 tot c (k + 1) w'.
Proof.
  intros Hk Hk1 [Hlen Hw].
  assert (∀ r : nat, (r < Pn)%nat →
            ring_src P (Z.of_nat r) = (Z.of_nat r - 1) mod P) as Hsrc_eq.
  { intros r Hr. apply ring_src_spec; lia. }
  assert (∀ r : nat, (r < Pn)%nat →
            ∃ l_s, w !! Z.to_nat ((Z.of_nat r - 1) mod P) = Some l_s)
    as Hsrc.
  { intros r Hr. apply lookup_lt_is_Some_2.
    pose proof (mod_back_range P P_range (Z.of_nat r) 1). lia. }
  assert (∀ r : nat, (r < Pn)%nat →
            ring_dst P ((Z.of_nat r - 1) mod P) = Z.of_nat r) as Hdst.
  { intros r Hr. pose proof (mod_back_range P P_range (Z.of_nat r) 1).
    rewrite ring_dst_spec by lia. apply mod_back_back; lia. }
  (* the slice that the source of rank [r] forwards *)
  assert (∀ r : nat, (r < Pn)%nat →
            ((Z.of_nat (Z.to_nat ((Z.of_nat r - 1) mod P)) - (k - 1)) mod P)
            = (Z.of_nat r - k) mod P) as Hfwd.
  { intros r Hr. pose proof (mod_back_range P P_range (Z.of_nat r) 1).
    rewrite Z2Nat.id by lia. rewrite mod_back_add. f_equal. lia. }
  destruct (SendRecv_round_Some max_recv_count (ring_ag_before P) (ring_src P)
              (ring_ag_after tr P k) w)
    as (w' & Hrun & Hlen' & Hw').
  { intros r l Hr. pose proof (lookup_lt_Some _ _ _ Hr) as Hlt.
    rewrite Hsrc_eq by lia.
    destruct (Hsrc r) as [l_s Hl_s]; [lia|]. exists l_s.
    pose proof (mod_back_range P P_range (Z.of_nat r) 1).
    split; [lia|]. split; [done|].
    unfold ring_ag_before. cbn [fst snd]. rewrite Hdst by lia.
    split; [done|].
    destruct (Hw _ _ Hl_s) as (_ & _ & _ & _ & Hbh & Hblen & _ & ->).
    rewrite Hfwd in Hblen by lia.
    pose proof (mod_back_range P P_range (Z.of_nat r) k) as Ho.
    pose proof (slice_bounds W P W_nonneg_ P_pos_ _ Ho) as [Hlo Hhi].
    apply encoded_size_fits; [done|]. unfold Width. lia. }
  exists w'. split; [done|]. split; [lia|].
  intros r l' Hr'. pose proof (lookup_lt_Some _ _ _ Hr') as Hlt.
  destruct (lookup_lt_is_Some_2 w r) as [l Hr]; [lia|].
  destruct (Hsrc r) as [l_s Hl_s]; [lia|].
  rewrite <- Hsrc_eq in Hl_s by lia.
  rewrite (Hw' r l l_s Hr Hl_s) in Hr'. unfold ring_ag_before in Hr'.
  cbn [fst snd] in Hr'. injection Hr' as <-.
  rewrite ring_ag_after_sum.
  cbn [rl_proc rl_recv_buf rl_send_size p_mat p_comm].
  rewrite Hsrc_eq in Hl_s by lia.
  rewrite rs_src_spec by lia.
  pose proof (mod_back_range P P_range (Z.of_nat r) k) as Ho.
  destruct (Hw _ _ Hr) as (Hc & Hh & Hwd & Hdone & _).
  destruct (Hw _ _ Hl_s) as (_ & _ & _ & _ & Hbh & Hblen & Hbuf & _).
  rewrite Hfwd in Hblen, Hbuf by lia.
  replace (Z.of_nat r - (k + 1 - 1)) with (Z.of_nat r - k) by lia.
  set (o := (Z.of_nat r - k) mod P) in *.
  rewrite (Width_is_W _ Hwd).
  pose proof (slice_bounds W P W_nonneg_ P_pos_ o Ho) as [Hlo Hhi].
  destruct (copy_into_slice (p_mat (rl_proc l)) (rl_recv_buf l_s) o
              Hh Hwd Ho Hblen) as (Hh2 & Hlen2 & Hcols2).
  split; [done|]. split; [done|]. split; [done|]. split.
  { intros t j Ht Hj Hin. rewrite Hcols2 by done.
    destruct (decide (in_slice o j)) as [Hino|Hnot].
    - rewrite Hbuf by lia. do 2 f_equal. lia.
    - apply (Hdone t); [|done|done].
      destruct (decide (t = k + 1)) as [->|]; [|lia].
      exfalso. apply Hnot.
      by replace (Z.of_nat r - (k + 1 - 1)) with (Z.of_nat r - k) in Hin
        by lia. }
  split; [done|]. split; [done|]. split; [done|]. done.
Qed.

Lemma ring_ag_loop_world (tot : nat → list T) (c : nat → lbann_comm)
  (m : nat) :
  ∀ (k : Z) (w : list (ring_local T (Mat T))),
    1 ≤ k → k + Z.of_nat m = Z.max 1 (P - 1) →
    is_ring1 tot c k w →
    ∃ w', for_steps
            (λ step, SendRecv_round max_recv_count (ring_ag_before P)
                       (ring_src P) (ring_ag_after tr P step))
            (seqZ k (Z.of_nat m)) w = Some w'
          ∧ is_ring1 tot c (Z.max 1 (P - 1)) w'.
Proof.
  induction m as [|m IH]; intros k w Hk Hkm Hw.
  - exists w. split; [done|]. by replace (Z.max 1 (P - 1)) with k by lia.
  - rewrite seqZ_cons by lia. cbn [for_steps].
    destruct (ring_ag_round_world tot c k w) as (w1 & -> & Hw1);
      [lia|lia|done|].
    replace (Z.succ k) with (k + 1) by lia.
    replace (Z.pred (Z.of_nat (S m))) with (Z.of_nat m) by lia.
    apply IH; [lia|lia|done].
Qed.

(** when the allgather is over every column of every rank is reduced, and
    the communicators are as they were *)
Lemma ring1_complete (tot : nat → list T) (c : nat → lbann_comm) (k : Z)
  (w : list (ring_local T (Mat T))) :
  P - 1 ≤ k →
  is_ring1 tot c k w →
  is_world (rl_proc <$> w) (λ _ j, tot j)
  ∧ ∀ (r : nat) (st : proc T),
      (rl_proc <$> w) !! r = Some st → p_comm st = c r.
Proof.
  intros Hk [Hlen Hw].
  assert (∀ (r : nat) (st : proc T), (rl_proc <$> w) !! r = Some st →
            ∃ l, w !! r = Some l ∧ st = rl_proc l) as Hl.
  { intros r st Hr. rewrite list_lookup_fmap in Hr.
    destruct (w !! r) as [l|]; [|done]. injection Hr as <-. eauto. }
  split; [split; [by rewrite length_fmap|]|].
  - intros r st Hr. destruct (Hl r st Hr) as (l & Hwl & ->).
    pose proof (lookup_lt_Some _ _ _ Hwl) as Hlt.
    destruct (Hw _ _ Hwl) as (_ & Hh & Hwd & Hdone & _).
    split; [done|]. split; [done|]. intros j Hj.
    destruct (slice_cover W P W_nonneg_ P_pos_ (Z.of_nat j))
      as (o & Ho & Hin); [lia|].
    pose proof (mod_back_range P P_range (Z.of_nat r + 1) o).
    apply (Hdone ((Z.of_nat r + 1 - o) mod P)); [lia|done|].
    replace (Z.of_nat r - ((Z.of_nat r + 1 - o) mod P - 1))
      with (Z.of_nat r + 1 - (Z.of_nat r + 1 - o) mod P) by lia.
    by rewrite mod_back_owner.
  - intros r st Hr. destruct (Hl r st Hr) as (l & Hwl & ->).
    by destruct (Hw _ _ Hwl) as (Hc & _).
Qed.

(** *** The ring on a world of equal shapes *)

Lemma ring_world (f : nat → Z → list T) (w : list (proc T)) :
  is_world w (λ r j, f j r) →
  ∃ w', ring_allreduce tr max_recv_count w = Some w'
        ∧ is_world w' (λ _ j, range_sum (f j) 0 P)
        ∧ ∀ (r : nat) (st st' : proc T),
            w !! r = Some st → w' !! r = Some st' → p_comm st' = p_comm st.
Proof.
  intros Hw. pose proof Hw as [Hlen Hw0]. unfold ring_allreduce.
  rewrite Hlen.
  set (c := λ r : nat, default (mk_comm 0 0 0 0 0 0 0 0 0 ∅)
                          (p_comm <$> w !! r)).
  destruct (ring_rs_loop_world f c (Z.to_nat (P - 1)) 0 w)
    as (w1 & Hrun1 & Hw1); [lia|lia| |].
  { split; [done|]. intros r st Hr.
    destruct (Hw0 r st Hr) as (Hh & Hwd & Hcols).
    split; [by unfold c; rewrite Hr|]. split; [done|]. split; [done|].
    intros d j Hd Hj _. rewrite Hcols by done. f_equal.
    destruct (decide (d ≤ 0)) as [?|?]; [|done].
    assert (d = 0) as -> by lia. done. }
  rewrite Z2Nat.id in Hrun1 by lia. rewrite Hrun1.
  destruct Hw1 as [Hlen1 Hw1].
  destruct (ring_ag_first_world (λ j, range_sum (f j) 0 P) c w1)
    as (w2 & -> & Hw2).
  { split; [done|]. intros r st Hr.
    pose proof (lookup_lt_Some _ _ _ Hr) as Hlt.
    destruct (Hw1 r st Hr) as (Hc & Hh & Hwd & Hcols).
    split; [done|]. split; [done|]. split; [done|]. intros j Hj Hin.
    rewrite (Hcols (P - 1) j); [|lia|done|].
    - rewrite decide_True by lia. f_equal. apply (ring_sum (f j)). lia.
    - replace (Z.of_nat r - (P - 1)) with (Z.of_nat r + 1 + (-1) * P) by lia.
      by rewrite Z_mod_plus_full. }
  destruct (ring_ag_loop_world (λ j, range_sum (f j) 0 P) c
              (Z.to_nat (P - 2)) 1 w2)
    as (w3 & Hrun3 & Hw3); [lia|lia|done|].
  assert (seqZ 1 (P - 2) = seqZ 1 (Z.of_nat (Z.to_nat (P - 2)))) as ->.
  { destruct (decide (P - 2 < 0)).
    - by rewrite !seqZ_nil by lia.
    - by rewrite Z2Nat.id by lia. }
  rewrite Hrun3. eexists. split; [done|].
  destruct (ring1_complete _ c (Z.max 1 (P - 1)) w3 ltac:(lia) Hw3)
    as [Hdone Hcomm].
  split; [done|]. intros r st st' Hr Hr'.
  rewrite (Hcomm r st' Hr'). unfold c. by rewrite Hr.
Qed.

(** *** What a round leaves on a rank *)

Lemma SendRecv_round_inv {Buf S S1 S2 : Type} (max : Z)
  (before : Z → S → S1 * (Buf * Z * Z)) (src : Z → Z)
  (after : Z → Buf → S1 → S2) (w0 : list S) (w' : list S2) :
  SendRecv_round max before src after w0 = Some w' →
  ∀ (r : nat) (st' : S2), w' !! r = Some st' →
    ∃ st st_s, w0 !! r = Some st
               ∧ w0 !! Z.to_nat (src (Z.of_nat r)) = Some st_s
               ∧ 0 ≤ src (Z.of_nat r)
               ∧ st' = after (Z.of_nat r)
                         (before (src (Z.of_nat r)) st_s).2.1.1
                         (before (Z.of_nat r) st).1.
Proof.
  unfold SendRecv_round. intros Hrun r st' Hr'.
  apply mapM_Some in Hrun.
  destruct (Forall2_lookup_r _ _ _ _ _ Hrun Hr') as ([r1 [st1 m1]] & Hx & Hfx).
  apply list_lookup_imap_Some in Hx as (y & Hy & [= -> Hy']).
  apply list_lookup_imap_Some in Hy as (st & Hst & ->).
  cbn in Hy'. exists st.
  destruct (Z.leb_spec 0 (src (Z.of_nat r))) as [Hge|]; [|done].
  destruct (imap _ w0 !! Z.to_nat (src (Z.of_nat r)))
    as [[st_s1 [[msg size] dst]]|] eqn:Hs; [|done].
  apply list_lookup_imap_Some in Hs as (st_s & Hst_s & Hbs).
  rewrite Z2Nat.id in Hbs by done.
  exists st_s. split; [done|]. split; [done|]. split; [done|].
  destruct (_ && _); [|done]. injection Hfx as <-.
  rewrite <- Hbs, <- Hy'. done.
Qed.

(** *** Sums over the slices of the ring *)

Lemma Zsum_perm (l l' : list Z) :
  l ≡ₚ l' → foldr Z.add 0 l = foldr Z.add 0 l'.
Proof. induction 1; cbn; lia. Qed.

Lemma Zsum_snoc (l : list Z) (x : Z) :
  foldr Z.add 0 (l ++ [x]) = foldr Z.add 0 l + x.
Proof. induction l as [|y l IH]; cbn; lia. Qed.

(** the number of columns of slice [i] *)
Local Abbreviation slice_len i := (slice_hi W P i%Z - slice_lo W P i%Z).

Lemma slice_len_nonneg (i : Z) : 0 ≤ i < P → 0 ≤ slice_len i.
Proof.
  intros Hi. pose proof (slice_bounds W P W_nonneg_ P_pos_ i Hi). lia.
Qed.

(** going once round the ring, forwards or backwards from any rank, passes
    every slice once *)
Lemma ring_once (step : Z → Z) :
  (∀ i, 0 ≤ i < P → 0 ≤ step i < P) →
  (∀ i i', 0 ≤ i < P → 0 ≤ i' < P → step i = step i' → i = i') →
  (∀ x, 0 ≤ x < P → ∃ i, 0 ≤ i < P ∧ step i = x) →
  foldr Z.add 0 ((λ i, slice_len (step i)) <$> seqZ 0 P) = W.
Proof.
  intros Hrange Hinj Hsurj.
  assert (step <$> seqZ 0 P ≡ₚ seqZ 0 P) as Hperm.
  { apply NoDup_Permutation.
    - apply NoDup_fmap_2_strong; [|apply NoDup_seqZ].
      intros i i' Hi Hi' Heq. apply elem_of_seqZ in Hi, Hi'.
      apply Hinj; [lia|lia|done].
    - apply NoDup_seqZ.
    - intros x. rewrite list_elem_of_fmap, elem_of_seqZ. split.
      + intros (i & -> & Hi). apply elem_of_seqZ in Hi.
        pose proof (Hrange i). lia.
      + intros Hx. destruct (Hsurj x) as (i & Hi & <-); [lia|].
        exists i. split; [done|]. apply elem_of_seqZ. lia. }
  rewrite (list_fmap_compose step (λ o, slice_len o)).
  rewrite (Zsum_perm _ ((λ o, slice_len o) <$> seqZ 0 P))
    by (by apply fmap_Permutation).
  assert (∀ n : nat, Z.of_nat n ≤ P →
            foldr Z.add 0 ((λ o, slice_len o) <$> seqZ 0 (Z.of_nat n))
            = slice_lo W P 0 + (W / P * Z.of_nat n
                                + Z.min (Z.of_nat n) (W mod P))) as Hsum.
  { pose proof (Z.mod_pos_bound W P ltac:(lia)).
    induction n as [|n IH]; intros Hn.
    - rewrite seqZ_nil by lia. cbn [fmap list_fmap foldr].
      rewrite (slice_lo_spec W P W_nonneg_ P_pos_) by lia. lia.
    - rewrite seqZ_S, fmap_app. cbn [fmap list_fmap].
      rewrite Zsum_snoc, IH by lia. rewrite Z.add_0_l.
      rewrite (slice_hi_spec W P W_nonneg_ P_pos_),
        !(slice_lo_spec W P W_nonneg_ P_pos_) by lia.
      lia. }
  rewrite (Hsum Pn) by lia.
  rewrite (slice_lo_spec W P W_nonneg_ P_pos_) by lia.
  pose proof (Z.mod_pos_bound W P ltac:(lia)).
  pose proof (Z.div_mod W P ltac:(lia)). nia.
Qed.

Lemma ring_once_up (r : Z) :
  0 ≤ r < P →
  foldr Z.add 0 ((λ i, slice_len ((r + i) mod P)) <$> seqZ 0 P) = W.
Proof.
  intros Hr. apply (ring_once (λ i, (r + i) mod P)).
  - intros i _. apply Z.mod_pos_bound. lia.
  - intros i i' Hi Hi' Heq.
    assert (((r + i) mod P - r) mod P = i) as <-.
    { rewrite Zminus_mod_idemp_l. replace (r + i - r) with i by lia.
      apply Z.mod_small. lia. }
    rewrite Heq, Zminus_mod_idemp_l. replace (r + i' - r) with i' by lia.
    apply Z.mod_small. lia.
  - intros x Hx. exists ((x - r) mod P). split.
    + apply Z.mod_pos_bound. lia.
    + rewrite Zplus_mod_idemp_r. replace (r + (x - r)) with x by lia.
      apply Z.mod_small. lia.
Qed.

Lemma ring_once_down (r : Z) :
  foldr Z.add 0 ((λ k, slice_len ((r - k) mod P)) <$> seqZ 0 P) = W.
Proof.
  apply (ring_once (λ k, (r - k) mod P)).
  - intros k _. apply Z.mod_pos_bound. lia.
  - intros k k' Hk Hk'. by apply mod_back_inj.
  - intros x Hx. exists ((r - x) mod P). split.
    + apply Z.mod_pos_bound. lia.
    + by apply mod_back_owner.
Qed.

(** *** The byte counters *)

Lemma count_step (k b S x bytes : Z) :
  bytes = (b + k * S) mod 2 ^ 64 →
  to_uint64 (bytes + to_uint64 (k * x)) = (b + k * (S + x)) mod 2 ^ 64.
Proof.
  intros ->. unfold to_uint64.
  rewrite Zplus_mod_idemp_l, Zplus_mod_idemp_r. f_equal. lia.
Qed.

Lemma bytes_after_round (ns nr : Z) (c : lbann_comm) :
  bytes_sent (add_bytes_received nr (add_bytes_sent ns c))
  = to_uint64 (bytes_sent c + to_uint64 ns)
  ∧ bytes_received (add_bytes_received nr (add_bytes_sent ns c))
    = to_uint64 (bytes_received c + to_uint64 nr).
Proof. done. Qed.

Lemma encoded_size_slice (m : Mat T) (o : Z) :
  Height m = H → length (columns m) = Wn → 0 ≤ o < P →
  encoded_size sizeof_DataType (view m (slice W P o))
  = sizeof_DataType * H * slice_len o.
Proof.
  intros Hh Hwd Ho.
  destruct (slice_view m o Hh Hwd Ho) as (Hvh & Hvlen & _).
  pose proof (slice_bounds W P W_nonneg_ P_pos_ o Ho).
  unfold encoded_size, Width. rewrite Hvh, Hvlen. f_equal. lia.
Qed.

Local Abbreviation counted bs br S R w :=
  (bytes_counted sizeof_DataType H bs br S R w).
Local Abbreviation counted_ring bs br S R w :=
  (bytes_counted_ring sizeof_DataType H bs br S R w).

Lemma counted_ring_lookup (bs br : nat → Z) (S R : Z → Z)
  (w : list (ring_local T (Mat T))) :
  counted_ring bs br S R w
  ↔ ∀ (r : nat) (l : ring_local T (Mat T)), w !! r = Some l →
      bytes_sent (p_comm (rl_proc l))
      = (bs r + sizeof_DataType * H * S (Z.of_nat r)) mod 2 ^ 64
      ∧ bytes_received (p_comm (rl_proc l))
        = (br r + sizeof_DataType * H * R (Z.of_nat r)) mod 2 ^ 64.
Proof.
  unfold bytes_counted_ring, bytes_counted. split.
  - intros Hw r l Hr. apply Hw. by rewrite list_lookup_fmap, Hr.
  - intros Hw r st Hr. rewrite list_lookup_fmap in Hr.
    destruct (w !! r) as [l|] eqn:Hl; [|done]. injection Hr as <-. eauto.
Qed.

(** **** Recursive doubling: the whole matrix in every round *)

Lemma rd_round_counted (mask : Z) (w w' : list (proc T))
  (F : Z → nat → list T) (bs br : nat → Z) (k : Z) :
  is_world w F →
  SendRecv_round max_recv_count (rd_before tr mask)
    (λ rank, Z.lxor rank mask) (rd_after tr) w = Some w' →
  counted bs br (λ _, k * W) (λ _, k * W) w →
  counted bs br (λ _, (k + 1) * W) (λ _, (k + 1) * W) w'.
Proof.
  intros [Hlen Hw] Hrun Hcnt r st' Hr'.
  destruct (SendRecv_round_inv _ _ _ _ _ _ Hrun r st' Hr')
    as (st & st_s & Hr & Hs & _ & ->).
  rewrite !rd_before_sum. cbn [fst snd]. unfold rd_after.
  cbn [recv_apply_transform sum_transforms p_comm p_mat].
  destruct (Hw _ _ Hr) as (Hh & Hwd & _).
  destruct (Hw _ _ Hs) as (Hh' & Hwd' & _).
  destruct (Hcnt _ _ Hr) as [Hbs Hbr].
  unfold encoded_size. rewrite Hh, Hh', (Width_is_W _ Hwd), (Width_is_W _ Hwd').
  destruct (bytes_after_round (sizeof_DataType * H * W)
              (sizeof_DataType * H * W) (p_comm st)) as [-> ->].
  rewrite (count_step (sizeof_DataType * H) (bs r) (k * W) W _ Hbs).
  rewrite (count_step (sizeof_DataType * H) (br r) (k * W) W _ Hbr).
  split; f_equal; lia.
Qed.

Lemma rd_loop_counted (f : nat → Z → list T) (bs br : nat → Z) (n : Z)
  (m : nat) :
  Z.of_nat Pn = 2 ^ n → n ≤ 30 →
  ∀ (k : Z) (fuel : nat) (w : list (proc T)),
    0 ≤ k → k + Z.of_nat m = n → (m ≤ fuel)%nat →
    is_world w (λ r j, range_sum (f j) (r - r mod 2 ^ k) (2 ^ k)) →
    counted bs br (λ _, k * W) (λ _, k * W) w →
    ∃ w', rd_loop tr fuel max_recv_count (Z.of_nat Pn) (2 ^ k) w = Some w'
          ∧ counted bs br (λ _, n * W) (λ _, n * W) w'.
Proof.
  intros HP Hn.
  assert (to_uint32 (Z.of_nat Pn) = Z.of_nat Pn) as HP32.
  { unfold to_uint32. apply Z.mod_small. rewrite HP. split.
    - apply Z.pow_nonneg. lia.
    - apply Z.pow_lt_mono_r; lia. }
  induction m as [|m IH]; intros k fuel w Hk Hkm Hfuel Hw Hcnt.
  - assert (k = n) as -> by lia. exists w. split; [|done].
    destruct fuel; cbn; rewrite HP32, HP, Z.ltb_irrefl; done.
  - destruct fuel as [|fuel]; [lia|].
    assert (2 ^ k < 2 ^ n) as Hlt by (apply Z.pow_lt_mono_r; lia).
    destruct (rd_round_world (2 ^ k) w
                (λ r j, range_sum (f j) (r - r mod 2 ^ k) (2 ^ k)))
      as (w1 & Hrun & Hw1); [|exact Hw|].
    { intros r Hr. rewrite HP in *. apply lxor_pow2_lt; lia. }
    pose proof (rd_round_counted (2 ^ k) w w1
                  (λ r j, range_sum (f j) (r - r mod 2 ^ k) (2 ^ k))
                  bs br k Hw Hrun Hcnt) as Hcnt1.
    cbn [rd_loop]. rewrite HP32, HP.
    destruct (Z.ltb_spec (2 ^ k) (2 ^ n)); [|lia]. cbn [negb].
    rewrite <- HP, Hrun.
    assert (to_uint32 (Z.shiftl (2 ^ k) 1) = 2 ^ (k + 1)) as ->.
    { rewrite Z.shiftl_mul_pow2, <- Z.pow_add_r by lia.
      unfold to_uint32. apply Z.mod_small. split.
      - apply Z.pow_nonneg. lia.
      - apply Z.pow_lt_mono_r; lia. }
    apply IH; [lia|lia|lia| |done].
    refine (is_world_ext w1
              (λ r j, cadd (range_sum (f j) (r - r mod 2 ^ k) (2 ^ k))
                        (range_sum (f j)
                           (Z.lxor r (2 ^ k) - Z.lxor r (2 ^ k) mod 2 ^ k)
                           (2 ^ k)))
              (λ r j, range_sum (f j) (r - r mod 2 ^ (k + 1)) (2 ^ (k + 1)))
              _ Hw1).
    intros r j Hr Hj. apply rd_step_sum; lia.
Qed.

(** the counters of a world whose counters are [size_t] values *)
Lemma counted_start (bs br : nat → Z) (w : list (proc T)) :
  (∀ (r : nat) (st : proc T), w !! r = Some st →
     bytes_sent (p_comm st) = bs r ∧ bytes_received (p_comm st) = br r
     ∧ 0 ≤ bs r < 2 ^ 64 ∧ 0 ≤ br r < 2 ^ 64) →
  counted bs br (λ _, 0) (λ _, 0) w.
Proof.
  intros Hw r st Hr. destruct (Hw r st Hr) as (-> & -> & Hs & Hr').
  rewrite !Z.mul_0_r, !Z.add_0_r, !Z.mod_small by done. done.
Qed.

Lemma rd_counted (f : nat → Z → list T) (bs br : nat → Z) (n : Z)
  (w : list (proc T)) :
  0 ≤ n → P = 2 ^ n →
  is_world w (λ r j, f j r) →
  counted bs br (λ _, 0) (λ _, 0) w →
  ∃ w', recursive_doubling_allreduce_pow2 tr max_recv_count w = Some w'
        ∧ counted bs br (λ _, n * W) (λ _, n * W) w'.
Proof.
  intros Hn HP Hw Hcnt. pose proof Hw as [Hlen _].
  unfold recursive_doubling_allreduce_pow2. rewrite Hlen.
  assert ((Z.land P (int_sub P 1) =? 0) = true) as ->.
  { apply pow2_test; [lia|unfold INT_MIN, INT_MAX; lia|]. by exists n. }
  cbn [negb].
  assert (n ≤ 30) as Hn30.
  { apply (Z.pow_le_mono_r_iff 2); lia. }
  change 1 with (2 ^ 0).
  apply (rd_loop_counted f bs br n (Z.to_nat n)); [done|done|lia|lia|lia| |].
  - refine (is_world_ext w (λ r j, f j r)
              (λ r j, range_sum (f j) (r - r mod 2 ^ 0) (2 ^ 0)) _ Hw).
    intros r j _ _. change (2 ^ 0) with 1. rewrite Z.mod_1_r, Z.sub_0_r.
    done.
  - intros r st Hr. destruct (Hcnt r st Hr) as [-> ->].
    by rewrite !Z.mul_0_l.
Qed.

(** **** Pairwise-exchange ring: one slice in every step *)

Lemma rs_after_comm (rank : Z) (buf : Mat T) (st : proc T) :
  p_comm (rs_after tr P rank buf st)
  = add_bytes_received (encoded_size sizeof_DataType buf) (p_comm st).
Proof. done. Qed.

Lemma rs_round_counted (s : Z) (w w' : list (proc T))
  (F : Z → nat → list T) (bs br : nat → Z) (S R : Z → Z) :
  0 ≤ s → s + 1 < P →
  is_world w F →
  SendRecv_round max_recv_count (rs_before tr P (s + 1))
    (rs_src P (s + 1)) (rs_after tr P) w = Some w' →
  counted bs br S R w →
  counted bs br (λ r, S r + slice_len ((r + (s + 1)) mod P))
    (λ r, R r + slice_len r) w'.
Proof.
  intros Hs Hs1 [Hlen Hw] Hrun Hcnt r st' Hr'.
  destruct (SendRecv_round_inv _ _ _ _ _ _ Hrun r st' Hr')
    as (st & st_s & Hr & Hst_s & _ & ->).
  pose proof (lookup_lt_Some _ _ _ Hr) as Hlt.
  rewrite rs_after_comm, !rs_before_sum. cbn [fst snd p_comm p_mat].
  destruct (Hw _ _ Hr) as (Hh & Hwd & _).
  destruct (Hw _ _ Hst_s) as (Hh' & Hwd' & _).
  destruct (Hcnt _ _ Hr) as [Hbs Hbr].
  rewrite (Width_is_W _ Hwd), (Width_is_W _ Hwd').
  rewrite (rs_src_spec P P_range) by lia.
  pose proof (mod_back_range P P_range (Z.of_nat r) (s + 1)) as Hsr.
  rewrite !(dst_spec P P_range) by lia.
  rewrite mod_back_back by lia.
  rewrite !encoded_size_slice
    by (done || lia || (apply Z.mod_pos_bound; lia)).
  destruct (bytes_after_round
              (sizeof_DataType * H * slice_len ((Z.of_nat r + (s + 1)) mod P))
              (sizeof_DataType * H * slice_len (Z.of_nat r)) (p_comm st))
    as [-> ->].
  rewrite (count_step (sizeof_DataType * H) (bs r) _ _ _ Hbs).
  rewrite (count_step (sizeof_DataType * H) (br r) _ _ _ Hbr).
  done.
Qed.

Lemma rs_loop_counted (f : nat → Z → list T) (bs br : nat → Z) (m : nat) :
  ∀ (s : Z) (w : list (proc T)) (S R : Z → Z),
    0 ≤ s → s + Z.of_nat m = P - 1 →
    is_world w (rs_fun f s) →
    counted bs br S R w →
    ∃ w', for_steps
            (λ step, SendRecv_round max_recv_count (rs_before tr P step)
                       (rs_src P step) (rs_after tr P))
            (seqZ (s + 1) (Z.of_nat m)) w = Some w'
          ∧ is_world w' (rs_fun f (P - 1))
          ∧ counted bs br
              (λ r, S r + foldr Z.add 0
                            ((λ i, slice_len ((r + i) mod P))
                               <$> seqZ (s + 1) (Z.of_nat m)))
              (λ r, R r + Z.of_nat m * slice_len r) w'.
Proof.
  induction m as [|m IH]; intros s w S R Hs Hsm Hw Hcnt.
  - exists w. split; [done|]. split; [by replace (P - 1) with s by lia|].
    intros r st Hr. destruct (Hcnt r st Hr) as [-> ->].
    rewrite seqZ_nil by lia. cbn [fmap list_fmap foldr].
    split; f_equal; lia.
  - rewrite seqZ_cons by lia. cbn [for_steps].
    destruct (rs_round_world f s w) as (w1 & Hrun & Hw1); [lia|lia|done|].
    pose proof (rs_round_counted s w w1 (rs_fun f s) bs br S R
                  ltac:(lia) ltac:(lia) Hw Hrun Hcnt) as Hcnt1.
    rewrite Hrun.
    replace (Z.succ (s + 1)) with (s + 1 + 1) by lia.
    replace (Z.pred (Z.of_nat (Datatypes.S m))) with (Z.of_nat m) by lia.
    destruct (IH (s + 1) w1 _ _ ltac:(lia) ltac:(lia) Hw1 Hcnt1)
      as (w' & Hrun' & Hw' & Hcnt').
    exists w'. split; [done|]. split; [done|].
    intros r st Hr. destruct (Hcnt' r st Hr) as [-> ->].
    cbn [fmap list_fmap foldr]. split; f_equal; lia.
Qed.

Lemma ag_first_after_comm (rank : Z) (buf : Mat T) (st : proc T) :
  p_comm (rl_proc (ag_first_after tr P rank buf st))
  = add_bytes_received (encoded_size sizeof_DataType buf) (p_comm st).
Proof. done. Qed.

Lemma ag_first_before_comm (rank : Z) (st : proc T) :
  p_comm (ag_first_before tr P rank st).1
  = add_bytes_sent
      (encoded_size sizeof_DataType
         (view (p_mat st) (slice (Width (p_mat st)) P rank))) (p_comm st).
Proof. done. Qed.

Lemma ag_first_counted (w : list (proc T))
  (w' : list (ring_local T (Mat T))) (F : Z → nat → list T)
  (bs br : nat → Z) (S R : Z → Z) :
  is_world w F →
  SendRecv_round max_recv_count (ag_first_before tr P) (ring_src P)
    (ag_first_after tr P) w = Some w' →
  counted bs br S R w →
  counted_ring bs br (λ r, S r + slice_len r)
    (λ r, R r + slice_len ((r - 1) mod P)) w'.
Proof.
  intros [Hlen Hw] Hrun Hcnt. apply counted_ring_lookup. intros r l Hr'.
  destruct (SendRecv_round_inv _ _ _ _ _ _ Hrun r l Hr')
    as (st & st_s & Hr & Hst_s & _ & ->).
  pose proof (lookup_lt_Some _ _ _ Hr) as Hlt.
  rewrite ag_first_after_comm, ag_first_before_comm.
  destruct (ag_first_before_sum (ring_src P (Z.of_nat r)) st_s) as [-> _].
  cbn [fst snd].
  destruct (Hw _ _ Hr) as (Hh & Hwd & _).
  destruct (Hw _ _ Hst_s) as (Hh' & Hwd' & _).
  destruct (Hcnt _ _ Hr) as [Hbs Hbr].
  rewrite (Width_is_W _ Hwd), (Width_is_W _ Hwd').
  rewrite (ring_src_spec P P_range) by lia.
  pose proof (mod_back_range P P_range (Z.of_nat r) 1) as Hsr.
  rewrite !encoded_size_slice by (done || lia).
  destruct (bytes_after_round
              (sizeof_DataType * H * slice_len (Z.of_nat r))
              (sizeof_DataType * H * slice_len ((Z.of_nat r - 1) mod P))
              (p_comm st)) as [-> ->].
  rewrite (count_step (sizeof_DataType * H) (bs r) _ _ _ Hbs).
  rewrite (count_step (sizeof_DataType * H) (br r) _ _ _ Hbr).
  done.
Qed.

Lemma ag_after_comm (step rank : Z) (buf : Mat T)
  (l : ring_local T (Mat T)) :
  p_comm (rl_proc (ag_after tr P step rank buf l))
  = add_bytes_received (encoded_size sizeof_DataType buf)
      (p_comm (rl_proc l)).
Proof. done. Qed.

Lemma ag_before_comm (rank : Z) (l : ring_local T (Mat T)) :
  p_comm (rl_proc (ag_before P rank l).1)
  = add_bytes_sent (rl_send_size l) (p_comm (rl_proc l)).
Proof. done. Qed.

Lemma ag_round_counted (tot : nat → list T) (k : Z)
  (w w' : list (ring_local T (Mat T))) (bs br : nat → Z) (S R : Z → Z) :
  1 ≤ k → k + 1 < P →
  is_ring tot k w →
  SendRecv_round max_recv_count (ag_before P) (ring_src P)
    (ag_after tr P k) w = Some w' →
  counted_ring bs br S R w →
  counted_ring bs br (λ r, S r + slice_len ((r - k) mod P))
    (λ r, R r + slice_len ((r - (k + 1)) mod P)) w'.
Proof.
  intros Hk Hk1 [Hlen Hw] Hrun Hcnt.
  pose proof (proj1 (counted_ring_lookup _ _ _ _ _) Hcnt) as Hcnt'.
  apply counted_ring_lookup. intros r l' Hr'.
  destruct (SendRecv_round_inv _ _ _ _ _ _ Hrun r l' Hr')
    as (l & l_s & Hr & Hl_s & _ & ->).
  pose proof (lookup_lt_Some _ _ _ Hr) as Hlt.
  rewrite ag_after_comm, ag_before_comm.
  destruct (ag_before_sum (ring_src P (Z.of_nat r)) l_s) as [-> _].
  cbn [fst snd].
  rewrite (ring_src_spec P P_range) in * by lia.
  pose proof (mod_back_range P P_range (Z.of_nat r) 1) as Hsr.
  pose proof (mod_back_range P P_range (Z.of_nat r) k) as Hok.
  pose proof (mod_back_range P P_range (Z.of_nat r) (k + 1)) as Hok1.
  destruct (Hw _ _ Hr) as (_ & _ & _ & Hbh & Hblen & _ & Hsize).
  destruct (Hw _ _ Hl_s) as (_ & _ & _ & Hbh' & Hblen' & _ & _).
  rewrite Z2Nat.id, mod_back_add in Hblen' by lia.
  replace (1 + k) with (k + 1) in Hblen' by lia.
  destruct (Hcnt' _ _ Hr) as [Hbs Hbr].
  pose proof (slice_len_nonneg _ Hok). pose proof (slice_len_nonneg _ Hok1).
  rewrite Hsize. unfold encoded_size, Width.
  rewrite Hbh, Hbh', Hblen, Hblen', !Z2Nat.id by lia.
  destruct (bytes_after_round
              (sizeof_DataType * H * slice_len ((Z.of_nat r - k) mod P))
              (sizeof_DataType * H * slice_len ((Z.of_nat r - (k + 1)) mod P))
              (p_comm (rl_proc l))) as [-> ->].
  rewrite (count_step (sizeof_DataType * H) (bs r) _ _ _ Hbs).
  rewrite (count_step (sizeof_DataType * H) (br r) _ _ _ Hbr).
  done.
Qed.

Lemma ag_loop_counted (tot : nat → list T) (bs br : nat → Z) (m : nat) :
  ∀ (k : Z) (w : list (ring_local T (Mat T))) (S R : Z → Z),
    1 ≤ k → k + Z.of_nat m = Z.max 1 (P - 1) →
    is_ring tot k w →
    counted_ring bs br S R w →
    ∃ w', for_steps
            (λ step, SendRecv_round max_recv_count (ag_before P) (ring_src P)
                       (ag_after tr P step))
            (seqZ k (Z.of_nat m)) w = Some w'
          ∧ is_ring tot (Z.max 1 (P - 1)) w'
          ∧ counted_ring bs br
              (λ r, S r + foldr Z.add 0
                            ((λ i, slice_len ((r - i) mod P))
                               <$> seqZ k (Z.of_nat m)))
              (λ r, R r + foldr Z.add 0
                            ((λ i, slice_len ((r - (i + 1)) mod P))
                               <$> seqZ k (Z.of_nat m))) w'.
Proof.
  induction m as [|m IH]; intros k w S R Hk Hkm Hw Hcnt.
  - exists w. split; [done|].
    split; [by replace (Z.max 1 (P - 1)) with k by lia|].
    intros r st Hr. destruct (Hcnt r st Hr) as [-> ->].
    rewrite seqZ_nil by lia. cbn [fmap list_fmap foldr].
    split; f_equal; lia.
  - rewrite seqZ_cons by lia. cbn [for_steps].
    destruct (ag_round_world tot k w) as (w1 & Hrun & Hw1); [lia|lia|done|].
    pose proof (ag_round_counted tot k w w1 bs br S R
                  ltac:(lia) ltac:(lia) Hw Hrun Hcnt) as Hcnt1.
    rewrite Hrun.
    replace (Z.succ k) with (k + 1) by lia.
    replace (Z.pred (Z.of_nat (Datatypes.S m))) with (Z.of_nat m) by lia.
    destruct (IH (k + 1) w1 _ _ ltac:(lia) ltac:(lia) Hw1 Hcnt1)
      as (w' & Hrun' & Hw' & Hcnt').
    exists w'. split; [done|]. split; [done|].
    intros r st Hr. destruct (Hcnt' r st Hr) as [-> ->].
    cbn [fmap list_fmap foldr]. split; f_equal; lia.
Qed.

(** the slices a rank sends and receives in all steps of the ring *)
Lemma ring_sums (r : Z) :
  0 ≤ r < P → 2 ≤ P →
  foldr Z.add 0 ((λ i, slice_len ((r + i) mod P)) <$> seqZ 1 (P - 1))
  = W - slice_len r
  ∧ slice_len r
    + foldr Z.add 0 ((λ i, slice_len ((r - i) mod P)) <$> seqZ 1 (P - 2))
    = W - slice_len ((r + 1) mod P)
  ∧ slice_len ((r - 1) mod P)
    + foldr Z.add 0
        ((λ i, slice_len ((r - (i + 1)) mod P)) <$> seqZ 1 (P - 2))
    = W - slice_len r.
Proof.
  intros Hr HP.
  pose proof (ring_once_up r Hr) as Hup.
  pose proof (ring_once_down r) as Hdown.
  rewrite (seqZ_cons 0 P) in Hup, Hdown by lia.
  cbn [fmap list_fmap foldr] in Hup, Hdown.
  change (Z.succ 0) with 1 in Hup, Hdown.
  replace (Z.pred P) with (P - 1) in Hup, Hdown by lia.
  rewrite Z.add_0_r, Z.sub_0_r, (Z.mod_small r P) in * by lia.
  split; [lia|].
  assert (foldr Z.add 0 ((λ i, slice_len ((r - i) mod P)) <$> seqZ 1 (P - 1))
          = foldr Z.add 0
              ((λ i, slice_len ((r - i) mod P)) <$> seqZ 1 (P - 2))
            + slice_len ((r + 1) mod P)) as Hlast.
  { replace (P - 1) with ((P - 2) + 1) at 1 by lia.
    rewrite seqZ_app by lia. rewrite fmap_app.
    rewrite (seqZ_cons _ 1), (seqZ_nil _ (Z.pred 1)) by lia.
    cbn [fmap list_fmap]. rewrite Zsum_snoc.
    assert ((r - (1 + (P - 2))) mod P = (r + 1) mod P) as ->; [|done].
    replace (r - (1 + (P - 2))) with (r + 1 + (-1) * P) by lia.
    by rewrite Z_mod_plus_full. }
  split; [lia|].
  assert (foldr Z.add 0 ((λ i, slice_len ((r - i) mod P)) <$> seqZ 1 (P - 1))
          = slice_len ((r - 1) mod P)
            + foldr Z.add 0
                ((λ i, slice_len ((r - (i + 1)) mod P)) <$> seqZ 1 (P - 2)))
    as Hfirst.
  { rewrite (seqZ_cons 1 (P - 1)) by lia. cbn [fmap list_fmap foldr].
    do 2 f_equal. change (Z.succ 1) with (1 + 1).
    replace (Z.pred (P - 1)) with (P - 2) by lia.
    apply (fmap_seqZ_shift (λ i, slice_len ((r - i) mod P)) 1 1 (P - 2)). }
  lia.
Qed.

Lemma pe_ring_counted (f : nat → Z → list T) (bs br : nat → Z)
  (w : list (proc T)) :
  is_world w (λ r j, f j r) →
  counted bs br (λ _, 0) (λ _, 0) w →
  ∃ w', pe_ring_allreduce tr max_recv_count w = Some w'
        ∧ counted bs br
            (λ r, if decide (P = 1) then W
                  else 2 * W - slice_len r - slice_len ((r + 1) mod P))
            (λ r, if decide (P = 1) then W
                  else W + (P - 2) * slice_len r) w'.
Proof.
  intros Hw Hcnt. pose proof Hw as [Hlen _]. unfold pe_ring_allreduce.
  rewrite Hlen.
  assert (is_world w (rs_fun f 0)) as Hw0.
  { refine (is_world_ext w (λ r j, f j r) (rs_fun f 0) _ Hw).
    intros r j _ _. cbn. by destruct (decide _). }
  destruct (rs_loop_counted f bs br (Z.to_nat (P - 1)) 0 w
              (λ _, 0) (λ _, 0) ltac:(lia) ltac:(lia) Hw0 Hcnt)
    as (w1 & Hrun1 & Hw1 & Hcnt1).
  rewrite Z.add_0_l, Z2Nat.id in Hrun1 by lia. rewrite Hrun1.
  destruct (ag_first_world (rs_fun f (P - 1))
              (λ j, range_sum (f j) 0 P) w1) as (w2 & Hrun2 & Hw2);
    [|done|].
  { intros r j Hr Hj Hin. rewrite decide_True by done.
    by apply ring_sum. }
  pose proof (ag_first_counted w1 w2 (rs_fun f (P - 1)) bs br _ _
                Hw1 Hrun2 Hcnt1) as Hcnt2.
  rewrite Hrun2.
  destruct (ag_loop_counted (λ j, range_sum (f j) 0 P) bs br
              (Z.to_nat (P - 2)) 1 w2 _ _ ltac:(lia) ltac:(lia) Hw2 Hcnt2)
    as (w3 & Hrun3 & [Hlen3 _] & Hcnt3).
  assert (seqZ 1 (Z.of_nat (Z.to_nat (P - 2))) = seqZ 1 (P - 2)) as Hseq.
  { destruct (decide (P - 2 < 0)).
    - by rewrite !seqZ_nil by lia.
    - by rewrite Z2Nat.id by lia. }
  rewrite Hseq in Hrun3. rewrite Hrun3.
  eexists. split; [done|].
  intros r st Hr. destruct (Hcnt3 r st Hr) as [-> ->].
  pose proof (lookup_lt_Some _ _ _ Hr) as Hlt.
  rewrite length_fmap, Hlen3 in Hlt.
  rewrite Hseq, Z2Nat.id by lia. change (0 + 1) with 1.
  destruct (decide (P = 1)) as [HP1|HP1].
  - assert (r = O) as -> by lia.
    pose proof (ring_once_up 0 ltac:(lia)) as Hup.
    rewrite HP1 in Hup |- *.
    change (seqZ 1 (1 - 1)) with (@nil Z).
    change (seqZ 1 (1 - 2)) with (@nil Z).
    change (seqZ 0 1) with [0] in Hup.
    cbn [fmap list_fmap foldr] in Hup |- *.
    change (Z.of_nat 0) with 0. rewrite !Z.mod_1_r in *.
    split; f_equal; lia.
  - destruct (ring_sums (Z.of_nat r)) as (H1 & H2 & H3); [lia|lia|].
    split; do 3 f_equal; lia.
Qed.

End sum_allreduce.

(** *** The sum of the matrices *)

Section total.
Context {T : Type}.
Variable add : T → T → T.

Local Abbreviation cadd := (zip_with add).

Lemma Mat_eq (a b : Mat T) :
  Height a = Height b → columns a = columns b → a = b.
Proof. destruct a, b. cbn. by intros -> ->. Qed.

(** column [j] of the sum of matrices of one width is the sum of their
    columns [j] *)
Lemma mat_sum_columns (h : Z) (n : nat) (m0 : Mat T) (ms : list (Mat T)) :
  Height m0 = h → length (columns m0) = n →
  Forall (λ m, length (columns m) = n) ms →
  Height (mat_sum add m0 ms) = h
  ∧ length (columns (mat_sum add m0 ms)) = n
  ∧ ∀ j : nat, (j < n)%nat →
      columns (mat_sum add m0 ms) !! j
      = Some (foldl cadd (default [] (columns m0 !! j))
                ((λ m, default [] (columns m !! j)) <$> ms)).
Proof.
  intros Hh Hlen. induction ms as [|m ms IH] using rev_ind; intros Hms.
  - split; [done|]. split; [done|]. intros j Hj. cbn.
    destruct (lookup_lt_is_Some_2 (columns m0) j) as [c ->]; [lia|]. done.
  - apply Forall_app in Hms as [Hms Hm]. apply Forall_inv in Hm.
    destruct (IH Hms) as (IHh & IHlen & IHcols).
    unfold mat_sum in *. rewrite foldl_app. cbn [foldl].
    split; [done|]. split.
    { unfold mat_add at 1. cbn [columns]. rewrite length_zip_with. lia. }
    intros j Hj. rewrite fmap_app, foldl_app. cbn [fmap list_fmap foldl].
    destruct (lookup_lt_is_Some_2 (columns m) j) as [c Hc]; [lia|].
    rewrite Hc. cbn [default]. unfold mat_add at 1. cbn [columns].
    rewrite lookup_zip_with, IHcols, Hc by done. done.
Qed.

End total.

(** *** The allreduce of a sum *)

Lemma forallb_const {A} (h : A → bool) (b : bool) (l : list A) :
  l ≠ [] → Forall (λ x, h x = b) l → forallb h l = b.
Proof.
  intros Hne Hall. destruct l as [|x l]; [done|].
  apply Forall_cons in Hall as [Hx Hl]. cbn. rewrite Hx.
  destruct b; [|done]. cbn. clear Hne Hx.
  induction Hl as [|y l Hy _ IH]; [done|]. cbn. by rewrite Hy.
Qed.

(** C1: let the ranks of the inter-model communicator, at most 2^30 of
    them, hold matrices of one shape, each rank knowing the number of
    models, and let the transforms be those of the plain sum for an
    addition that is associative and commutative, with a receive buffer
    that holds a whole matrix.  Then [intermodel_allreduce] completes and
    leaves on every rank the same matrix, the entry-by-entry sum of the
    matrices of all ranks.  The same holds for each of the two algorithms
    called on its own: recursive doubling when the number of ranks is a
    power of two, and the pairwise-exchange ring for every number of
    ranks. *)
Theorem intermodel_allreduce_sum {T : Type} (add : T → T → T)
  (sizeof_DataType max_recv_count : Z) (st0 : proc T)
  (others : list (proc T)) :
  (∀ x y z, add x (add y z) = add (add x y) z) →
  (∀ x y, add x y = add y x) →
  let w := st0 :: others in
  let tr := sum_transforms add sizeof_DataType in
  let total := mat_sum add (p_mat st0) (p_mat <$> others) in
  let all_hold_total (result : option (list (proc T))) :=
    ∃ w', result = Some w' ∧ length w' = length w
          ∧ Forall (λ st', p_mat st' = total) w' in
  Z.of_nat (length w) ≤ 2 ^ 30 →
  0 ≤ sizeof_DataType →
  0 ≤ Height (p_mat st0) →
  sizeof_DataType * Height (p_mat st0) * Width (p_mat st0) ≤ max_recv_count →
  Forall (λ st, Height (p_mat st) = Height (p_mat st0)
                ∧ Width (p_mat st) = Width (p_mat st0)
                ∧ num_models (p_comm st) = Z.of_nat (length w)) w →
  all_hold_total (intermodel_allreduce tr max_recv_count w)
  ∧ (is_pow2 (Z.of_nat (length w)) →
     all_hold_total (recursive_doubling_allreduce_pow2 tr max_recv_count w))
  ∧ all_hold_total (pe_ring_allreduce tr max_recv_count w).
Proof.
  intros Hassoc Hcomm w tr total all_hold_total HP Hsz Hh Hmax Hshape.
  set (H := Height (p_mat st0)) in *.
  set (Wn := length (columns (p_mat st0))).
  set (Pn := length w) in *.
  assert (1 ≤ Z.of_nat Pn ≤ 2 ^ 30) as HPn
    by (split; [unfold Pn, w; simpl length; lia | done]).
  set (f := λ (j : nat) (r : Z),
         default [] (w !! Z.to_nat r ≫= λ st, columns (p_mat st) !! j)).
  (* the ranks hold their matrices *)
  assert (length w = Pn
          ∧ ∀ (r : nat) (st : proc T), w !! r = Some st →
              Height (p_mat st) = H ∧ length (columns (p_mat st)) = Wn
              ∧ ∀ j : nat, (j < Wn)%nat →
                  columns (p_mat st) !! j = Some (f j (Z.of_nat r)))
    as Hworld.
  { split; [done|]. intros r st Hr.
    destruct (Forall_lookup_1 _ _ _ _ Hshape Hr) as (Hst & Hwd & _).
    assert (length (columns (p_mat st)) = Wn) as Hlen
      by (unfold Width in Hwd; lia).
    split; [done|]. split; [done|]. intros j Hj.
    unfold f. rewrite Nat2Z.id, Hr. cbn.
    destruct (lookup_lt_is_Some_2 (columns (p_mat st)) j) as [c ->]; [lia|].
    done. }
  (* a world in which every rank holds the sums holds [total] *)
  assert (∀ w' : list (proc T),
            (length w' = Pn
             ∧ ∀ (r : nat) (st : proc T), w' !! r = Some st →
                 Height (p_mat st) = H ∧ length (columns (p_mat st)) = Wn
                 ∧ ∀ j : nat, (j < Wn)%nat →
                     columns (p_mat st) !! j
                     = Some (foldl (zip_with add) (f j 0)
                               (f j <$> seqZ (0 + 1) (Z.of_nat Pn - 1)))) →
            length w' = length w
            ∧ Forall (λ st', p_mat st' = total) w') as Hfinal.
  { intros w' [Hlen' Hw']. split; [done|].
    destruct (mat_sum_columns add H Wn (p_mat st0) (p_mat <$> others))
      as (Hth & Htlen & Htcols); [done|done| |].
    { apply Forall_fmap, Forall_lookup_2. intros i st Hi. cbn.
      destruct (Forall_lookup_1 _ w (S i) st Hshape Hi)
        as (_ & Hwd & _).
      unfold Width in Hwd. lia. }
    apply Forall_lookup_2. intros r st' Hr.
    destruct (Hw' r st' Hr) as (Hh' & Hlen'' & Hcols').
    unfold total. apply Mat_eq; [by rewrite Hth|].
    apply list_eq. intros j. destruct (decide (j < Wn)%nat) as [Hj|Hj].
    - rewrite Hcols', Htcols by done. f_equal. f_equal.
      rewrite <- list_fmap_compose. apply list_eq. intros i.
      rewrite !list_lookup_fmap.
      destruct (decide (i < length others)%nat) as [Hi|Hi].
      + rewrite lookup_seqZ_lt by (unfold Pn, w; simpl length; lia).
        destruct (lookup_lt_is_Some_2 others i Hi) as [st Hst].
        rewrite Hst. cbn. f_equal. unfold f.
        replace (Z.to_nat (0 + 1 + Z.of_nat i)) with (S i) by lia.
        change (w !! S i) with (others !! i). by rewrite Hst.
      + rewrite lookup_seqZ_ge by (unfold Pn, w; simpl length; lia).
        by rewrite lookup_ge_None_2 by lia.
    - by rewrite !lookup_ge_None_2 by lia. }
  assert (sizeof_DataType * H * Z.of_nat Wn ≤ max_recv_count) as Hmax'
    by done.
  (* the pairwise-exchange ring *)
  assert (all_hold_total (pe_ring_allreduce tr max_recv_count w)) as Hpe.
  { destruct (pe_ring_world add Hassoc Hcomm sizeof_DataType max_recv_count
                H Wn Pn Hsz Hh Hmax' HPn f w Hworld) as (w' & Hrun & Hw').
    exists w'. split; [done|]. by apply Hfinal. }
  (* recursive doubling *)
  assert (is_pow2 (Z.of_nat Pn) →
          all_hold_total (recursive_doubling_allreduce_pow2 tr
                            max_recv_count w)) as Hrd.
  { intros Hpow.
    destruct (rd_world add Hassoc Hcomm sizeof_DataType max_recv_count
                H Wn Pn Hsz Hh Hmax' HPn f w Hpow Hworld)
      as (w' & Hrun & Hw').
    exists w'. split; [done|]. by apply Hfinal. }
  split; [|by split].
  (* the dispatch *)
  unfold intermodel_allreduce.
  set (alg := intermodel_allreduce_algorithm (Z.of_nat Pn) H
                (Width (p_mat st0))).
  assert (Forall (λ st, algorithm_of st = alg) w) as Halg.
  { apply Forall_lookup_2. intros r st Hr.
    destruct (Forall_lookup_1 _ _ _ _ Hshape Hr) as (Hst & Hwd & Hnm).
    unfold algorithm_of. by rewrite Hst, Hwd, Hnm. }
  destruct alg eqn:Halg_eq.
  - rewrite (forallb_const _ true) by
      (done || (eapply Forall_impl; [exact Halg|]; by intros st ->)).
    apply Hrd. unfold alg, intermodel_allreduce_algorithm in Halg_eq.
    destruct (Z.land (Z.of_nat Pn) (int_sub (Z.of_nat Pn) 1) =? 0) eqn:Hland;
      [|done].
    apply pow2_test in Hland; [done|lia|unfold INT_MIN, INT_MAX; lia].
  - rewrite (forallb_const _ false) by
      (done || (eapply Forall_impl; [exact Halg|]; by intros st ->)).
    rewrite (forallb_const _ true) by
      (done || (eapply Forall_impl; [exact Halg|]; by intros st ->)).
    done.
Qed.

(** four models whose ranks hold [[1]], [[2]], [[3]] and [[4]]: every rank
    ends with [[10]], by the dispatch and by each algorithm *)
Lemma intermodel_allreduce_sum_witness :
  let rank (v : Z) :=
    mk_proc (mk_comm 1 4 (v - 1) 0 0 0 0 0 0 ∅) (mk_Mat 1 [[v]]) in
  let w := [rank 1; rank 2; rank 3; rank 4] in
  let tr := sum_transforms Z.add 4 in
  let all_hold_total (result : option (list (proc Z))) :=
    ∃ w', result = Some w' ∧ length w' = 4%nat
          ∧ Forall (λ st', p_mat st' = mk_Mat 1 [[10]]) w' in
  all_hold_total (intermodel_allreduce tr 4 w)
  ∧ all_hold_total (recursive_doubling_allreduce_pow2 tr 4 w)
  ∧ all_hold_total (pe_ring_allreduce tr 4 w).
Proof.
  intros rank w tr all_hold_total.
  destruct (intermodel_allreduce_sum Z.add 4 4 (rank 1)
              [rank 2; rank 3; rank 4] Z.add_assoc Z.add_comm)
    as (Hdispatch & Hrd & Hring).
  all: cbv zeta.
  - simpl length; lia.
  - lia.
  - unfold rank; simpl; lia.
  - unfold rank, Width; simpl; lia.
  - unfold rank; repeat constructor.
  - split; [exact Hdispatch|]. split; [|exact Hring].
    apply Hrd. exists 2. split; [lia|reflexivity].
Defined.

(** Commutativity of the addition is used above, and it is needed.  The
    first projection is associative and not commutative: when two ranks
    holding [[1]] and [[2]] reduce with it, recursive doubling applies the
    received matrix to the local one on both ranks, and the ranks end with
    different matrices. *)
Remark recursive_doubling_of_a_projection :
  let rank (v : Z) :=
    mk_proc (mk_comm 1 2 (v - 1) 0 0 0 0 0 0 ∅) (mk_Mat 1 [[v]]) in
  option_map (fmap (λ st, columns (p_mat st)))
    (intermodel_allreduce (sum_transforms (λ x _ : Z, x) 4) 4
       [rank 1; rank 2])
  = Some [[[1]]; [[2]]].
Proof. reflexivity. Qed.

(** *** The dispatch *)

(** C2: let the ranks of the inter-model communicator hold communicators
    as the constructor makes them, on a world of [world_size] processes
    with [ppm] processes per model, and matrices of one shape.  When the
    number of models is a power of two and neither dimension of the matrix
    exceeds 64, [intermodel_allreduce] is the call of
    [recursive_doubling_allreduce_pow2] with its arguments; in every other
    case it is the call of [pe_ring_allreduce] with them. *)
Theorem allreduce_dispatch_rule {T Buf : Type} (tr : transforms T Buf)
  (max_recv_count world_size ppm : Z) (st0 : proc T)
  (others : list (proc T)) :
  let w := st0 :: others in
  let nprocs := num_models (p_comm st0) in
  let height := Height (p_mat st0) in
  let width := Width (p_mat st0) in
  1 ≤ world_size ≤ INT_MAX →
  Forall (λ st,
            (∃ world_rank c,
               lbann_comm_ctor world_size world_rank ppm = Ret c
               ∧ num_models (p_comm st) = num_models c)
            ∧ Height (p_mat st) = height ∧ Width (p_mat st) = width) w →
  (is_pow2 nprocs ∧ height ≤ 64 ∧ width ≤ 64 →
   intermodel_allreduce tr max_recv_count w
   = recursive_doubling_allreduce_pow2 tr max_recv_count w)
  ∧ (¬ (is_pow2 nprocs ∧ height ≤ 64 ∧ width ≤ 64) →
     intermodel_allreduce tr max_recv_count w
     = pe_ring_allreduce tr max_recv_count w).
Proof.
  intros w nprocs height width Hws Hranks.
  pose proof (Forall_inv Hranks) as ((wr0 & c0 & Hc0 & Hn0) & _).
  destruct (ctor_num_models _ _ _ _ Hws Hc0) as [Hne Hrange].
  rewrite <- Hn0 in Hne, Hrange. fold nprocs in Hne, Hrange.
  destruct (dispatch_by_num_models nprocs height width Hne Hrange)
    as [Hrd Hpe].
  set (alg := intermodel_allreduce_algorithm nprocs height width) in *.
  assert (Forall (λ st, algorithm_of st = alg) w) as Halg.
  { eapply Forall_impl; [exact Hranks|].
    intros st ((wr & c & Hc & Hn) & Hh & Hw). unfold algorithm_of.
    rewrite Hh, Hw, Hn, <- (ctor_num_models_agree _ _ _ _ _ _ Hc0 Hc), <- Hn0.
    done. }
  unfold intermodel_allreduce. split.
  - intros Hsmall. specialize (Hrd Hsmall).
    rewrite (forallb_const _ true); [done|done|].
    eapply Forall_impl; [exact Halg|]. intros st ->. by rewrite Hrd.
  - intros Hnot. specialize (Hpe Hnot).
    rewrite (forallb_const _ false); [|done|].
    + rewrite (forallb_const _ true); [done|done|].
      eapply Forall_impl; [exact Halg|]. intros st ->. by rewrite Hpe.
    + eapply Forall_impl; [exact Halg|]. intros st ->. by rewrite Hpe.
Qed.

(** four models of two processes: matrices of 1 x 16 go to recursive
    doubling, matrices of 1 x 100 to the pairwise-exchange ring *)
Lemma allreduce_dispatch_rule_witness :
  let rank (width : nat) (v : Z) :=
    mk_proc (mk_comm 2 4 (v - 1) 0 0 0 0 0 0 ∅)
      (mk_Mat 1 (replicate width [v])) in
  let small := [rank 16%nat 1; rank 16%nat 2; rank 16%nat 3; rank 16%nat 4] in
  let wide :=
    [rank 100%nat 1; rank 100%nat 2; rank 100%nat 3; rank 100%nat 4] in
  let tr := sum_transforms Z.add 4 in
  intermodel_allreduce tr 400 small
  = recursive_doubling_allreduce_pow2 tr 400 small
  ∧ intermodel_allreduce tr 400 wide = pe_ring_allreduce tr 400 wide.
Proof.
  intros rank small wide tr.
  assert (∀ width v,
            (∃ world_rank c, lbann_comm_ctor 8 world_rank 2 = Ret c
                             ∧ num_models (p_comm (rank width v))
                               = num_models c)) as Hctor
    by (intros; exists 0, (mk_comm 2 4 0 0 0 0 0 0 0 ∅); split; reflexivity).
  split.
  - apply (allreduce_dispatch_rule tr 400 8 2 (rank 16%nat 1)
             [rank 16%nat 2; rank 16%nat 3; rank 16%nat 4]).
    + unfold INT_MAX; lia.
    + repeat (constructor; [split; [apply Hctor | split; reflexivity]|]).
      constructor.
    + split; [exists 2; split; [lia | reflexivity]|].
      unfold rank, Width; simpl; lia.
  - apply (allreduce_dispatch_rule tr 400 8 2 (rank 100%nat 1)
             [rank 100%nat 2; rank 100%nat 3; rank 100%nat 4]).
    + unfold INT_MAX; lia.
    + repeat (constructor; [split; [apply Hctor | split; reflexivity]|]).
      constructor.
    + intros (_ & _ & Hwide). unfold rank, Width in Hwide. simpl in Hwide.
      lia.
Defined.

(** *** Edges of the algorithms *)

(** X8.  Recursive doubling on a number of ranks that is not a power of two
    returns at once, whatever the transforms are: no rank sends, no matrix
    and no counter changes. *)
Theorem recursive_doubling_not_pow2 {T Buf : Type} (tr : transforms T Buf)
  (max_recv_count : Z) (w : list (proc T)) :
  Z.of_nat (length w) ≤ INT_MAX →
  ¬ is_pow2 (Z.of_nat (length w)) →
  recursive_doubling_allreduce_pow2 tr max_recv_count w = Some w.
Proof.
  intros Hlen Hnot. unfold recursive_doubling_allreduce_pow2.
  destruct (decide (Z.of_nat (length w) = 0)) as [->|Hne].
  { by vm_compute. }
  destruct (Z.land _ _ =? 0) eqn:Htest; [|done].
  apply pow2_test in Htest; [done|done|unfold INT_MIN; lia].
Qed.

Lemma recursive_doubling_not_pow2_witness :
  let rank (v : Z) :=
    mk_proc (mk_comm 1 3 (v - 1) 0 0 0 0 0 0 ∅) (mk_Mat 1 [[v]]) in
  recursive_doubling_allreduce_pow2 (sum_transforms Z.add 4) 4
    [rank 1; rank 2; rank 3]
  = Some [rank 1; rank 2; rank 3].
Proof.
  intros rank. apply recursive_doubling_not_pow2.
  - by vm_compute.
  - intros (k & Hk & Hk3). simpl in Hk3.
    destruct (decide (k ≤ 1)) as [?|?].
    + assert (k = 0 ∨ k = 1) as [-> | ->] by lia; simpl in Hk3; lia.
    + assert (2 ^ 2 ≤ 2 ^ k) by (apply Z.pow_le_mono_r; lia). lia.
Defined.

(** X9.  The slices of the two ring algorithms cut the columns [0, W) into one
    run of consecutive columns for each rank, in the order of the ranks:
    the first starts at 0, each starts where the one before ends, the last
    ends at [W].  Every slice has [W / P] columns, and the first [W mod P]
    of them one more. *)
Theorem slices_partition_columns (W P : Z) :
  0 ≤ W → 1 ≤ P →
  slice_lo W P 0 = 0
  ∧ slice_hi W P (P - 1) = W
  ∧ (∀ i, 0 ≤ i < P - 1 → slice_lo W P (i + 1) = slice_hi W P i)
  ∧ (∀ i, 0 ≤ i < P →
       slice_hi W P i - slice_lo W P i
       = W / P + (if i <? W mod P then 1 else 0)).
Proof.
  intros HW HP.
  pose proof (Z.mod_pos_bound W P ltac:(lia)) as Hrem.
  pose proof (Z.div_mod W P ltac:(lia)) as Hdiv.
  split; [|split; [|split]].
  - rewrite slice_lo_spec by lia. lia.
  - rewrite slice_hi_spec by lia. nia.
  - intros i Hi. by rewrite slice_lo_spec, slice_hi_spec by lia.
  - intros i Hi. rewrite slice_lo_spec, slice_hi_spec by lia.
    destruct (Z.ltb_spec i (W mod P)); lia.
Qed.

(** seven columns over three ranks: slices of 3, 2 and 2 columns *)
Lemma slices_partition_columns_witness :
  slice_lo 7 3 0 = 0
  ∧ slice_hi 7 3 (3 - 1) = 7
  ∧ (∀ i, 0 ≤ i < 3 - 1 → slice_lo 7 3 (i + 1) = slice_hi 7 3 i)
  ∧ (∀ i, 0 ≤ i < 3 →
       slice_hi 7 3 i - slice_lo 7 3 i
       = 7 / 3 + (if i <? 7 mod 3 then 1 else 0)).
Proof. apply slices_partition_columns; lia. Defined.

(** *** The ring that is not dispatched to, and the byte counters *)

(** the ranks of a world of equal shapes hold their own columns *)
Lemma world_of_equal_shapes {T : Type} (st0 : proc T)
  (others : list (proc T)) :
  let w := st0 :: others in
  Forall (λ st, Height (p_mat st) = Height (p_mat st0)
                ∧ Width (p_mat st) = Width (p_mat st0)) w →
  length w = length w
  ∧ ∀ (r : nat) (st : proc T), w !! r = Some st →
      Height (p_mat st) = Height (p_mat st0)
      ∧ length (columns (p_mat st)) = length (columns (p_mat st0))
      ∧ ∀ j : nat, (j < length (columns (p_mat st0)))%nat →
          columns (p_mat st) !! j
          = Some (default []
                    (w !! Z.to_nat (Z.of_nat r)
                     ≫= λ st, columns (p_mat st) !! j)).
Proof.
  intros w Hshape. split; [done|]. intros r st Hr.
  destruct (Forall_lookup_1 _ _ _ _ Hshape Hr) as (Hst & Hwd).
  assert (length (columns (p_mat st)) = length (columns (p_mat st0))) as Hlen
    by (unfold Width in Hwd; lia).
  split; [done|]. split; [done|]. intros j Hj.
  rewrite Nat2Z.id, Hr. cbn.
  destruct (lookup_lt_is_Some_2 (columns (p_mat st)) j) as [c ->]; [lia|].
  done.
Qed.

(** a world whose ranks hold the sums of the columns holds the sum of the
    matrices *)
Lemma world_holds_total {T : Type} (add : T → T → T) (st0 : proc T)
  (others w' : list (proc T)) :
  let w := st0 :: others in
  Forall (λ st, Height (p_mat st) = Height (p_mat st0)
                ∧ Width (p_mat st) = Width (p_mat st0)) w →
  (∀ (r : nat) (st : proc T), w' !! r = Some st →
     Height (p_mat st) = Height (p_mat st0)
     ∧ length (columns (p_mat st)) = length (columns (p_mat st0))
     ∧ ∀ j : nat, (j < length (columns (p_mat st0)))%nat →
         columns (p_mat st) !! j
         = Some (foldl (zip_with add)
                   (default [] (w !! Z.to_nat 0
                                ≫= λ st, columns (p_mat st) !! j))
                   ((λ r, default []
                            (w !! Z.to_nat r
                             ≫= λ st, columns (p_mat st) !! j))
                      <$> seqZ (0 + 1) (Z.of_nat (length w) - 1)))) →
  Forall (λ st', p_mat st' = mat_sum add (p_mat st0) (p_mat <$> others)) w'.
Proof.
  intros w Hshape Hw'.
  set (Wn := length (columns (p_mat st0))) in *.
  destruct (mat_sum_columns add (Height (p_mat st0)) Wn (p_mat st0)
              (p_mat <$> others)) as (Hth & Htlen & Htcols); [done|done| |].
  { apply Forall_fmap, Forall_lookup_2. intros i st Hi. cbn.
    destruct (Forall_lookup_1 _ w (S i) st Hshape Hi) as (_ & Hwd).
    unfold Width in Hwd. lia. }
  apply Forall_lookup_2. intros r st' Hr.
  destruct (Hw' r st' Hr) as (Hh' & Hlen'' & Hcols').
  apply Mat_eq; [by rewrite Hth|].
  apply list_eq. intros j. destruct (decide (j < Wn)%nat) as [Hj|Hj].
  - rewrite Hcols', Htcols by done. f_equal. f_equal.
    rewrite <- list_fmap_compose. apply list_eq. intros i.
    rewrite !list_lookup_fmap.
    destruct (decide (i < length others)%nat) as [Hi|Hi].
    + rewrite lookup_seqZ_lt by (unfold w; simpl length; lia).
      destruct (lookup_lt_is_Some_2 others i Hi) as [st Hst].
      rewrite Hst. cbn. f_equal.
      replace (Z.to_nat (0 + 1 + Z.of_nat i)) with (S i) by lia.
      change (w !! S i) with (others !! i). by rewrite Hst.
    + rewrite lookup_seqZ_ge by (unfold w; simpl length; lia).
      by rewrite lookup_ge_None_2 by lia.
  - by rewrite !lookup_ge_None_2 by lia.
Qed.

(** X10.  [ring_allreduce] reduces as the two algorithms of the dispatch do: on
    at most 2^30 ranks that hold matrices of one shape, with the transforms
    of a sum whose addition is associative and commutative and a receive
    buffer for a whole matrix, it completes, and every rank holds the sum
    of the matrices of all ranks.  Unlike them it adds nothing to
    [bytes_sent] and [bytes_received]. *)
Theorem ring_allreduce_sum {T : Type} (add : T → T → T)
  (sizeof_DataType max_recv_count : Z) (st0 : proc T)
  (others : list (proc T)) :
  (∀ x y z, add x (add y z) = add (add x y) z) →
  (∀ x y, add x y = add y x) →
  let w := st0 :: others in
  Z.of_nat (length w) ≤ 2 ^ 30 →
  0 ≤ sizeof_DataType →
  0 ≤ Height (p_mat st0) →
  sizeof_DataType * Height (p_mat st0) * Width (p_mat st0) ≤ max_recv_count →
  Forall (λ st, Height (p_mat st) = Height (p_mat st0)
                ∧ Width (p_mat st) = Width (p_mat st0)) w →
  ∃ w', ring_allreduce (sum_transforms add sizeof_DataType) max_recv_count w
        = Some w'
        ∧ Forall2 (λ st st',
                     p_mat st' = mat_sum add (p_mat st0) (p_mat <$> others)
                     ∧ bytes_sent (p_comm st') = bytes_sent (p_comm st)
                     ∧ bytes_received (p_comm st')
                       = bytes_received (p_comm st)) w w'.
Proof.
  intros Hassoc Hcomm w HP Hsz Hh Hmax Hshape.
  assert (1 ≤ Z.of_nat (length w) ≤ 2 ^ 30) as HPn
    by (split; [unfold w; simpl length; lia | done]).
  destruct (ring_world add Hassoc Hcomm sizeof_DataType max_recv_count
              (Height (p_mat st0)) (length (columns (p_mat st0)))
              (length w) Hsz Hh Hmax HPn
              (λ j r, default []
                        (w !! Z.to_nat r ≫= λ st, columns (p_mat st) !! j))
              w (world_of_equal_shapes st0 others Hshape))
    as (w' & Hrun & [Hlen' Hw'] & Hcomm').
  exists w'. split; [done|].
  pose proof (world_holds_total add st0 others w' Hshape Hw') as Htotal.
  apply Forall2_same_length_lookup_2; [done|].
  intros r st st' Hr Hr'. split.
  - apply (Forall_lookup_1 _ _ _ _ Htotal Hr').
  - by rewrite (Hcomm' r st st' Hr Hr').
Qed.

(** three ranks with seven columns each: all end with the sums, and with
    the counters they had *)
Lemma ring_allreduce_sum_witness :
  let rank (v : Z) :=
    mk_proc (mk_comm 1 3 (v - 1) 0 0 0 0 5 7 ∅)
      (mk_Mat 1 (replicate 7 [v])) in
  let w := [rank 1; rank 2; rank 3] in
  ∃ w', ring_allreduce (sum_transforms Z.add 4) 28 w = Some w'
        ∧ Forall2 (λ st st',
                     p_mat st' = mk_Mat 1 (replicate 7 [6])
                     ∧ bytes_sent (p_comm st') = bytes_sent (p_comm st)
                     ∧ bytes_received (p_comm st')
                       = bytes_received (p_comm st)) w w'.
Proof.
  intros rank w.
  apply (ring_allreduce_sum Z.add 4 28 (rank 1) [rank 2; rank 3]
           Z.add_assoc Z.add_comm).
  - simpl length; lia.
  - lia.
  - unfold rank; simpl; lia.
  - unfold rank, Width; simpl; lia.
  - unfold rank; repeat constructor.
Defined.

(** the counters a world starts from *)
Lemma counters_of_world {T : Type} (sizeof_DataType H : Z)
  (w : list (proc T)) :
  Forall (λ st, 0 ≤ bytes_sent (p_comm st) < 2 ^ 64
                ∧ 0 ≤ bytes_received (p_comm st) < 2 ^ 64) w →
  bytes_counted sizeof_DataType H
    (λ r, default 0 (bytes_sent ∘ p_comm <$> w !! r))
    (λ r, default 0 (bytes_received ∘ p_comm <$> w !! r))
    (λ _, 0) (λ _, 0) w.
Proof.
  intros Hw r st Hr. rewrite Hr. cbn.
  destruct (Forall_lookup_1 _ _ _ _ Hw Hr) as [Hs Hr'].
  rewrite !Z.mul_0_r, !Z.add_0_r, !Z.mod_small by done. done.
Qed.

(** X11.  The bytes that recursive doubling counts.  On [2 ^ n] ranks with
    matrices of one shape and counters that are [size_t] values, the sum
    allreduce by recursive doubling adds, on every rank, [n] times the
    size of the whole matrix to [bytes_sent] and as much to
    [bytes_received], in [size_t] arithmetic: one matrix out and one in for
    every round. *)
Theorem recursive_doubling_counts_bytes {T : Type} (add : T → T → T)
  (sizeof_DataType max_recv_count : Z) (st0 : proc T)
  (others : list (proc T)) (n : Z) :
  (∀ x y z, add x (add y z) = add (add x y) z) →
  (∀ x y, add x y = add y x) →
  let w := st0 :: others in
  let size := sizeof_DataType * Height (p_mat st0) * Width (p_mat st0) in
  0 ≤ n ≤ 30 → Z.of_nat (length w) = 2 ^ n →
  0 ≤ sizeof_DataType →
  0 ≤ Height (p_mat st0) →
  size ≤ max_recv_count →
  Forall (λ st, Height (p_mat st) = Height (p_mat st0)
                ∧ Width (p_mat st) = Width (p_mat st0)) w →
  Forall (λ st, 0 ≤ bytes_sent (p_comm st) < 2 ^ 64
                ∧ 0 ≤ bytes_received (p_comm st) < 2 ^ 64) w →
  ∃ w', recursive_doubling_allreduce_pow2
          (sum_transforms add sizeof_DataType) max_recv_count w = Some w'
        ∧ Forall2 (λ st st',
                     bytes_sent (p_comm st')
                     = (bytes_sent (p_comm st) + n * size) mod 2 ^ 64
                     ∧ bytes_received (p_comm st')
                       = (bytes_received (p_comm st) + n * size) mod 2 ^ 64)
            w w'.
Proof.
  intros Hassoc Hcomm w size Hn HP Hsz Hh Hmax Hshape Hcounters.
  assert (1 ≤ Z.of_nat (length w) ≤ 2 ^ 30) as HPn.
  { rewrite HP. split.
    - pose proof (Z.pow_pos_nonneg 2 n). lia.
    - apply Z.pow_le_mono_r; lia. }
  pose proof (world_of_equal_shapes st0 others Hshape) as Hworld.
  assert (is_pow2 (Z.of_nat (length w))) as Hpow
    by (exists n; split; [lia|done]).
  destruct (rd_world add Hassoc Hcomm sizeof_DataType max_recv_count
              (Height (p_mat st0)) (length (columns (p_mat st0)))
              (length w) Hsz Hh Hmax HPn
              (λ j r, default []
                        (w !! Z.to_nat r ≫= λ st, columns (p_mat st) !! j))
              w Hpow Hworld)
    as (w' & Hrun & [Hlen' _]).
  destruct (rd_counted add Hassoc Hcomm sizeof_DataType max_recv_count
              (Height (p_mat st0)) (length (columns (p_mat st0)))
              (length w) Hsz Hh Hmax HPn
              (λ j r, default []
                        (w !! Z.to_nat r ≫= λ st, columns (p_mat st) !! j))
              _ _ n w ltac:(lia) HP Hworld
              (counters_of_world sizeof_DataType (Height (p_mat st0)) w
                 Hcounters)) as (w'' & Hrun' & Hcnt).
  assert (w'' = w') as -> by congruence.
  exists w'. split; [done|].
  apply Forall2_same_length_lookup_2; [done|].
  intros r st st' Hr Hr'. destruct (Hcnt r st' Hr') as [-> ->].
  rewrite Hr. cbn. unfold size, Width. split; f_equal; lia.
Qed.

(** four ranks, two rounds, a matrix of four bytes: eight bytes each way *)
Lemma recursive_doubling_counts_bytes_witness :
  let rank (v : Z) :=
    mk_proc (mk_comm 1 4 (v - 1) 0 0 0 0 5 7 ∅) (mk_Mat 1 [[v]]) in
  let w := [rank 1; rank 2; rank 3; rank 4] in
  ∃ w', recursive_doubling_allreduce_pow2 (sum_transforms Z.add 4) 4 w
        = Some w'
        ∧ Forall2 (λ st st',
                     bytes_sent (p_comm st')
                     = (bytes_sent (p_comm st) + 2 * 4) mod 2 ^ 64
                     ∧ bytes_received (p_comm st')
                       = (bytes_received (p_comm st) + 2 * 4) mod 2 ^ 64)
            w w'.
Proof.
  intros rank w.
  apply (recursive_doubling_counts_bytes Z.add 4 4 (rank 1)
           [rank 2; rank 3; rank 4] 2 Z.add_assoc Z.add_comm).
  - lia.
  - reflexivity.
  - lia.
  - unfold rank; simpl; lia.
  - unfold rank, Width; simpl; lia.
  - unfold rank; repeat constructor.
  - unfold rank; repeat constructor; simpl; lia.
Defined.

(** X12.  The bytes that the pairwise-exchange ring counts.  On [P] ranks with
    matrices of [W] columns, rank [r], whose slice has [len r] columns,
    sends every slice but its own in the reduce-scatter and every slice but
    that of rank [r + 1] in the allgather, and receives its own slice
    [P - 1] times and then every other slice once.  The counters move by
    the sizes of these columns, in [size_t] arithmetic.  A single rank
    sends its matrix to itself, and counts it once each way. *)
Theorem pe_ring_counts_bytes {T : Type} (add : T → T → T)
  (sizeof_DataType max_recv_count : Z) (st0 : proc T)
  (others : list (proc T)) :
  (∀ x y z, add x (add y z) = add (add x y) z) →
  (∀ x y, add x y = add y x) →
  let w := st0 :: others in
  let P := Z.of_nat (length w) in
  let H := Height (p_mat st0) in
  let W := Width (p_mat st0) in
  let len (i : Z) := slice_hi W P i - slice_lo W P i in
  let sent (r : Z) :=
    if decide (P = 1) then W else 2 * W - len r - len ((r + 1) mod P) in
  let received (r : Z) :=
    if decide (P = 1) then W else W + (P - 2) * len r in
  P ≤ 2 ^ 30 →
  0 ≤ sizeof_DataType →
  0 ≤ H →
  sizeof_DataType * H * W ≤ max_recv_count →
  Forall (λ st, Height (p_mat st) = H ∧ Width (p_mat st) = W) w →
  Forall (λ st, 0 ≤ bytes_sent (p_comm st) < 2 ^ 64
                ∧ 0 ≤ bytes_received (p_comm st) < 2 ^ 64) w →
  ∃ w', pe_ring_allreduce (sum_transforms add sizeof_DataType)
          max_recv_count w = Some w'
        ∧ length w' = length w
        ∧ ∀ (r : nat) (st st' : proc T),
            w !! r = Some st → w' !! r = Some st' →
            bytes_sent (p_comm st')
            = (bytes_sent (p_comm st)
               + sizeof_DataType * H * sent (Z.of_nat r)) mod 2 ^ 64
            ∧ bytes_received (p_comm st')
              = (bytes_received (p_comm st)
                 + sizeof_DataType * H * received (Z.of_nat r)) mod 2 ^ 64.
Proof.
  intros Hassoc Hcomm w P H W len sent received HP Hsz Hh Hmax Hshape
    Hcounters.
  assert (1 ≤ Z.of_nat (length w) ≤ 2 ^ 30) as HPn
    by (split; [unfold w; simpl length; lia | done]).
  pose proof (world_of_equal_shapes st0 others Hshape) as Hworld.
  destruct (pe_ring_world add Hassoc Hcomm sizeof_DataType max_recv_count
              H (length (columns (p_mat st0))) (length w) Hsz Hh Hmax HPn
              (λ j r, default []
                        (w !! Z.to_nat r ≫= λ st, columns (p_mat st) !! j))
              w Hworld) as (w' & Hrun & [Hlen' _]).
  destruct (pe_ring_counted add Hassoc Hcomm sizeof_DataType max_recv_count
              H (length (columns (p_mat st0))) (length w) Hsz Hh Hmax HPn
              (λ j r, default []
                        (w !! Z.to_nat r ≫= λ st, columns (p_mat st) !! j))
              _ _ w Hworld
              (counters_of_world sizeof_DataType H w Hcounters))
    as (w'' & Hrun' & Hcnt).
  assert (w'' = w') as -> by congruence.
  exists w'. split; [done|]. split; [done|].
  intros r st st' Hr Hr'. destruct (Hcnt r st' Hr') as [-> ->].
  rewrite Hr. done.
Qed.

(** three ranks with seven columns of four bytes, in slices of 3, 2 and 2
    columns: the first rank sends 9 columns and receives 10 *)
Lemma pe_ring_counts_bytes_witness :
  let rank (v : Z) :=
    mk_proc (mk_comm 1 3 (v - 1) 0 0 0 0 5 7 ∅)
      (mk_Mat 1 (replicate 7 [v])) in
  let w := [rank 1; rank 2; rank 3] in
  ∃ w', pe_ring_allreduce (sum_transforms Z.add 4) 28 w = Some w'
        ∧ length w' = 3%nat
        ∧ ∀ (r : nat) (st st' : proc Z),
            w !! r = Some st → w' !! r = Some st' →
            bytes_sent (p_comm st')
            = (bytes_sent (p_comm st)
               + 4 * 1 * (2 * 7 - (slice_hi 7 3 (Z.of_nat r)
                                   - slice_lo 7 3 (Z.of_nat r))
                          - (slice_hi 7 3 ((Z.of_nat r + 1) mod 3)
                             - slice_lo 7 3 ((Z.of_nat r + 1) mod 3))))
              mod 2 ^ 64
            ∧ bytes_received (p_comm st')
              = (bytes_received (p_comm st)
                 + 4 * 1 * (7 + (3 - 2) * (slice_hi 7 3 (Z.of_nat r)
                                           - slice_lo 7 3 (Z.of_nat r))))
                mod 2 ^ 64.
Proof.
  intros rank w.
  apply (pe_ring_counts_bytes Z.add 4 28 (rank 1) [rank 2; rank 3]
           Z.add_assoc Z.add_comm).
  - simpl length; lia.
  - lia.
  - unfold rank; simpl; lia.
  - unfold rank, Width; simpl; lia.
  - unfold rank; repeat constructor.
  - unfold rank; repeat constructor; simpl; lia.
Defined.

End Allreduce_facts.
